(** * BackgammonCoach: the gnubg evaluation server (gnubg-server/app/main.py)

    A shallow embedding of the adapter layer of the server: the position
    identifier codec, the notation parser with its dice-sum splitting, the
    black-perspective coordinate transform, the cube-decision parser and the
    evaluation orchestrator with its lock and its fallbacks.  The
    definitions come first, module by module in the order of the source;
    the theorems follow.

    Conventions.
    - A Python [int] is a [Z]; [int(s)] and [str(n)] are modelled without
      CPython's configurable limit on the number of digits.
    - A Python [float] is a binary64 [float]; [float(s)] rounds the decimal
      to the nearest float, ties to even.
    - A Python [str] is a list of ASCII characters, or a [string] where it
      is only stored (the engine runs under LANG=C).
    - A Python list is a [list]; an index that is out of range raises
      IndexError.
    - A function that may raise returns a [result]: [Ok] or [Raise];
      [_make_position_id], which can only raise IndexError, returns an
      [option].
    - The calls of [random] in the mock strategy take their values from a
      record of draws.
    - A coroutine is a tree of the operations it awaits ([prog]); the
      replies of the engine process are its inputs. *)

From Stdlib Require Import List ZArith Lia Bool Ascii String Floats.
From Stdlib Require Import DecimalString.
Import ListNotations.

Local Open Scope Z_scope.

(* ===================================================================== *)
(** * 0. Boards and the checker-count invariant (GnuBgEngine.evaluate)     *)
(* ===================================================================== *)

Module Board.

(** Python's [sum(...)]: a left fold from 0. *)
Definition py_sum (l : list Z) : Z := fold_left Z.add l 0.

(** [sum(max(0, p) for p in req.points) + req.bar[0] + req.borne_off[0]]
    (line 134); [None] is an IndexError. *)
Definition white_count (points bar borne_off : list Z) : option Z :=
  match nth_error bar 0, nth_error borne_off 0 with
  | Some b, Some o => Some (py_sum (map (fun p => Z.max 0 p) points) + b + o)
  | _, _ => None
  end.

(** [sum(max(0, -p) for p in req.points) + req.bar[1] + req.borne_off[1]]
    (line 135). *)
Definition black_count (points bar borne_off : list Z) : option Z :=
  match nth_error bar 1, nth_error borne_off 1 with
  | Some b, Some o => Some (py_sum (map (fun p => Z.max 0 (- p)) points) + b + o)
  | _, _ => None
  end.

End Board.

(* ===================================================================== *)
(** * 1. Position identifier (GnuBgEngine._make_position_id)              *)
(* ===================================================================== *)

Module PositionId.

(** [[1] * count]: a list of [count] ones, empty when [count <= 0]. *)
Definition ones (count : Z) : list Z := repeat 1 (Z.to_nat count).

(** The first loop: [for i in range(24)], white checkers are the positive
    entries.  [idxs] is the range still to visit, [bits] the accumulator. *)
Fixpoint white_loop (points : list Z) (idxs : list nat) (bits : list Z)
  : option (list Z) :=
  match idxs with
  | [] => Some bits
  | i :: rest =>
      match nth_error points i with
      | None => None
      | Some p =>
          let count := Z.max 0 p in
          white_loop points rest ((bits ++ ones count) ++ [0])
      end
  end.

(** The second loop: [for i in range(23, -1, -1)], black checkers are the
    negative entries. *)
Fixpoint black_loop (points : list Z) (idxs : list nat) (bits : list Z)
  : option (list Z) :=
  match idxs with
  | [] => Some bits
  | i :: rest =>
      match nth_error points i with
      | None => None
      | Some p =>
          let count := Z.max 0 (- p) in
          black_loop points rest ((bits ++ ones count) ++ [0])
      end
  end.

(** [range(24)] and [range(23, -1, -1)]. *)
Definition range24 : list nat := seq 0 24.
Definition range23_down : list nat := rev (seq 0 24).

(** The bit sequence before truncation (lines 374-393). *)
Definition raw_bits (points bar : list Z) : option (list Z) :=
  match white_loop points range24 [] with
  | None => None
  | Some bits =>
      match nth_error bar 0 with
      | None => None
      | Some bar0 =>
          let bits := (bits ++ ones bar0) ++ [0] in
          match black_loop points range23_down bits with
          | None => None
          | Some bits =>
              match nth_error bar 1 with
              | None => None
              | Some bar1 => Some ((bits ++ ones bar1) ++ [0])
              end
          end
      end
  end.

(** [(bits + [0] * 80)[:80]]. *)
Definition pad80 (bits : list Z) : list Z := firstn 80 (bits ++ repeat 0 80).

(** [data[k] = v] on a bytearray; the indices used are always in range. *)
Fixpoint set_nth (data : list Z) (k : nat) (v : Z) : list Z :=
  match data, k with
  | [], _ => []
  | _ :: tl, O => v :: tl
  | x :: tl, S k' => x :: set_nth tl k' v
  end.

(** The packing loop: [for i, bit in enumerate(bits): if bit:
    data[i // 8] |= (1 << (i % 8))].  [i] is the index of the head of
    [bits]. *)
Fixpoint pack_loop (bits : list Z) (i : nat) (data : list Z) : list Z :=
  match bits with
  | [] => data
  | bit :: rest =>
      let data' :=
        if bit =? 0 then data
        else set_nth data (i / 8)%nat
               (Z.lor (nth (i / 8)%nat data 0)
                      (Z.shiftl 1 (Z.of_nat (i mod 8)%nat))) in
      pack_loop rest (S i) data'
  end.

(** [data = bytearray(10)] followed by the packing loop. *)
Definition pack_bytes (bits : list Z) : list Z := pack_loop bits 0%nat (repeat 0 10).

(** ** base64 (the standard alphabet of [base64.b64encode]) *)

Definition b64_alphabet : list ascii :=
  list_ascii_of_string
    "ABCDEFGHIJKLMNOPQRSTUVWXYZabcdefghijklmnopqrstuvwxyz0123456789+/".

Definition b64_char (v : Z) : ascii := nth (Z.to_nat v) b64_alphabet "="%char.

(** [base64.b64encode]: every group of three bytes is read as one 24-bit
    number and written as four 6-bit digits; a last group of one or two
    bytes is completed with zero bits and written with '=' padding. *)
Fixpoint b64encode_list (data : list Z) : list ascii :=
  match data with
  | [] => []
  | [a] =>
      let n := a * 65536 in
      [ b64_char (n / 262144); b64_char ((n / 4096) mod 64);
        "="%char; "="%char ]
  | [a; b] =>
      let n := a * 65536 + b * 256 in
      [ b64_char (n / 262144); b64_char ((n / 4096) mod 64);
        b64_char ((n / 64) mod 64); "="%char ]
  | a :: b :: c :: rest =>
      let n := a * 65536 + b * 256 + c in
      b64_char (n / 262144)
      :: b64_char ((n / 4096) mod 64)
      :: b64_char ((n / 64) mod 64)
      :: b64_char (n mod 64)
      :: b64encode_list rest
  end.

(** [s.rstrip('=')] on the reversed list of characters. *)
Fixpoint lstrip_eq (s : list ascii) : list ascii :=
  match s with
  | c :: tl => if Ascii.eqb c "="%char then lstrip_eq tl else s
  | [] => []
  end.

Definition rstrip_eq (s : list ascii) : list ascii := rev (lstrip_eq (rev s)).

(** [base64.b64encode(data).decode('ascii').rstrip('=')]. *)
Definition b64_unpadded (data : list Z) : string :=
  string_of_list_ascii (rstrip_eq (b64encode_list data)).

(** [_make_position_id(points, bar)]; [None] is the IndexError of a
    [points] shorter than 24 or a [bar] shorter than 2. *)
Definition _make_position_id (points bar : list Z) : option string :=
  match raw_bits points bar with
  | None => None
  | Some bits => Some (b64_unpadded (pack_bytes (pad80 bits)))
  end.

(** The opening position in the application's frame: white positive,
    point N at index N-1. *)
Definition start_points : list Z :=
  [ -2; 0; 0; 0; 0; 5;   0; 3; 0; 0; 0; -5;
    5; 0; 0; 0; -3; 0;   -5; 0; 0; 0; 0; 2 ].


(** ** Decoding the layout

    The server never decodes an identifier; these functions read the layout
    back, so that the round trip of the specification can be stated. *)

Fixpoint b64_index_from (alphabet : list ascii) (v : Z) (c : ascii) : option Z :=
  match alphabet with
  | [] => None
  | a :: tl => if Ascii.eqb a c then Some v else b64_index_from tl (v + 1) c
  end.

Definition b64_index (c : ascii) : option Z := b64_index_from b64_alphabet 0 c.

Definition is_pad (c : ascii) : bool := Ascii.eqb c "="%char.

(** Four digits back to three bytes; a final group may end in one or two
    '=' and then holds two or one bytes. *)
Fixpoint b64decode_list (s : list ascii) : option (list Z) :=
  match s with
  | [] => Some []
  | c0 :: c1 :: c2 :: c3 :: rest =>
      match b64_index c0, b64_index c1 with
      | Some v0, Some v1 =>
          if is_pad c2 && is_pad c3 then
            match rest with
            | [] => Some [ (v0 * 262144 + v1 * 4096) / 65536 ]
            | _ => None
            end
          else
            match b64_index c2 with
            | None => None
            | Some v2 =>
                if is_pad c3 then
                  match rest with
                  | [] =>
                      let n := v0 * 262144 + v1 * 4096 + v2 * 64 in
                      Some [ n / 65536; (n / 256) mod 256 ]
                  | _ => None
                  end
                else
                  match b64_index c3, b64decode_list rest with
                  | Some v3, Some bytes =>
                      let n := v0 * 262144 + v1 * 4096 + v2 * 64 + v3 in
                      Some (n / 65536 :: (n / 256) mod 256 :: n mod 256 :: bytes)
                  | _, _ => None
                  end
            end
      | _, _ => None
      end
  | _ => None
  end.

(** Restore the '=' padding that [rstrip] removed. *)
Definition repad (s : list ascii) : list ascii :=
  s ++ repeat "="%char ((4 - (List.length s mod 4)) mod 4)%nat.

Definition b64decode_unpadded (s : string) : option (list Z) :=
  b64decode_list (repad (list_ascii_of_string s)).

(** Bytes back to bits, least significant bit first. *)
Definition bit_of (b : bool) : Z := if b then 1 else 0.

Definition byte_bits (b : Z) : list Z :=
  map (fun j => bit_of (Z.testbit b (Z.of_nat j))) (seq 0 8).

Definition unpack_bits (data : list Z) : list Z := flat_map byte_bits data.

(** One run: the number of 1-bits before the terminating 0-bit. *)
Fixpoint read_run (bits : list Z) : option (Z * list Z) :=
  match bits with
  | [] => None
  | b :: rest =>
      if b =? 0 then Some (0, rest)
      else match read_run rest with
           | Some (n, rest') => Some (n + 1, rest')
           | None => None
           end
  end.

Fixpoint read_runs (k : nat) (bits : list Z) : option (list Z * list Z) :=
  match k with
  | O => Some ([], bits)
  | S k' =>
      match read_run bits with
      | None => None
      | Some (n, rest) =>
          match read_runs k' rest with
          | None => None
          | Some (ns, rest') => Some (n :: ns, rest')
          end
      end
  end.

(** 25 runs of white (points by ascending index, then the bar), 25 runs of
    black (points by descending index, then the bar); the signed count of
    point [i] is white's run [i] minus black's run [23 - i]. *)
Definition decode_bits (bits : list Z) : option (list Z * list Z) :=
  match read_runs 25 bits with
  | None => None
  | Some (w, rest) =>
      match read_runs 25 rest with
      | None => None
      | Some (b, _) =>
          Some (map (fun i => nth i w 0 - nth (23 - i) b 0) (seq 0 24),
                [nth 24 w 0; nth 24 b 0])
      end
  end.

Definition decode_position_id (s : string) : option (list Z * list Z) :=
  match b64decode_unpadded s with
  | None => None
  | Some data => decode_bits (unpack_bits data)
  end.

(** The layout as the specification words it: a run per point, then the bar
    run, white by ascending index and black by descending index. *)
Definition run (count : Z) : list Z := ones count ++ [0].

Definition layout (points : list Z) (bar0 bar1 : Z) : list Z :=
  (flat_map (fun p => run (Z.max 0 p)) points ++ run bar0)
  ++ (flat_map (fun p => run (Z.max 0 (- p))) (rev points) ++ run bar1).

(** A byte of a [bytearray], a bit of the sequence. *)
Definition is_byte (b : Z) : Prop := 0 <= b < 256.
Definition is_bit (b : Z) : Prop := b = 0 \/ b = 1.

(** The checker-count invariant of [evaluate] (lines 134-138) on a board of
    24 points, a 2-entry bar and a 2-entry borne-off array whose counts are
    not negative. *)
Definition valid_board (points bar borne_off : list Z) : Prop :=
  List.length points = 24%nat /\
  List.length bar = 2%nat /\
  List.length borne_off = 2%nat /\
  Forall (fun c => 0 <= c) bar /\
  Forall (fun c => 0 <= c) borne_off /\
  Board.white_count points bar borne_off = Some 15 /\
  Board.black_count points bar borne_off = Some 15.

End PositionId.

(* ===================================================================== *)
(** * 2. Response models (the pydantic classes, lines 41-75)               *)
(* ===================================================================== *)

Record MoveResponse := {
  from_point : Z;
  to_point : Z;
  die_used : Z;
  is_hit : bool;
  is_bear_off : bool
}.

Record PlayResponse := {
  moves : list MoveResponse;
  notation : string
}.

Record RankedPlay := {
  rank : Z;
  play : PlayResponse;
  equity : float;
  win_probability : float;
  equity_difference : float
}.

Record EvaluateResponse := {
  best_play : PlayResponse;
  best_equity : float;
  all_plays : list RankedPlay
}.

Record CubeResponse := {
  recommendation : string;
  no_double_equity : float;
  double_take_equity : float;
  double_pass_equity : float;
  proper_cube_action : string;
  cube_win_probability : float;
  gammon_threat : float
}.

(** [RankedPlay(rank=.., play=.., equity=..)] with the defaults of the
    class: [win_probability = 0.5], [equity_difference = 0.0]. *)
Definition default_win_probability : float := 0.5%float.

(** Python's [str(n)] on an [int]. *)
Definition py_str (n : Z) : string := NilEmpty.string_of_int (Z.to_int n).

(** [sep.join(parts)]. *)
Fixpoint join (sep : string) (parts : list string) : string :=
  match parts with
  | [] => EmptyString
  | [p] => p
  | p :: rest => (p ++ sep ++ join sep rest)%string
  end.

(* ===================================================================== *)
(** * 3. Dice-sum splitting (the second loop of _parse_notation,
         lines 504-531)                                                   *)
(* ===================================================================== *)

Module Split.

(** [for d1 in range(1, 7): d2 = total - d1; if 1 <= d2 <= 6: ...; break].
    [d1s] is the part of the range still to visit; the result is what the
    loop appends to [processed_moves]. *)
Fixpoint split_loop (m : MoveResponse) (total : Z) (d1s : list Z)
  : list MoveResponse :=
  match d1s with
  | [] => []
  | d1 :: rest =>
      let d2 := total - d1 in
      if (1 <=? d2) && (d2 <=? 6) then
        let mid_pt :=
          if to_point m >? from_point m then from_point m + d1
          else from_point m - d1 in
        [ {| from_point := from_point m; to_point := mid_pt; die_used := d1;
             is_hit := false; is_bear_off := false |};
          {| from_point := mid_pt; to_point := to_point m; die_used := d2;
             is_hit := is_hit m; is_bear_off := false |} ]
      else split_loop m total rest
  end.

(** The body of [for m in moves]: what one move contributes. *)
Definition split_move (m : MoveResponse) : list MoveResponse :=
  if (die_used m >? 6) && negb (is_bear_off m) then
    let total := die_used m in
    if total <=? 12 then split_loop m total [1; 2; 3; 4; 5; 6]
    else [m]
  else [m].

(** [processed_moves] after the loop. *)
Definition post_process (moves : list MoveResponse) : list MoveResponse :=
  flat_map split_move moves.

End Split.

(* ===================================================================== *)
(** * 4. Black-perspective transform (GnuBgEngine._transform_for_black)   *)
(* ===================================================================== *)

Module Transform.

Definition transform_move (m : MoveResponse) : MoveResponse :=
  let from_pt :=
    if from_point m =? 0 then 25 else 25 - from_point m in
  let to_pt :=
    if is_bear_off m then from_pt + die_used m else 25 - to_point m in
  {| from_point := from_pt; to_point := to_pt; die_used := die_used m;
     is_hit := is_hit m; is_bear_off := is_bear_off m |}.

(** One entry of [notation_parts]:
    [f"{from_str}/{to_str}{'*' if m.is_hit else ''}"]. *)
Definition move_notation (m : MoveResponse) : string :=
  let from_str := if from_point m =? 0 then "bar"%string else py_str (from_point m) in
  let to_str := if is_bear_off m then "off"%string else py_str (to_point m) in
  (from_str ++ "/" ++ to_str ++ (if is_hit m then "*" else ""))%string.

Definition transform_play (p : PlayResponse) : PlayResponse :=
  let new_moves := map transform_move (moves p) in
  {| moves := new_moves;
     notation := join " " (map move_notation new_moves) |}.

Definition transform_ranked (rp : RankedPlay) : RankedPlay :=
  {| rank := rank rp;
     play := transform_play (play rp);
     equity := (- equity rp)%float;
     win_probability := (1.0 - win_probability rp)%float;
     equity_difference := equity_difference rp |}.

Definition _transform_for_black (result : EvaluateResponse) : EvaluateResponse :=
  let new_best := transform_play (best_play result) in
  let new_all := map transform_ranked (all_plays result) in
  {| best_play := new_best;
     best_equity := (- best_equity result)%float;
     all_plays := new_all |}.

(** What a second application leaves of a move and of a play: the points
    are back, except the destination of a bear-off, which is now
    [from_point + die_used]; the notation is the regenerated one. *)
Definition renormalised_move (m : MoveResponse) : MoveResponse :=
  {| from_point := from_point m;
     to_point := if is_bear_off m then from_point m + die_used m else to_point m;
     die_used := die_used m; is_hit := is_hit m; is_bear_off := is_bear_off m |}.

Definition renormalised_play (p : PlayResponse) : PlayResponse :=
  {| moves := map renormalised_move (moves p);
     notation := join " " (map move_notation (map renormalised_move (moves p))) |}.

Definition renormalised_ranked (rp : RankedPlay) : RankedPlay :=
  {| rank := rank rp;
     play := renormalised_play (play rp);
     equity := equity rp;
     win_probability := (1.0 - (1.0 - win_probability rp))%float;
     equity_difference := equity_difference rp |}.

End Transform.

(* ===================================================================== *)
(** * 5. Exceptions, strings and regular expressions                       *)
(* ===================================================================== *)

(** The exceptions of the adapter; all of them are subclasses of
    [Exception]. *)
Inductive exn :=
| ValueError
| IndexError
| RuntimeError
| OtherError (msg : string).

(** A computation that returns or raises. *)
Inductive result (A : Type) :=
| Ok (a : A)
| Raise (e : exn).
Arguments Ok {A} a.
Arguments Raise {A} e.

Definition bind {A B} (r : result A) (f : A -> result B) : result B :=
  match r with
  | Ok a => f a
  | Raise e => Raise e
  end.

Notation "x <- r ;; k" := (bind r (fun x => k))
  (at level 61, r at next level, right associativity).

Module Str.

(** Characters: [str.isspace] and the class [\s] (in the ASCII range they
    are the codes 9-13, 28-31 and 32), the digits [\d], and [.], which is
    every character but the newline. *)
Definition code (c : ascii) : nat := nat_of_ascii c.

Definition is_space (c : ascii) : bool :=
  let n := code c in
  ((9 <=? n) && (n <=? 13) || (28 <=? n) && (n <=? 32))%nat.

Definition is_digit (c : ascii) : bool :=
  let n := code c in ((48 <=? n) && (n <=? 57))%nat.

Definition is_newline (c : ascii) : bool := (code c =? 10)%nat.

Definition is_char (a : ascii) (c : ascii) : bool := Ascii.eqb a c.

(** [c.lower()] on an ASCII character. *)
Definition lower_char (c : ascii) : ascii :=
  let n := code c in
  if ((65 <=? n) && (n <=? 90))%nat then ascii_of_nat (n + 32) else c.

(** A character of a pattern compiled with [re.IGNORECASE]. *)
Definition is_char_nocase (a : ascii) (c : ascii) : bool :=
  Ascii.eqb (lower_char a) (lower_char c).

Definition lower (s : list ascii) : list ascii := map lower_char s.

Fixpoint eqb_chars (s t : list ascii) : bool :=
  match s, t with
  | [], [] => true
  | a :: s', b :: t' => Ascii.eqb a b && eqb_chars s' t'
  | _, _ => false
  end.

Definition chars (s : string) : list ascii := list_ascii_of_string s.

(** [s.lstrip()], [s.rstrip()], [s.strip()]. *)
Fixpoint lstrip (s : list ascii) : list ascii :=
  match s with
  | c :: tl => if is_space c then lstrip tl else s
  | [] => []
  end.

Definition rstrip (s : list ascii) : list ascii := rev (lstrip (rev s)).
Definition strip (s : list ascii) : list ascii := rstrip (lstrip s).

(** [s.split()]: the maximal runs of characters that are not white space.
    [cur] is the run being read, reversed. *)
Fixpoint split_ws_loop (s : list ascii) (cur : list ascii) : list (list ascii) :=
  match s with
  | [] => match cur with [] => [] | _ => [rev cur] end
  | c :: tl =>
      if is_space c then
        match cur with
        | [] => split_ws_loop tl []
        | _ => rev cur :: split_ws_loop tl []
        end
      else split_ws_loop tl (c :: cur)
  end.

Definition split_ws (s : list ascii) : list (list ascii) := split_ws_loop s [].

(** [s.split(sep)] on a one-character separator. *)
Fixpoint split_on_loop (sep : ascii) (s : list ascii) (cur : list ascii)
  : list (list ascii) :=
  match s with
  | [] => [rev cur]
  | c :: tl =>
      if Ascii.eqb c sep then rev cur :: split_on_loop sep tl []
      else split_on_loop sep tl (c :: cur)
  end.

Definition split_on (sep : ascii) (s : list ascii) : list (list ascii) :=
  split_on_loop sep s [].

(** [c in s] and [s.replace(c, '')]. *)
Definition has_char (c : ascii) (s : list ascii) : bool := existsb (Ascii.eqb c) s.
Definition remove_char (c : ascii) (s : list ascii) : list ascii :=
  filter (fun x => negb (Ascii.eqb c x)) s.

(** [needle in s] on strings. *)
Fixpoint is_prefix (p s : list ascii) : bool :=
  match p, s with
  | [], _ => true
  | a :: p', b :: s' => Ascii.eqb a b && is_prefix p' s'
  | _ :: _, [] => false
  end.

Fixpoint contains (needle s : list ascii) : bool :=
  is_prefix needle s ||
  match s with
  | [] => false
  | _ :: tl => contains needle tl
  end.

(** The value of a run of decimal digits. *)
Definition digit_value (c : ascii) : Z := Z.of_nat (code c - 48).

Definition digits_value (ds : list ascii) : Z :=
  fold_left (fun acc c => 10 * acc + digit_value c) ds 0.

(** The white space that [int] skips at both ends of its argument: the
    codes 9-13 and 32.  [str.strip] removes the codes 28-31 as well;
    [int] does not, and raises ValueError on them. *)
Definition is_int_space (c : ascii) : bool :=
  let n := code c in ((9 <=? n) && (n <=? 13) || (n =? 32))%nat.

Fixpoint int_lstrip (s : list ascii) : list ascii :=
  match s with
  | c :: tl => if is_int_space c then int_lstrip tl else s
  | [] => []
  end.

Definition int_strip (s : list ascii) : list ascii :=
  rev (int_lstrip (rev (int_lstrip s))).

(** [int(s)] in base 10: after the white space at both ends, an optional
    sign and digits, in which single underscores may separate digits.
    (CPython's optional limit on the number of digits is not modelled.) *)
Fixpoint int_digits (s : list ascii) (after_digit : bool) (acc : list ascii)
  : option (list ascii) :=
  match s with
  | [] => if after_digit then Some (rev acc) else None
  | c :: tl =>
      if is_digit c then int_digits tl true (c :: acc)
      else if Ascii.eqb c "_"%char && after_digit then
        match tl with
        | d :: _ => if is_digit d then int_digits tl false acc else None
        | [] => None
        end
      else None
  end.

Definition py_int (s : list ascii) : result Z :=
  let s := int_strip s in
  let '(neg, body) :=
    match s with
    | c :: tl =>
        if Ascii.eqb c "-"%char then (true, tl)
        else if Ascii.eqb c "+"%char then (false, tl)
        else (false, s)
    | [] => (false, s)
    end in
  match int_digits body false [] with
  | Some ds => Ok (if neg then - digits_value ds else digits_value ds)
  | None => Raise ValueError
  end.

(** The binary64 float nearest to [+- num / 10^scale] (ties to even), as
    [float] rounds a decimal literal. *)
Definition float_of_decimal (neg : bool) (num : Z) (scale : nat) : float :=
  SF2Prim
    match num with
    | Z.pos m =>
        SFdiv prec emax (S754_finite neg m 0)
                        (S754_finite false (Z.to_pos (10 ^ Z.of_nat scale)) 0)
    | _ => S754_zero neg
    end.

End Str.
(** ** Regular expressions: a backtracking matcher

    The patterns of the server use character classes, concatenation, greedy
    and lazy repetition, greedy options, groups and the anchor [^] of
    [re.MULTILINE].  [rmatch] explores the alternatives in the order of a
    backtracking matcher: a greedy repetition tries one more iteration
    first, a lazy one tries to go on first.  The body of every repetition
    below consumes at least one character, so that the fuel of the loop,
    one more than the number of characters left, is never used up. *)

Module Re.
Import Str.

Inductive regex :=
| Eps
| Chr (p : ascii -> bool)
| Bol
| Seq (r1 r2 : regex)
| Star (greedy : bool) (r : regex)
| Opt (r : regex)
| Group (n : nat) (r : regex).

(** The state of a match: the character before the position (for [^]), the
    characters still to read, the groups captured so far. *)
Record mstate := {
  prev : option ascii;
  rest : list ascii;
  caps : list (nat * list ascii)
}.

(** The loop of a repetition: [body] matches one iteration. *)
Fixpoint star_loop {A : Type}
  (body : mstate -> (mstate -> option A) -> option A) (greedy : bool)
  (k : mstate -> option A) (fuel : nat) (st : mstate) : option A :=
  match fuel with
  | O => k st
  | S fuel' =>
      if greedy then
        match body st (star_loop body greedy k fuel') with
        | Some a => Some a
        | None => k st
        end
      else
        match k st with
        | Some a => Some a
        | None => body st (star_loop body greedy k fuel')
        end
  end.

Fixpoint rmatch {A : Type} (r : regex) (st : mstate)
  (k : mstate -> option A) {struct r} : option A :=
  match r with
  | Eps => k st
  | Chr p =>
      match rest st with
      | c :: tl =>
          if p c then k {| prev := Some c; rest := tl; caps := caps st |}
          else None
      | [] => None
      end
  | Bol =>
      match prev st with
      | None => k st
      | Some c => if is_newline c then k st else None
      end
  | Seq r1 r2 => rmatch r1 st (fun st1 => rmatch r2 st1 k)
  | Star greedy r1 =>
      star_loop (rmatch r1) greedy k (S (List.length (rest st))) st
  | Opt r1 =>
      match rmatch r1 st k with
      | Some a => Some a
      | None => k st
      end
  | Group n r1 =>
      rmatch r1 st
        (fun st1 =>
           let text := firstn (List.length (rest st) - List.length (rest st1))
                              (rest st) in
           k {| prev := prev st1; rest := rest st1;
                caps := (n, text) :: caps st1 |})
  end.

(** [m.group(n)]. *)
Fixpoint group (n : nat) (caps : list (nat * list ascii)) : list ascii :=
  match caps with
  | [] => []
  | (i, text) :: tl => if Nat.eqb i n then text else group n tl
  end.

(** A match that starts at the current position. *)
Definition match_here (r : regex) (before : option ascii) (s : list ascii)
  : option mstate :=
  rmatch r {| prev := before; rest := s; caps := [] |} (fun st => Some st).

(** [re.search]: the first position at which the pattern matches. *)
Fixpoint search_from (r : regex) (before : option ascii) (s : list ascii)
  : option mstate :=
  match match_here r before s with
  | Some st => Some st
  | None =>
      match s with
      | [] => None
      | c :: tl => search_from r (Some c) tl
      end
  end.

Definition search (r : regex) (s : list ascii) : option mstate :=
  search_from r None s.

(** [pattern.finditer]: the matches from left to right, each search
    starting where the previous match ended.  (A match of the patterns
    below is never empty; an empty match steps over one character.) *)
Fixpoint finditer_from (fuel : nat) (r : regex) (before : option ascii)
  (s : list ascii) : list mstate :=
  match fuel with
  | O => []
  | S fuel' =>
      match match_here r before s with
      | Some st =>
          if (List.length (rest st) <? List.length s)%nat then
            st :: finditer_from fuel' r (prev st) (rest st)
          else
            st :: match s with
                  | [] => []
                  | c :: tl => finditer_from fuel' r (Some c) tl
                  end
      | None =>
          match s with
          | [] => []
          | c :: tl => finditer_from fuel' r (Some c) tl
          end
      end
  end.

Definition finditer (r : regex) (s : list ascii) : list mstate :=
  finditer_from (S (List.length s)) r None s.

(** [re.sub(pattern, '', s)]: the text without the matches. *)
Fixpoint remove_matches_from (fuel : nat) (r : regex) (before : option ascii)
  (s : list ascii) : list ascii :=
  match fuel with
  | O => s
  | S fuel' =>
      match match_here r before s with
      | Some st =>
          if (List.length (rest st) <? List.length s)%nat then
            remove_matches_from fuel' r (prev st) (rest st)
          else
            match s with
            | [] => []
            | c :: tl => c :: remove_matches_from fuel' r (Some c) tl
            end
      | None =>
          match s with
          | [] => []
          | c :: tl => c :: remove_matches_from fuel' r (Some c) tl
          end
      end
  end.

Definition remove_matches (r : regex) (s : list ascii) : list ascii :=
  remove_matches_from (S (List.length s)) r None s.

(** Abbreviations of the pattern syntax. *)
Definition plus (r : regex) : regex := Seq r (Star true r).
Definition ws : regex := Chr is_space.
Definition non_ws : regex := Chr (fun c => negb (is_space c)).
Definition digit : regex := Chr is_digit.
Definition dot : regex := Chr (fun c => negb (is_newline c)).
Definition lazy_dots : regex := Star false dot.

Fixpoint lit_chars (cs : list ascii) : regex :=
  match cs with
  | [] => Eps
  | c :: tl => Seq (Chr (is_char c)) (lit_chars tl)
  end.
Definition lit (s : string) : regex := lit_chars (chars s).

Fixpoint lit_nocase_chars (cs : list ascii) : regex :=
  match cs with
  | [] => Eps
  | c :: tl => Seq (Chr (is_char_nocase c)) (lit_nocase_chars tl)
  end.
Definition lit_nocase (s : string) : regex := lit_nocase_chars (chars s).

Definition sign : regex :=
  Chr (fun c => Ascii.eqb c "+"%char || Ascii.eqb c "-"%char).

(** [[+-]?\d+\.\d+] *)
Definition decimal : regex :=
  Seq (Opt sign) (Seq (plus digit) (Seq (lit ".") (plus digit))).

(** [float(text)] on the text of a group [([+-]?\d+\.\d+)].  [float]
    reads more forms than this one (exponents, "inf", "nan"); the patterns
    let no other form through. *)
Fixpoint span_digits (s : list ascii) : list ascii * list ascii :=
  match s with
  | c :: tl =>
      if is_digit c then let '(ds, r) := span_digits tl in (c :: ds, r)
      else ([], s)
  | [] => ([], [])
  end.

Definition py_float (s : list ascii) : result float :=
  let '(neg, body) :=
    match s with
    | c :: tl =>
        if Ascii.eqb c "-"%char then (true, tl)
        else if Ascii.eqb c "+"%char then (false, tl)
        else (false, s)
    | [] => (false, s)
    end in
  let '(int_part, r) := span_digits body in
  match int_part, r with
  | _ :: _, dotc :: frac =>
      let '(frac_part, r') := span_digits frac in
      match frac_part, r' with
      | _ :: _, [] =>
          if Ascii.eqb dotc "."%char then
            Ok (float_of_decimal neg (digits_value (int_part ++ frac_part))
                                 (List.length frac_part))
          else Raise ValueError
      | _, _ => Raise ValueError
      end
  | _, _ => Raise ValueError
  end.

End Re.

(* ===================================================================== *)
(** * 6. The parsers (GnuBgEngine._parse_notation, _parse_evaluation,
         _parse_cube)                                                      *)
(* ===================================================================== *)

Module Parse.
Import Str Re.

(** [r'\((\d+)\)'] and [r'\(\d+\)'] *)
Definition multiplier_pat : regex :=
  Seq (lit "(") (Seq (Group 1 (plus digit)) (lit ")")).
Definition multiplier_sub_pat : regex :=
  Seq (lit "(") (Seq (plus digit) (lit ")")).

(** The body of [for i in range(len(segments) - 1)] (lines 475-502): the
    moves that one pair of adjacent segments appends. *)
Definition parse_pair (from_str to_str : list ascii) (count : Z)
  : result (list MoveResponse) :=
  let from_str := strip from_str in
  let to_str := strip to_str in
  let segment_hit := has_char "*"%char to_str in
  let from_str := remove_char "*"%char from_str in
  let to_str := remove_char "*"%char to_str in
  from_pt <- (if eqb_chars (lower from_str) (chars "bar") then Ok 0
              else py_int from_str) ;;
  let bear_off := eqb_chars (lower to_str) (chars "off") in
  td <- (if bear_off then Ok (0, from_pt)
         else to_pt <- py_int to_str ;; Ok (to_pt, Z.abs (from_pt - to_pt))) ;;
  let '(to_pt, die) := td in
  Ok (repeat {| from_point := from_pt; to_point := to_pt; die_used := die;
                is_hit := segment_hit; is_bear_off := bear_off |}
             (Z.to_nat count)).

(** The loop over the adjacent pairs of [segments]. *)
Fixpoint parse_segments (segments : list (list ascii)) (count : Z)
  (moves : list MoveResponse) : result (list MoveResponse) :=
  match segments with
  | from_str :: ((to_str :: _) as tl) =>
      new <- parse_pair from_str to_str count ;;
      parse_segments tl count (moves ++ new)
  | _ => Ok moves
  end.

(** The body of [for part in notation.split()] (lines 465-502). *)
Definition parse_part (part : list ascii) (moves : list MoveResponse)
  : result (list MoveResponse) :=
  count <- match search multiplier_pat part with
           | Some m => py_int (group 1 (caps m))
           | None => Ok 1
           end ;;
  let part := remove_matches multiplier_sub_pat part in
  let segments := split_on "/"%char part in
  if (2 <=? List.length segments)%nat then parse_segments segments count moves
  else Ok moves.

Fixpoint parse_parts (parts : list (list ascii)) (moves : list MoveResponse)
  : result (list MoveResponse) :=
  match parts with
  | [] => Ok moves
  | part :: tl =>
      moves' <- parse_part part moves ;;
      parse_parts tl moves'
  end.

Definition _parse_notation (notation : list ascii) : result PlayResponse :=
  moves <- parse_parts (split_ws notation) [] ;;
  Ok {| moves := Split.post_process moves;
        notation := string_of_list_ascii notation |}.

(** [move_pat] (lines 443-445), compiled with [re.MULTILINE]: the start
    of a line, white space, the rank (group 1, digits), a dot, white space,
    a lazy run of characters, the notation (group 2), white space, a lazy
    run of characters, the marker "Eq.:", white space and the equity
    (group 3, a signed decimal).  The notation is a run of non-space
    characters, one or more times a slash with a run of non-space
    characters, and optionally: an optional star, then any number of times
    white space with two runs of non-space characters around a slash and an
    optional star. *)
Definition notation_pat : regex :=
  Seq (plus non_ws)
  (Seq (plus (Seq (lit "/") (plus non_ws)))
       (Opt (Seq (Opt (lit "*"))
                 (Star true
                    (Seq (plus ws)
                    (Seq (plus non_ws)
                    (Seq (lit "/")
                    (Seq (plus non_ws) (Opt (lit "*")))))))))).

Definition move_pat : regex :=
  Seq Bol
  (Seq (Star true ws)
  (Seq (Group 1 (plus digit))
  (Seq (lit ".")
  (Seq (plus ws)
  (Seq lazy_dots
  (Seq (Group 2 notation_pat)
  (Seq (plus ws)
  (Seq lazy_dots
  (Seq (lit "Eq.:")
  (Seq (Star true ws)
       (Group 3 decimal))))))))))).

(** [RankedPlay(rank=1, play=PlayResponse(moves=[], notation="No move"),
    equity=0.0)] (lines 456-458). *)
Definition no_move_entry : RankedPlay :=
  {| rank := 1;
     play := {| moves := []; notation := "No move" |};
     equity := 0%float;
     win_probability := default_win_probability;
     equity_difference := 0%float |}.

(** The body of [for m in move_pat.finditer(output)] (lines 447-454). *)
Definition parse_match (m : mstate) (plays : list RankedPlay)
  : result (list RankedPlay) :=
  rank_v <- py_int (group 1 (caps m)) ;;
  let notation_v := strip (group 2 (caps m)) in
  equity_v <- py_float (group 3 (caps m)) ;;
  play_v <- _parse_notation notation_v ;;
  let difference :=
    if rank_v =? 1 then 0%float
    else match plays with
         | first :: _ => (equity first - equity_v)%float
         | [] => 0%float
         end in
  Ok (plays ++ [ {| rank := rank_v; play := play_v; equity := equity_v;
                    win_probability := default_win_probability;
                    equity_difference := difference |} ]).

Fixpoint parse_matches (ms : list mstate) (plays : list RankedPlay)
  : result (list RankedPlay) :=
  match ms with
  | [] => Ok plays
  | m :: tl =>
      plays' <- parse_match m plays ;;
      parse_matches tl plays'
  end.

Definition _parse_evaluation (output : list ascii) : result EvaluateResponse :=
  plays <- parse_matches (finditer move_pat output) [] ;;
  let plays := match plays with
               | [] => plays ++ [no_move_entry]
               | _ => plays
               end in
  match plays with
  | first :: _ =>
      Ok {| best_play := play first; best_equity := equity first;
            all_plays := plays |}
  | [] => Raise IndexError
  end.

(** The three patterns of [_parse_cube] (lines 536-538); the last two are
    compiled with [re.IGNORECASE]. *)
Definition nd_pat : regex :=
  Seq (lit "No") (Seq (plus ws) (Seq (lit "double")
  (Seq lazy_dots (Group 1 decimal)))).
Definition dt_pat : regex :=
  Seq (lit_nocase "Double") (Seq lazy_dots (Seq (lit_nocase "take")
  (Seq lazy_dots (Group 1 decimal)))).
Definition dp_pat : regex :=
  Seq (lit_nocase "Double") (Seq lazy_dots (Seq (lit_nocase "pass")
  (Seq lazy_dots (Group 1 decimal)))).

(** [float(m.group(1)) if m else default]. *)
Definition equity_or (m : option mstate) (default : float) : result float :=
  match m with
  | Some st => py_float (group 1 (caps st))
  | None => Ok default
  end.

(** Python's [max(a, b, c)]: the first of the greatest arguments. *)
Definition py_max3 (a b c : float) : float :=
  let m := if (a <? b)%float then b else a in
  if (m <? c)%float then c else m.

(** [rec.replace("_", " ").title()]. *)
Definition title_of (rec : string) : string :=
  if String.eqb rec "no_double" then "No Double"
  else if String.eqb rec "double_take" then "Double Take"
  else "Double Pass".

Definition _parse_cube (output : list ascii) : result CubeResponse :=
  let nd := search nd_pat output in
  let dt := search dt_pat output in
  let dp := search dp_pat output in
  nd_eq <- equity_or nd 0%float ;;
  dt_eq <- equity_or dt 0%float ;;
  dp_eq <- equity_or dp 1%float ;;
  let best := py_max3 nd_eq dt_eq dp_eq in
  let rec :=
    if (best =? nd_eq)%float then "no_double"%string
    else if (best =? dt_eq)%float then "double_take"%string
    else "double_pass"%string in
  Ok {| recommendation := rec;
        no_double_equity := nd_eq;
        double_take_equity := dt_eq;
        double_pass_equity := dp_eq;
        proper_cube_action := title_of rec;
        cube_win_probability := 0.5%float;
        gammon_threat := 0%float |}.

End Parse.
(** ** What a match is: the relation that [rmatch] explores

    [run r st st'] holds when [r] can take the matcher from state [st] to
    state [st']; it orders nothing and is used to state what every match
    found by [rmatch] satisfies. *)

Module ReSpec.
Import Str Re.

Inductive star (R : mstate -> mstate -> Prop) : mstate -> mstate -> Prop :=
| star_refl (st : mstate) : star R st st
| star_step (st mid st' : mstate) : R st mid -> star R mid st' -> star R st st'.

Fixpoint run (r : regex) (st st' : mstate) : Prop :=
  match r with
  | Eps => st' = st
  | Chr p =>
      exists c, p c = true /\ rest st = c :: rest st' /\
                prev st' = Some c /\ caps st' = caps st
  | Bol => st' = st
  | Seq r1 r2 => exists mid, run r1 st mid /\ run r2 mid st'
  | Star _ r1 => star (run r1) st st'
  | Opt r1 => st' = st \/ run r1 st st'
  | Group n r1 =>
      exists st1, run r1 st st1 /\
        st' = {| prev := prev st1; rest := rest st1;
                 caps := (n, firstn (List.length (rest st) - List.length (rest st1))
                                    (rest st)) :: caps st1 |}
  end.

Fixpoint no_groups (r : regex) : bool :=
  match r with
  | Eps | Chr _ | Bol => true
  | Seq r1 r2 => no_groups r1 && no_groups r2
  | Star _ r1 | Opt r1 => no_groups r1
  | Group _ _ => false
  end.

(** A pattern every match of which reads at least one character, and a
    pattern without the anchor in which the body of every repetition is
    such a pattern: for these [run] is the set of matches, and [rmatch]
    finds a match whenever there is one. *)
Fixpoint consuming (r : regex) : bool :=
  match r with
  | Chr _ => true
  | Seq r1 r2 => consuming r1 || consuming r2
  | Group _ r1 => consuming r1
  | Eps | Bol | Star _ _ | Opt _ => false
  end.

Fixpoint plain (r : regex) : bool :=
  match r with
  | Eps | Chr _ => true
  | Bol => false
  | Seq r1 r2 => plain r1 && plain r2
  | Star _ r1 => consuming r1 && plain r1
  | Opt r1 | Group _ r1 => plain r1
  end.

(** The character before the position reached after reading [pre], when
    [before] was the character before [pre]. *)
Fixpoint char_before (before : option ascii) (pre : list ascii) : option ascii :=
  match pre with
  | [] => before
  | c :: tl => char_before (Some c) tl
  end.

(** The pattern matches somewhere in the text. *)
Definition occurs (r : regex) (text : list ascii) : Prop :=
  exists pre suf st',
    text = pre ++ suf /\
    run r {| prev := char_before None pre; rest := suf; caps := [] |} st'.

(** The texts of the form [[+-]?\d+\.\d+]. *)
Definition digits_text (w : list ascii) : Prop :=
  w <> [] /\ forallb is_digit w = true.

Definition decimal_text (w : list ascii) : Prop :=
  exists sgn int_part frac_part,
    w = sgn ++ int_part ++ "."%char :: frac_part /\
    (sgn = [] \/ sgn = ["+"%char] \/ sgn = ["-"%char]) /\
    digits_text int_part /\ digits_text frac_part.

End ReSpec.

(* ===================================================================== *)
(** * 7. The orchestrator (GnuBgEngine.evaluate, evaluate_cube)            *)
(* ===================================================================== *)

Module Engine.
Import Str.

(** The requests (lines 22-38).  pydantic checks the lengths and the range
    of [ply] before the engine sees a request: [valid_request],
    [valid_cube_request]. *)
Record EvaluateRequest := {
  points : list Z;
  bar : list Z;
  borne_off : list Z;
  dice : list Z;
  player : string;
  ply : Z
}.

Record CubeRequest := {
  cube_points : list Z;
  cube_bar : list Z;
  cube_borne_off : list Z;
  cube_value : Z;
  cube_owner : string;
  cube_player : string;
  cube_ply : Z
}.

Definition valid_request (req : EvaluateRequest) : Prop :=
  List.length (points req) = 24%nat /\
  List.length (bar req) = 2%nat /\
  List.length (borne_off req) = 2%nat /\
  List.length (dice req) = 2%nat /\
  0 <= ply req <= 4.

Definition valid_cube_request (req : CubeRequest) : Prop :=
  List.length (cube_points req) = 24%nat /\ 0 <= cube_ply req <= 4.

(** ** The mock strategy (lines 556-617)

    The values that [random.choice] and [random.uniform] return are inputs:
    one record holds the draws of one call, in the order of the calls. *)
Record MockDraws := {
  choice_src : nat;
  uniform_base : float;
  choice_src2 : nat;
  uniform_drop : float;
  uniform_diff : float;
  uniform_cube : float
}.

(** [random.choice(seq)] on a non-empty sequence, [pick] being the index
    drawn. *)
Definition random_choice (seq : list Z) (pick : nat) : Z :=
  nth (pick mod List.length seq)%nat seq 0.

(** [occupied] (lines 567-572); [None] is an IndexError. *)
Fixpoint occupied_loop (req_points : list Z) (is_white : bool) (is_black : bool)
  (idxs : list nat) (occupied : list Z) : option (list Z) :=
  match idxs with
  | [] => Some occupied
  | i :: rest =>
      let pt := Z.of_nat i + 1 in
      match nth_error req_points i with
      | None => None
      | Some val =>
          if (is_white && (val >? 0)) || (is_black && (val <? 0))
          then occupied_loop req_points is_white is_black rest (occupied ++ [pt])
          else occupied_loop req_points is_white is_black rest occupied
      end
  end.

Definition in_board (p : Z) : bool := (1 <=? p) && (p <=? 24).

Definition plain_move (src dest die : Z) : MoveResponse :=
  {| from_point := src; to_point := dest; die_used := die;
     is_hit := false; is_bear_off := false |}.

Definition _mock_evaluate (req : EvaluateRequest) (draws : MockDraws)
  : result EvaluateResponse :=
  match dice req with
  | [d1; d2] =>
      let is_white := String.eqb (player req) "white" in
      let is_black := String.eqb (player req) "black" in
      let direction := if is_white then -1 else 1 in
      match occupied_loop (points req) is_white is_black (seq 0 24) [] with
      | None => Raise IndexError
      | Some occupied =>
          let mock_plays :=
            match occupied with
            | [] => []
            | _ :: _ =>
                let src := random_choice occupied (choice_src draws) in
                let dest1 := src + d1 * direction in
                let dest2 := src + d2 * direction in
                let moves :=
                  (if in_board dest1 then [plain_move src dest1 d1] else [])
                  ++ (if in_board dest2 then [plain_move src dest2 d2] else []) in
                let base_eq := uniform_base draws in
                let first :=
                  {| rank := 1;
                     play := {| moves := moves;
                                notation := (py_str src ++ "/" ++ py_str dest1
                                             ++ " " ++ py_str src ++ "/"
                                             ++ py_str dest2)%string |};
                     equity := base_eq;
                     win_probability := default_win_probability;
                     equity_difference := 0%float |} in
                if (1 <? List.length occupied)%nat then
                  let others := filter (fun p => negb (p =? src)) occupied in
                  let src2 := random_choice others (choice_src2 draws) in
                  let d2_dest := src2 + d1 * direction in
                  if in_board d2_dest then
                    [ first;
                      {| rank := 2;
                         play := {| moves := [plain_move src2 d2_dest d1];
                                    notation := (py_str src2 ++ "/"
                                                 ++ py_str d2_dest)%string |};
                         equity := (base_eq - uniform_drop draws)%float;
                         win_probability := default_win_probability;
                         equity_difference := uniform_diff draws |} ]
                  else [first]
                else [first]
            end in
          let mock_plays :=
            match mock_plays with
            | [] => [Parse.no_move_entry]
            | _ => mock_plays
            end in
          match mock_plays with
          | first :: _ =>
              Ok {| best_play := play first; best_equity := equity first;
                    all_plays := mock_plays |}
          | [] => Raise IndexError
          end
      end
  | _ => Raise ValueError
  end.

Definition _mock_cube (draws : MockDraws) : CubeResponse :=
  let eq := uniform_cube draws in
  {| recommendation := if (eq <? 0.4)%float then "no_double" else "double_take";
     no_double_equity := eq;
     double_take_equity := (eq + 0.1)%float;
     double_pass_equity := 1%float;
     proper_cube_action := if (eq <? 0.4)%float then "No double" else "Double, take";
     cube_win_probability := (0.5 + eq * 0.3)%float;
     gammon_threat := if (0 <? eq * 0.2)%float then (eq * 0.2)%float else 0%float |}.

(** ** Programs

    A coroutine of the engine is a tree of the operations it awaits: taking
    and releasing [self._lock], and [_send], which writes one command to
    the process and returns what [_read_until_prompt] collected, or raises.
    The replies are the inputs of the tree. *)
Inductive prog (A : Type) : Type :=
| Ret (a : A)
| Acquire (k : prog A)
| Release (k : prog A)
| Send (cmd : string) (timeout : float) (k : result string -> prog A).
Arguments Ret {A} a.
Arguments Acquire {A} k.
Arguments Release {A} k.
Arguments Send {A} cmd timeout k.

Fixpoint then_do {A B} (p : prog A) (f : A -> prog B) : prog B :=
  match p with
  | Ret a => f a
  | Acquire k => Acquire (then_do k f)
  | Release k => Release (then_do k f)
  | Send cmd timeout k => Send cmd timeout (fun r => then_do (k r) f)
  end.

(** [async with self._lock: body]: the lock is released on every way out
    of the body. *)
Definition with_lock {A} (body : prog A) : prog A :=
  Acquire (then_do body (fun a => Release (Ret a))).

(** [await self._send(cmd)] inside a [try] whose handler is [handler]. *)
Definition send_or {A} (handler : prog A) (cmd : string) (timeout : float)
  (k : string -> prog A) : prog A :=
  Send cmd timeout
    (fun r => match r with
              | Ok text => k text
              | Raise _ => handler
              end).

Definition default_timeout : float := 10%float.
Definition hint_timeout : float := 30%float.

(** The [try] block of [evaluate] (lines 142-192); [fallback] is
    [self._mock_evaluate(req)], what the handler and the three early
    returns give. *)
Definition evaluate_try (req : EvaluateRequest)
  (fallback : prog (result EvaluateResponse)) : prog (result EvaluateResponse) :=
  send_or fallback
    ("set evaluation chequer eval plies " ++ py_str (ply req)) default_timeout
    (fun _ =>
  send_or fallback "new game" default_timeout
    (fun _ =>
  match PositionId._make_position_id (points req) (bar req) with
  | None => fallback
  | Some pos_id =>
  send_or fallback ("set board " ++ pos_id) default_timeout
    (fun set_result =>
  if contains (chars "Illegal") (chars set_result) then fallback
  else
  let turn := if String.eqb (player req) "white" then 0 else 1 in
  send_or fallback ("set turn " ++ py_str turn) default_timeout
    (fun _ =>
  send_or fallback "show board" default_timeout
    (fun board_output =>
  match nth_error (dice req) 0, nth_error (dice req) 1 with
  | Some die0, Some die1 =>
  send_or fallback ("set dice " ++ py_str die0 ++ " " ++ py_str die1)
    default_timeout
    (fun _ =>
  send_or fallback "hint" hint_timeout
    (fun output =>
  if String.eqb output "" || negb (contains (chars "Eq.:") (chars output))
  then fallback
  else
    match Parse._parse_evaluation (chars output) with
    | Raise _ => fallback
    | Ok result =>
        let result :=
          if String.eqb (player req) "black"
          then Transform._transform_for_black result else result in
        Ret (Ok result)
    end))
  | _, _ => fallback
  end)))
  end)) .

(** The body of [async with self._lock] in [evaluate] (lines 128-192). *)
Definition evaluate_locked (req : EvaluateRequest) (draws : MockDraws)
  : prog (result EvaluateResponse) :=
  match Board.white_count (points req) (bar req) (borne_off req),
        Board.black_count (points req) (bar req) (borne_off req) with
  | Some white_count, Some black_count =>
      if negb (white_count =? 15) || negb (black_count =? 15)
      then Ret (_mock_evaluate req draws)
      else evaluate_try req (Ret (_mock_evaluate req draws))
  | _, _ => Ret (Raise IndexError)
  end.

(** [evaluate]; [version] is [self.version]. *)
Definition evaluate (version : string) (draws : MockDraws) (req : EvaluateRequest)
  : prog (result EvaluateResponse) :=
  if String.eqb version "mock" then Ret (_mock_evaluate req draws)
  else with_lock (evaluate_locked req draws).

(** [_setup_position] (lines 269-358): two commands, the reads of [bar]
    and [points] (the strings built from them are not used), the position
    identifier and two more commands. *)
Definition setup_reads (req_points req_bar : list Z) : bool :=
  match nth_error req_bar 0, nth_error req_bar 1 with
  | Some _, Some _ => (24 <=? List.length req_points)%nat
  | _, _ => false
  end.

Definition _setup_position {A} (handler : prog A) (req_points req_bar : list Z)
  (req_player : string) (k : prog A) : prog A :=
  send_or handler "set turn 0" default_timeout
    (fun _ =>
  send_or handler "clear board" default_timeout
    (fun _ =>
  if setup_reads req_points req_bar then
    match PositionId._make_position_id req_points req_bar with
    | None => handler
    | Some pos_id =>
        send_or handler ("set board " ++ pos_id) default_timeout
          (fun _ =>
        let turn := if String.eqb req_player "white" then 0 else 1 in
        send_or handler ("set turn " ++ py_str turn) default_timeout
          (fun _ => k))
    end
  else handler)).

(** [evaluate_cube] (lines 254-267). *)
Definition evaluate_cube (version : string) (draws : MockDraws) (req : CubeRequest)
  : prog (result CubeResponse) :=
  if String.eqb version "mock" then Ret (Ok (_mock_cube draws))
  else
    let handler := Ret (Ok (_mock_cube draws)) in
    with_lock
      (send_or handler
         ("set evaluation cubedecision eval plies " ++ py_str (cube_ply req))
         default_timeout
         (fun _ =>
       send_or handler "new game" default_timeout
         (fun _ =>
       _setup_position handler (cube_points req) (cube_bar req) (cube_player req)
         (send_or handler "hint cube" hint_timeout
            (fun output =>
             match Parse._parse_cube (chars output) with
             | Ok resp => Ret (Ok resp)
             | Raise _ => handler
             end))))).

(** ** One request alone: the replies of the engine are a sequence, the
    [n]-th one answering the [n]-th command. *)
Fixpoint exec {A} (p : prog A) (replies : nat -> result string) (n : nat)
  (sent : list string) : A * list string :=
  match p with
  | Ret a => (a, sent)
  | Acquire k => exec k replies n sent
  | Release k => exec k replies n sent
  | Send cmd _ k => exec (k (replies n)) replies (S n) (sent ++ [cmd])
  end.

Definition run_alone {A} (p : prog A) (replies : nat -> result string)
  : A * list string :=
  exec p replies 0%nat [].

(** ** Several requests at once

    The tasks of the event loop share the lock and the process.  A task
    that awaits the lock proceeds only when the lock is free.  [_send]
    writes its command and is then suspended until [_read_until_prompt]
    returns; other tasks may run in between, and any reply may come back.
    [_send] may also raise before it writes. *)
Inductive request :=
| EvaluateCall (draws : MockDraws) (req : EvaluateRequest)
| CubeCall (draws : MockDraws) (req : CubeRequest).

Inductive outcome :=
| EvaluateDone (r : result EvaluateResponse)
| CubeDone (r : result CubeResponse).

Definition handle (version : string) (rq : request) : prog outcome :=
  match rq with
  | EvaluateCall draws req =>
      then_do (evaluate version draws req) (fun r => Ret (EvaluateDone r))
  | CubeCall draws req =>
      then_do (evaluate_cube version draws req) (fun r => Ret (CubeDone r))
  end.

(** A task runs its coroutine, or waits inside [_send] for the reply to
    the command it has written. *)
Inductive task :=
| Running (p : prog outcome)
| Reading (k : result string -> prog outcome).

(** [written] is the input stream of the process: the commands in the
    order in which they were written, each with the task that wrote it. *)
Record config := {
  tasks : list task;
  holder : option nat;
  written : list (nat * string)
}.

(** [tasks[i] = t]. *)
Fixpoint set_task (ts : list task) (i : nat) (t : task) : list task :=
  match ts, i with
  | [], _ => []
  | _ :: tl, O => t :: tl
  | x :: tl, S i' => x :: set_task tl i' t
  end.

Inductive step : config -> config -> Prop :=
| step_acquire (c : config) (i : nat) (k : prog outcome) :
    nth_error (tasks c) i = Some (Running (Acquire k)) ->
    holder c = None ->
    step c {| tasks := set_task (tasks c) i (Running k); holder := Some i;
              written := written c |}
| step_release (c : config) (i j : nat) (k : prog outcome) :
    nth_error (tasks c) i = Some (Running (Release k)) ->
    holder c = Some j ->
    step c {| tasks := set_task (tasks c) i (Running k); holder := None;
              written := written c |}
| step_write (c : config) (i : nat) (cmd : string) (timeout : float)
    (k : result string -> prog outcome) :
    nth_error (tasks c) i = Some (Running (Send cmd timeout k)) ->
    step c {| tasks := set_task (tasks c) i (Reading k); holder := holder c;
              written := written c ++ [(i, cmd)] |}
| step_read (c : config) (i : nat) (k : result string -> prog outcome)
    (reply : result string) :
    nth_error (tasks c) i = Some (Reading k) ->
    step c {| tasks := set_task (tasks c) i (Running (k reply));
              holder := holder c; written := written c |}
| step_send_raises (c : config) (i : nat) (cmd : string) (timeout : float)
    (k : result string -> prog outcome) (e : exn) :
    nth_error (tasks c) i = Some (Running (Send cmd timeout k)) ->
    step c {| tasks := set_task (tasks c) i (Running (k (Raise e)));
              holder := holder c; written := written c |}.

Inductive reachable (c0 : config) : config -> Prop :=
| reach_start : reachable c0 c0
| reach_step (c c' : config) : reachable c0 c -> step c c' -> reachable c0 c'.

Definition start (version : string) (rqs : list request) : config :=
  {| tasks := map (fun rq => Running (handle version rq)) rqs;
     holder := None; written := [] |}.

(** The commands of one request are not interleaved with those of another:
    between two commands of a task there are only commands of that task. *)
Definition not_interleaved (w : list (nat * string)) : Prop :=
  forall p q r i c1 c3,
    (p < q < r)%nat ->
    nth_error w p = Some (i, c1) -> nth_error w r = Some (i, c3) ->
    exists c2, nth_error w q = Some (i, c2).

(** The shape of a coroutine that keeps its commands under the lock: it
    returns at once, or takes the lock, sends, and on every path releases
    the lock and returns. *)
Inductive critical {A} : prog A -> Prop :=
| critical_release (a : A) : critical (Release (Ret a))
| critical_send (cmd : string) (timeout : float) (k : result string -> prog A) :
    (forall r, critical (k r)) -> critical (Send cmd timeout k).

(** A body that only sends commands and returns. *)
Inductive sends_only {A} : prog A -> Prop :=
| sends_only_ret (a : A) : sends_only (Ret a)
| sends_only_send (cmd : string) (timeout : float) (k : result string -> prog A) :
    (forall r, sends_only (k r)) -> sends_only (Send cmd timeout k).

Inductive serial {A} : prog A -> Prop :=
| serial_return (a : A) : serial (Ret a)
| serial_lock (k : prog A) : critical k -> serial (Acquire k).

End Engine.

(* ===================================================================== *)
(** * 8. Vocabulary of the statements                                      *)
(* ===================================================================== *)

Module Statements.
Import Str Re ReSpec Parse Split Transform Engine.

(** The two moves that replace a compound move whose first die is [d1]. *)
Definition halves (m : MoveResponse) (d1 : Z) : list MoveResponse :=
  let mid := if to_point m >? from_point m then from_point m + d1
             else from_point m - d1 in
  [ {| from_point := from_point m; to_point := mid; die_used := d1;
       is_hit := false; is_bear_off := false |};
    {| from_point := mid; to_point := to_point m;
       die_used := die_used m - d1;
       is_hit := is_hit m; is_bear_off := false |} ].

(** What the post-processing of [_parse_notation] puts in the place of a
    move [m] of the first loop: for a die in [7,12] on a move that is not
    a bear-off, two moves whose dice lie in [1,6] and sum to the die, the
    first die being the smallest one possible, around the intermediate
    point, with the hit flag on the second move only; the move itself for
    a die above 12, and for every other move. *)
Definition replacement (m : MoveResponse) (piece : list MoveResponse) : Prop :=
  (7 <= die_used m <= 12 -> is_bear_off m = false ->
   exists d1 d2 mid,
     1 <= d1 <= 6 /\ 1 <= d2 <= 6 /\ d1 + d2 = die_used m /\
     (forall d, 1 <= d <= 6 -> 1 <= die_used m - d <= 6 -> d1 <= d) /\
     mid = (if to_point m >? from_point m then from_point m + d1
            else from_point m - d1) /\
     piece =
       [ {| from_point := from_point m; to_point := mid; die_used := d1;
            is_hit := false; is_bear_off := false |};
         {| from_point := mid; to_point := to_point m; die_used := d2;
            is_hit := is_hit m; is_bear_off := false |} ]) /\
  (12 < die_used m -> piece = [m]) /\
  (die_used m <= 6 \/ is_bear_off m = true -> piece = [m]).

(** The move of the notation "1/10*": both dice on one checker. *)
Definition move_1_10 : MoveResponse :=
  {| from_point := 1; to_point := 10; die_used := 9;
     is_hit := true; is_bear_off := false |}.

(** The move of the notation "bar/22" as [_parse_notation] builds it. *)
Definition bar_move : MoveResponse :=
  {| from_point := 0; to_point := 22; die_used := 22;
     is_hit := false; is_bear_off := false |}.

Definition bar_play : PlayResponse :=
  {| moves := [bar_move]; notation := "bar/22" |}.

(** The play of the notation "6/off" as [_parse_notation] builds it. *)
Definition bear_off_play : PlayResponse :=
  {| moves := [ {| from_point := 6; to_point := 0; die_used := 6;
                   is_hit := false; is_bear_off := true |} ];
     notation := "6/off" |}.

Definition bear_off_result : EvaluateResponse :=
  {| best_play := bear_off_play;
     best_equity := 0.5%float;
     all_plays := [ {| rank := 1; play := bear_off_play; equity := 0.5%float;
                       win_probability := 0.5%float;
                       equity_difference := 0%float |} ] |}.

(** A float that is a number: not NaN. *)
Definition is_number (x : float) : Prop := Prim2SF x <> S754_nan.

(** The order of the specification of floats. *)
Definition cmp_lt (a b : spec_float) : Prop := SFcompare a b = Some Lt.
Definition cmp_eq (a b : spec_float) : Prop := SFcompare a b = Some Eq.


(** Matches found by [search] and [finditer] are runs from an empty list of
    groups. *)
Definition run_from_start (r : regex) (st : mstate) : Prop :=
  exists before s, run r {| prev := before; rest := s; caps := [] |} st.

(** Patterns that end with their only group, a decimal. *)
Inductive tail_decimal : regex -> Prop :=
| tail_group : tail_decimal (Group 1 decimal)
| tail_seq (head r : regex) :
    no_groups head = true -> tail_decimal r -> tail_decimal (Seq head r).

(** The entry that a match appends when its notation parses to [p]. *)
Definition entry_of (m : mstate) (p : PlayResponse) (plays : list RankedPlay)
  (rank_v : Z) (equity_v : float) : RankedPlay :=
  {| rank := rank_v; play := p; equity := equity_v;
     win_probability := default_win_probability;
     equity_difference :=
       if rank_v =? 1 then 0%float
       else match plays with
            | first :: _ => (equity first - equity_v)%float
            | [] => 0%float
            end |}.

(** A cube analysis with the three labels, one on each line. *)
Definition newline : ascii := ascii_of_nat 10.

Definition cube_report : list ascii :=
  chars "Cube analysis" ++ [newline]
  ++ chars "1. No double           +0.250" ++ [newline]
  ++ chars "2. Double, pass        +1.000  (+0.750)" ++ [newline]
  ++ chars "3. Double, take        +0.100  (-0.150)" ++ [newline]
  ++ chars "Proper cube action: No double, take".

(** The text of a line whose notation has points that are not numbers. *)
Definition bad_notation_output : list ascii := chars "1. a/b Eq.: +0.1".

(** The commands of [evaluate], in the order in which they are written; the
    replies are numbered alike: 0 search depth, 1 new game, 2 set board,
    3 set turn, 4 show board, 5 set dice, 6 hint. *)
Definition set_board_reply : nat := 2.
Definition hint_reply : nat := 6.

(** A task inside its critical section. *)
Definition critical_task (t : task) : Prop :=
  match t with
  | Running p => critical p
  | Reading k => forall r, critical (k r)
  end.

(** What holds of every configuration that the tasks can reach: the
    commands written are not interleaved; the holder of the lock is inside
    its critical section and its commands are the last ones written; every
    other task has returned, or has not taken the lock yet and has written
    nothing. *)
Record lock_invariant (c : config) : Prop := {
  inv_serial : not_interleaved (written c);
  inv_holder : forall i, holder c = Some i ->
    exists t n0, nth_error (tasks c) i = Some t /\ critical_task t /\
      (n0 <= List.length (written c))%nat /\
      forall q j cmd, nth_error (written c) q = Some (j, cmd) ->
                      (j = i <-> (n0 <= q)%nat);
  inv_others : forall i t, nth_error (tasks c) i = Some t ->
    holder c <> Some i ->
    (exists a, t = Running (Ret a)) \/
    (exists k, t = Running (Acquire k) /\ critical k /\
       forall q j cmd, nth_error (written c) q = Some (j, cmd) -> j <> i)
}.

(** Two tasks that send two commands each without taking the lock. *)
Definition unlocked_sender : prog outcome :=
  Send "set dice 3 1" default_timeout
    (fun _ => Send "hint" hint_timeout
                (fun _ => Ret (CubeDone (Raise RuntimeError)))).

Definition unlocked_start : config :=
  {| tasks := [Running unlocked_sender; Running unlocked_sender];
     holder := None; written := [] |}.

(** Requests and draws on which the statements are tried: the opening
    position with the dice 3 and 1, the same position with one white
    checker missing, and an engine that is not running. *)
Definition start_request : EvaluateRequest :=
  {| points := PositionId.start_points; bar := [0; 0]; borne_off := [0; 0];
     dice := [3; 1]; player := "white"; ply := 0 |}.

Definition short_request : EvaluateRequest :=
  {| points := [ -2; 0; 0; 0; 0; 5;   0; 3; 0; 0; 0; -5;
                 5; 0; 0; 0; -3; 0;   -5; 0; 0; 0; 0; 1 ];
     bar := [0; 0]; borne_off := [0; 0];
     dice := [3; 1]; player := "white"; ply := 0 |}.

Definition start_cube_request : CubeRequest :=
  {| cube_points := PositionId.start_points; cube_bar := [0; 0];
     cube_borne_off := [0; 0]; cube_value := 1; cube_owner := "centered";
     cube_player := "black"; cube_ply := 2 |}.

Definition some_draws : MockDraws :=
  {| choice_src := 2; uniform_base := 0.25%float; choice_src2 := 1;
     uniform_drop := 0.0625%float; uniform_diff := 0.03125%float;
     uniform_cube := 0.5%float |}.

Definition not_running : nat -> result string := fun _ => Raise RuntimeError.

(** One step of the event loop, named: which task moves, and for a read
    the reply that comes back.  [perform] takes the step when the task is
    at that point (and, for the lock, when the lock allows it). *)
Inductive action :=
| DoAcquire (i : nat)
| DoRelease (i : nat)
| DoWrite (i : nat)
| DoRead (i : nat) (reply : result string)
| DoRaise (i : nat) (e : exn).

Definition perform (c : config) (a : action) : option config :=
  match a with
  | DoAcquire i =>
      match nth_error (tasks c) i, holder c with
      | Some (Running (Acquire k)), None =>
          Some {| tasks := set_task (tasks c) i (Running k);
                  holder := Some i; written := written c |}
      | _, _ => None
      end
  | DoRelease i =>
      match nth_error (tasks c) i, holder c with
      | Some (Running (Release k)), Some _ =>
          Some {| tasks := set_task (tasks c) i (Running k);
                  holder := None; written := written c |}
      | _, _ => None
      end
  | DoWrite i =>
      match nth_error (tasks c) i with
      | Some (Running (Send cmd _ k)) =>
          Some {| tasks := set_task (tasks c) i (Reading k);
                  holder := holder c;
                  written := written c ++ [(i, cmd)] |}
      | _ => None
      end
  | DoRead i reply =>
      match nth_error (tasks c) i with
      | Some (Reading k) =>
          Some {| tasks := set_task (tasks c) i (Running (k reply));
                  holder := holder c; written := written c |}
      | _ => None
      end
  | DoRaise i e =>
      match nth_error (tasks c) i with
      | Some (Running (Send _ _ k)) =>
          Some {| tasks := set_task (tasks c) i (Running (k (Raise e)));
                  holder := holder c; written := written c |}
      | _ => None
      end
  end.

Fixpoint perform_all (c : config) (l : list action) : option config :=
  match l with
  | [] => Some c
  | a :: tl =>
      match perform c a with
      | Some c' => perform_all c' tl
      | None => None
      end
  end.

(** Two requests at once, an evaluation and a cube decision.  The first
    takes the lock, writes its seven commands, each answered with an empty
    text, falls back on the empty hint and releases the lock; the second
    then takes the lock and writes its first command. *)
Definition two_requests : list request :=
  [ EvaluateCall some_draws start_request;
    CubeCall some_draws start_cube_request ].

Definition write_and_read (i : nat) : list action :=
  [ DoWrite i; DoRead i (Ok ""%string) ].

Definition one_after_the_other : list action :=
  [ DoAcquire 0 ]
  ++ write_and_read 0 ++ write_and_read 0 ++ write_and_read 0
  ++ write_and_read 0 ++ write_and_read 0 ++ write_and_read 0
  ++ write_and_read 0
  ++ [ DoRelease 0; DoAcquire 1; DoWrite 1 ].

(** What is seen of a configuration from outside: who wrote which
    command, and who holds the lock. *)
Definition seen (c : config) : list (nat * string) * option nat :=
  (written c, holder c).

End Statements.

(* ===================================================================== *)
(** * 9. Match identifier (GnuBgEngine._make_match_id, lines 406-439)      *)
(* ===================================================================== *)

Module MatchId.
Import PositionId.

(** [data[k] |= v]. *)
Definition or_nth (data : list Z) (k : nat) (v : Z) : list Z :=
  set_nth data k (Z.lor (nth k data 0) v).

(** The nine bytes before they are written in base64. *)
Definition match_bytes (dice : list Z) : list Z :=
  let data := repeat 0 9 in
  let data := set_nth data 0 48 in
  let data := set_nth data 1 1 in
  match dice with
  | [die0; die1] =>
      if (die0 >? 0) && (die1 >? 0) then
        let d1 := Z.land (die0 - 1) 7 in
        let d2 := Z.land (die1 - 1) 7 in
        let data := or_nth data 2 (Z.land (Z.shiftl d1 5) 255) in
        let data := or_nth data 3 (Z.land (Z.shiftr d1 3) 255) in
        or_nth data 3 (Z.land (Z.shiftl d2 1) 255)
      else data
  | _ => data
  end.

Definition _make_match_id (dice : list Z) : string :=
  b64_unpadded (match_bytes dice).

(** Reading the dice back from the bytes: the three bits from bit 5 of
    byte 2 and the three bits from bit 1 of byte 3, plus one. *)
Definition dice_of_bytes (data : list Z) : list Z :=
  [ Z.shiftr (nth 2 data 0) 5 + 1;
    Z.land (Z.shiftr (nth 3 data 0) 1) 7 + 1 ].

End MatchId.

(* ===================================================================== *)
(** * 10. Start of the engine (GnuBgEngine.start, lines 87-110)            *)
(* ===================================================================== *)

Module Lifecycle.
Import Str Re Engine.

(** [self.version] and [self._ready]. *)
Record engine_state := {
  version : string;
  ready : bool
}.

(** [__init__] (lines 81-85). *)
Definition initial_state : engine_state :=
  {| version := "unknown"; ready := false |}.

(** [asyncio.create_subprocess_exec]: the process, or an exception. *)
Inductive spawn :=
| Spawned
| SpawnRaises (e : exn).

(** The class FileNotFoundError, the only one that [start] handles; an
    exception of a class that [exn] does not name is an [OtherError] with
    the name of its class. *)
Definition is_file_not_found (e : exn) : bool :=
  match e with
  | OtherError msg => String.eqb msg "FileNotFoundError"
  | _ => false
  end.

(** [r'GNU Backgammon\s+([\d.]+)'] *)
Definition digit_or_dot (c : ascii) : bool :=
  is_digit c || Ascii.eqb c "."%char.

Definition version_pat : regex :=
  Seq (lit "GNU Backgammon") (Seq (plus ws) (Group 1 (plus (Chr digit_or_dot)))).

(** [vm.group(1) if vm else self.version]. *)
Definition banner_version (banner : list ascii) : string :=
  match search version_pat banner with
  | Some vm => string_of_list_ascii (group 1 (caps vm))
  | None => version initial_state
  end.

(** The handler of [start]: FileNotFoundError puts the engine in mock mode,
    any other exception leaves [start]. *)
Definition start_handler (e : exn) : result engine_state :=
  if is_file_not_found e then Ok {| version := "mock"; ready := true |}
  else Raise e.

(** [start]; [banner] is what [_read_until_prompt] collected after the
    process was created. *)
Definition start (spawned : spawn) (banner : list ascii)
  : prog (result engine_state) :=
  match spawned with
  | SpawnRaises e => Ret (start_handler e)
  | Spawned =>
      let found := banner_version banner in
      Send "set evaluation chequer eval plies 2" default_timeout
        (fun r =>
           match r with
           | Raise e => Ret (start_handler e)
           | Ok _ =>
               Send "set evaluation cubedecision eval plies 2" default_timeout
                 (fun r =>
                    match r with
                    | Raise e => Ret (start_handler e)
                    | Ok _ => Ret (Ok {| version := found; ready := true |})
                    end)
           end)
  end.

End Lifecycle.

(* ===================================================================== *)
(** * 11. Vocabulary of the further statements                             *)
(* ===================================================================== *)

Module MoreStatements.
Import Str Re ReSpec Parse Split Transform Engine PositionId Statements.

(** The two halves of the layout of a position identifier. *)
Definition white_half (points : list Z) (bar0 : Z) : list Z :=
  flat_map (fun p => run (Z.max 0 p)) points ++ run bar0.

Definition black_half (points : list Z) (bar1 : Z) : list Z :=
  flat_map (fun p => run (Z.max 0 (- p))) (rev points) ++ run bar1.

(** The board seen from the other side: the colours exchanged and the
    points counted from the other end. *)
Definition mirror (points : list Z) : list Z := map Z.opp (rev points).

(** The checkers that an identifier shows: those on the points and on the
    bar, of both sides. *)
Definition checkers_shown (points : list Z) (bar0 bar1 : Z) : Z :=
  (Board.py_sum (map (fun p => Z.max 0 p) points) + Z.max 0 bar0)
  + (Board.py_sum (map (fun p => Z.max 0 (- p)) points) + Z.max 0 bar1).

(** A move that the dice-sum splitting leaves alone: a bear-off, a die of
    at most 6, or a die above 12. *)
Definition settled (m : MoveResponse) : Prop :=
  is_bear_off m = true \/ die_used m <= 6 \/ 12 < die_used m.

(** [sum(m.die_used for m in moves)] and the number of hits. *)
Definition die_total (ms : list MoveResponse) : Z :=
  Board.py_sum (map die_used ms).

Definition hits (ms : list MoveResponse) : nat :=
  List.length (filter is_hit ms).

(** A move whose die agrees with its points, as the first loop of
    [_parse_notation] builds it: a bear-off goes to the placeholder 0 with
    the from-point as die, another move has the distance as die. *)
Definition coherent (m : MoveResponse) : Prop :=
  if is_bear_off m then to_point m = 0 /\ die_used m = from_point m
  else die_used m = Z.abs (from_point m - to_point m).

(** The same after the black-perspective transform: a bear-off ends on
    point 25. *)
Definition coherent_for_black (m : MoveResponse) : Prop :=
  if is_bear_off m then to_point m = 25 /\ die_used m = 25 - from_point m
  else die_used m = Z.abs (from_point m - to_point m).

(** What [_parse_evaluation] appends for a matched line when [first] is
    the entry at the head of the list at that moment: the default win
    probability, a rank that is not negative, an equity that is a number,
    and the difference to the equity of the head, which is 0.0 for rank 1
    and when the list is still empty. *)
Definition ranked_entry (first : option RankedPlay) (e : RankedPlay) : Prop :=
  win_probability e = 0.5%float /\
  0 <= rank e /\
  is_number (equity e) /\
  equity_difference e =
    (if rank e =? 1 then 0%float
     else match first with
          | Some f => (equity f - equity e)%float
          | None => 0%float
          end).

(** A text without the character [c]. *)
Definition without (c : ascii) (s : list ascii) : Prop :=
  forall x, In x s -> Ascii.eqb x c = false.

(** The commands of [evaluate] and of [evaluate_cube] in the order of the
    source, as far as the request lets them be built: without a position
    identifier or without two dice the sequence stops before the command
    that needs them. *)
Definition evaluate_commands (req : EvaluateRequest) : list string :=
  [ ("set evaluation chequer eval plies " ++ py_str (ply req))%string;
    "new game"%string ] ++
  match _make_position_id (points req) (bar req) with
  | None => []
  | Some pos_id =>
      [ ("set board " ++ pos_id)%string;
        ("set turn " ++
         py_str (if String.eqb (player req) "white" then 0 else 1))%string;
        "show board"%string ] ++
      match nth_error (dice req) 0, nth_error (dice req) 1 with
      | Some die0, Some die1 =>
          [ ("set dice " ++ py_str die0 ++ " " ++ py_str die1)%string;
            "hint"%string ]
      | _, _ => []
      end
  end.

Definition cube_commands (req : CubeRequest) : list string :=
  [ ("set evaluation cubedecision eval plies "
     ++ py_str (cube_ply req))%string;
    "new game"%string; "set turn 0"%string; "clear board"%string ] ++
  if setup_reads (cube_points req) (cube_bar req) then
    match _make_position_id (cube_points req) (cube_bar req) with
    | None => []
    | Some pos_id =>
        [ ("set board " ++ pos_id)%string;
          ("set turn " ++
           py_str (if String.eqb (cube_player req) "white" then 0 else 1))%string;
          "hint cube"%string ]
    end
  else [].

(** The first [n] commands are answered. *)
Definition all_ok (replies : nat -> result string) (n : nat) : Prop :=
  forall k, (k < n)%nat -> exists text, replies k = Ok text.

(** Replies on which the statements are tried: every command is answered
    with an empty text, the hint with one ranked play. *)
Definition one_play_hint : string :=
  "    1. Cubeful 0-ply    24/21 6/5                    Eq.: +0.123".

(** A hint with two ranked plays, one on each line. *)
Definition two_plays_hint : list ascii :=
  chars "    1. Cubeful 0-ply    24/21 6/5                    Eq.: +0.500"
  ++ [Statements.newline]
  ++ chars "    2. Cubeful 0-ply    13/10 6/5                    Eq.: +0.250".

Definition hint_replies : nat -> result string :=
  fun n => if (n =? 6)%nat then Ok one_play_hint else Ok ""%string.

Definition cube_hint : string :=
  "1. No double           +0.250  2. Double, pass        +1.000  3. Double, take        +0.100".

Definition cube_replies : nat -> result string :=
  fun n => if (n =? 6)%nat then Ok cube_hint else Ok ""%string.

(** What the plays of the mock strategy are made of.  A point is occupied
    by the player on roll when it holds checkers of the player's sign; a
    mock move takes a checker from such a point by one of the two dice, in
    the player's direction, to a point of the board. *)
Definition occupied_by (req : EvaluateRequest) (pt : Z) : Prop :=
  1 <= pt <= 24 /\
  exists val, nth_error (points req) (Z.to_nat (pt - 1)) = Some val /\
    ((player req = "white"%string /\ 0 < val) \/
     (player req = "black"%string /\ val < 0)).

Definition mock_direction (req : EvaluateRequest) : Z :=
  if String.eqb (player req) "white" then -1 else 1.

Definition mock_move (req : EvaluateRequest) (m : MoveResponse) : Prop :=
  occupied_by req (from_point m) /\
  In (die_used m) (dice req) /\
  to_point m = from_point m + die_used m * mock_direction req /\
  1 <= to_point m <= 24 /\
  is_hit m = false /\ is_bear_off m = false.

Definition mock_entry (req : EvaluateRequest) (e : RankedPlay) : Prop :=
  win_probability e = 0.5%float /\
  (List.length (moves (play e)) <= 2)%nat /\
  Forall (mock_move req) (moves (play e)).

End MoreStatements.

(* ===================================================================== *)
(** * Theorems: the position identifier                                    *)
(* ===================================================================== *)

Section PositionIdFacts.
Import PositionId.

Lemma py_sum_from (l : list Z) (a : Z) :
  fold_left Z.add l a = a + Board.py_sum l.
Proof.
  unfold Board.py_sum. revert a.
  induction l as [|x l IH]; intros a; simpl; [lia|].
  rewrite IH, (IH x). lia.
Qed.

Lemma py_sum_cons (x : Z) (l : list Z) :
  Board.py_sum (x :: l) = x + Board.py_sum l.
Proof. unfold Board.py_sum at 1. simpl. apply py_sum_from. Qed.

Lemma py_sum_app (l1 l2 : list Z) :
  Board.py_sum (l1 ++ l2) = Board.py_sum l1 + Board.py_sum l2.
Proof.
  induction l1 as [|x l1 IH]; simpl; [reflexivity|].
  rewrite !py_sum_cons, IH. lia.
Qed.

Lemma py_sum_rev (l : list Z) : Board.py_sum (rev l) = Board.py_sum l.
Proof.
  induction l as [|x l IH]; simpl; [reflexivity|].
  rewrite py_sum_app, IH. change (Board.py_sum [x]) with (0 + x).
  rewrite py_sum_cons. lia.
Qed.

Lemma py_sum_nonneg (l : list Z) :
  Forall (fun x => 0 <= x) l -> 0 <= Board.py_sum l.
Proof.
  induction 1 as [|x l Hx _ IH]; [unfold Board.py_sum; simpl; lia|].
  rewrite py_sum_cons. lia.
Qed.

(** The two loops append one run per visited index. *)
Lemma white_loop_runs (points : list Z) (idxs : list nat) (bits : list Z) :
  Forall (fun i => (i < List.length points)%nat) idxs ->
  white_loop points idxs bits =
    Some (bits ++ flat_map (fun i => run (Z.max 0 (nth i points 0))) idxs).
Proof.
  intros H. revert bits.
  induction H as [|i idxs Hi _ IH]; intros bits; simpl.
  - now rewrite app_nil_r.
  - destruct (nth_error points i) as [p|] eqn:E.
    + rewrite IH. rewrite (nth_error_nth _ _ 0 E).
      unfold run. now rewrite <- !app_assoc.
    + apply nth_error_None in E. lia.
Qed.

Lemma black_loop_runs (points : list Z) (idxs : list nat) (bits : list Z) :
  Forall (fun i => (i < List.length points)%nat) idxs ->
  black_loop points idxs bits =
    Some (bits ++ flat_map (fun i => run (Z.max 0 (- nth i points 0))) idxs).
Proof.
  intros H. revert bits.
  induction H as [|i idxs Hi _ IH]; intros bits; simpl.
  - now rewrite app_nil_r.
  - destruct (nth_error points i) as [p|] eqn:E.
    + rewrite IH. rewrite (nth_error_nth _ _ 0 E).
      unfold run. now rewrite <- !app_assoc.
    + apply nth_error_None in E. lia.
Qed.

Lemma map_nth_range (l : list Z) :
  map (fun i => nth i l 0) (seq 0 (List.length l)) = l.
Proof.
  induction l as [|x l IH]; simpl; [reflexivity|].
  f_equal. rewrite <- seq_shift, map_map. exact IH.
Qed.

Lemma flat_map_range {B} (f : Z -> list B) (l : list Z) :
  flat_map (fun i => f (nth i l 0)) (seq 0 (List.length l)) = flat_map f l.
Proof.
  transitivity (flat_map f (map (fun i => nth i l 0) (seq 0 (List.length l)))).
  - rewrite !flat_map_concat_map, map_map. reflexivity.
  - now rewrite map_nth_range.
Qed.

Lemma flat_map_range_down {B} (f : Z -> list B) (l : list Z) :
  flat_map (fun i => f (nth i l 0)) (rev (seq 0 (List.length l)))
  = flat_map f (rev l).
Proof.
  transitivity
    (flat_map f (rev (map (fun i => nth i l 0) (seq 0 (List.length l))))).
  - rewrite <- map_rev, !flat_map_concat_map, map_map. reflexivity.
  - now rewrite map_nth_range.
Qed.

Lemma range_in_bounds (n : nat) (l : list nat) :
  (forall i, In i l -> (i < n)%nat) -> Forall (fun i => (i < n)%nat) l.
Proof. intros H. apply Forall_forall. exact H. Qed.

(** On 24 points and a 2-entry bar the loops produce the specified layout. *)
Lemma raw_bits_layout (points : list Z) (bar0 bar1 : Z) :
  List.length points = 24%nat ->
  raw_bits points [bar0; bar1] = Some (layout points bar0 bar1).
Proof.
  intros Hlen. unfold raw_bits, range24, range23_down.
  rewrite white_loop_runs.
  2:{ rewrite Hlen. apply range_in_bounds. intros i Hi.
      apply in_seq in Hi. lia. }
  cbn [nth_error].
  rewrite black_loop_runs.
  2:{ rewrite Hlen. apply range_in_bounds. intros i Hi.
      apply in_rev in Hi. apply in_seq in Hi. lia. }
  rewrite <- Hlen.
  rewrite (flat_map_range (fun p => run (Z.max 0 p))).
  rewrite (flat_map_range_down (fun p => run (Z.max 0 (- p)))).
  unfold layout, run. cbn [app]. now rewrite <- !app_assoc.
Qed.


(** ** Length of the layout: no bit is lost to the truncation *)

Lemma length_ones (c : Z) : Z.of_nat (List.length (ones c)) = Z.max 0 c.
Proof. unfold ones. rewrite repeat_length. lia. Qed.

Lemma length_run (c : Z) : Z.of_nat (List.length (run c)) = Z.max 0 c + 1.
Proof.
  unfold run. rewrite length_app, Nat2Z.inj_add, length_ones. simpl. lia.
Qed.

Lemma length_runs (f : Z -> Z) (l : list Z) :
  Z.of_nat (List.length (flat_map (fun p => run (Z.max 0 (f p))) l))
  = Board.py_sum (map (fun p => Z.max 0 (f p)) l) + Z.of_nat (List.length l).
Proof.
  induction l as [|x l IH].
  - reflexivity.
  - cbn [flat_map map List.length].
    rewrite length_app, Nat2Z.inj_add, length_run, IH, py_sum_cons. lia.
Qed.

Lemma length_layout (points : list Z) (bar0 bar1 : Z) :
  Z.of_nat (List.length (layout points bar0 bar1))
  = (Board.py_sum (map (fun p => Z.max 0 p) points) + Z.max 0 bar0)
    + (Board.py_sum (map (fun p => Z.max 0 (- p)) points) + Z.max 0 bar1)
    + 2 * Z.of_nat (List.length points) + 2.
Proof.
  unfold layout.
  rewrite !length_app, !Nat2Z.inj_add, !length_run.
  rewrite (length_runs (fun p => p)), (length_runs (fun p => - p)).
  rewrite length_rev, map_rev, py_sum_rev. lia.
Qed.

Lemma pad80_length (bits : list Z) : List.length (pad80 bits) = 80%nat.
Proof.
  unfold pad80. rewrite length_firstn, length_app, repeat_length. lia.
Qed.

Lemma firstn_zeros (n m : nat) :
  firstn n (repeat 0 m) = repeat 0 (Nat.min n m).
Proof.
  revert m. induction n as [|n IH]; intros [|m]; simpl; try reflexivity.
  now rewrite IH.
Qed.

Lemma pad80_short (bits : list Z) :
  (List.length bits <= 80)%nat ->
  pad80 bits = bits ++ repeat 0 (80 - List.length bits).
Proof.
  intros H. unfold pad80.
  replace 80%nat with (List.length bits + (80 - List.length bits))%nat at 1 by lia.
  rewrite firstn_app_2. f_equal.
  rewrite firstn_zeros. f_equal. lia.
Qed.

(** ** Reading the runs back *)

Lemma read_run_run (c : Z) (rest : list Z) :
  read_run (run c ++ rest) = Some (Z.max 0 c, rest).
Proof.
  unfold run, ones.
  replace (Z.max 0 c) with (Z.of_nat (Z.to_nat c)) by lia.
  induction (Z.to_nat c) as [|n IH].
  - reflexivity.
  - cbn [repeat app read_run]. change (1 =? 0) with false. cbv iota.
    cbn [app] in IH. rewrite IH. f_equal. f_equal. lia.
Qed.

Lemma read_runs_runs (cs : list Z) (rest : list Z) :
  read_runs (List.length cs) (flat_map run cs ++ rest)
  = Some (map (fun c => Z.max 0 c) cs, rest).
Proof.
  induction cs as [|c cs IH].
  - reflexivity.
  - cbn [List.length flat_map read_runs map].
    rewrite <- app_assoc, read_run_run, IH. reflexivity.
Qed.

Lemma layout_as_runs (points : list Z) (bar0 bar1 : Z) :
  layout points bar0 bar1
  = flat_map run (map (fun p => Z.max 0 p) points ++ [bar0])
    ++ flat_map run (map (fun p => Z.max 0 (- p)) (rev points) ++ [bar1]).
Proof.
  unfold layout. rewrite !flat_map_app. cbn [flat_map].
  rewrite !app_nil_r, !flat_map_concat_map, !map_map. reflexivity.
Qed.

Lemma decode_bits_layout (points : list Z) (bar0 bar1 : Z) (tail : list Z) :
  List.length points = 24%nat ->
  decode_bits (layout points bar0 bar1 ++ tail)
  = Some (points, [Z.max 0 bar0; Z.max 0 bar1]).
Proof.
  intros Hlen. unfold decode_bits.
  rewrite layout_as_runs, <- app_assoc.
  set (wc := map (fun p => Z.max 0 p) points ++ [bar0]).
  set (bc := map (fun p => Z.max 0 (- p)) (rev points) ++ [bar1]).
  assert (Hw : List.length wc = 25%nat)
    by (unfold wc; rewrite length_app, length_map, Hlen; reflexivity).
  assert (Hb : List.length bc = 25%nat)
    by (unfold bc; rewrite length_app, length_map, length_rev, Hlen; reflexivity).
  rewrite <- Hw at 1. rewrite read_runs_runs.
  rewrite <- Hb at 1. rewrite read_runs_runs.
  f_equal. f_equal.
  - transitivity (map (fun i => nth i points 0) (seq 0 24));
      [| rewrite <- Hlen; apply map_nth_range].
    apply map_ext_in. intros i Hi. apply in_seq in Hi.
    unfold wc, bc. rewrite !map_app, !map_map.
    rewrite !app_nth1 by (rewrite length_map, ?length_rev; lia).
    rewrite (nth_indep _ 0 (Z.max 0 (Z.max 0 0))) by (rewrite length_map; lia).
    rewrite (map_nth (fun p => Z.max 0 (Z.max 0 p))).
    rewrite (nth_indep (map _ (rev points)) 0 (Z.max 0 (Z.max 0 (- 0))))
      by (rewrite length_map, length_rev; lia).
    rewrite (map_nth (fun p => Z.max 0 (Z.max 0 (- p)))).
    rewrite rev_nth by lia. rewrite Hlen.
    replace (24 - S (23 - i))%nat with i by lia. lia.
  - unfold wc, bc. rewrite !map_app.
    rewrite !app_nth2 by (rewrite !length_map, ?length_rev; lia).
    rewrite !length_map, length_rev, Hlen. reflexivity.
Qed.


(** ** Packing into bytes and unpacking *)

Lemma set_nth_length (data : list Z) (k : nat) (v : Z) :
  List.length (set_nth data k v) = List.length data.
Proof.
  revert k. induction data as [|x data IH]; intros [|k]; simpl; auto.
Qed.

Lemma set_nth_same (data : list Z) (k : nat) (v : Z) :
  (k < List.length data)%nat -> nth k (set_nth data k v) 0 = v.
Proof.
  revert k. induction data as [|x data IH]; intros [|k] H; simpl in *;
    try lia; auto. apply IH. lia.
Qed.

Lemma set_nth_other (data : list Z) (k k' : nat) (v : Z) :
  k' <> k -> nth k' (set_nth data k v) 0 = nth k' data 0.
Proof.
  revert k k'. induction data as [|x data IH]; intros [|k] [|k'] H; simpl;
    try reflexivity; try congruence. apply IH. congruence.
Qed.

Lemma set_nth_Forall (P : Z -> Prop) (data : list Z) (k : nat) (v : Z) :
  Forall P data -> P v -> Forall P (set_nth data k v).
Proof.
  intros H Hv. revert k.
  induction H as [|x data Hx Hd IH]; intros [|k]; simpl;
    try constructor; auto.
Qed.

Lemma is_byte_nth (data : list Z) (k : nat) :
  Forall is_byte data -> is_byte (nth k data 0).
Proof.
  intros H. revert k.
  induction H as [|x data Hx _ IH]; intros [|k]; simpl; auto;
    unfold is_byte; lia.
Qed.

Lemma is_byte_land (x : Z) : is_byte x <-> Z.land x 255 = x.
Proof.
  change 255 with (Z.ones 8). rewrite Z.land_ones by lia.
  change (2 ^ 8) with 256. unfold is_byte. split; intros H.
  - apply Z.mod_small. exact H.
  - rewrite <- H. apply Z.mod_pos_bound. lia.
Qed.

Lemma is_byte_set_bit (x : Z) (m : nat) :
  is_byte x -> (m < 8)%nat -> is_byte (Z.lor x (Z.shiftl 1 (Z.of_nat m))).
Proof.
  intros Hx Hm. apply is_byte_land.
  rewrite Z.land_lor_distr_l. f_equal.
  - now apply is_byte_land.
  - do 8 (destruct m as [|m]; [reflexivity|]). lia.
Qed.

Lemma testbit_set_bit (x : Z) (m j : nat) :
  (m < 8)%nat -> (j < 8)%nat ->
  Z.testbit (Z.lor x (Z.shiftl 1 (Z.of_nat m))) (Z.of_nat j)
  = Z.testbit x (Z.of_nat j) || Nat.eqb j m.
Proof.
  intros Hm Hj. rewrite Z.lor_spec. f_equal.
  do 8 (destruct m as [|m]; [do 8 (destruct j as [|j]; [reflexivity|]); lia|]).
  lia.
Qed.

Lemma index_split (i k j : nat) :
  (j < 8)%nat -> (8 * k + j = i)%nat <-> (k = i / 8 /\ j = i mod 8)%nat.
Proof.
  intros Hj. pose proof (Nat.div_mod_eq i 8) as E.
  pose proof (Nat.mod_upper_bound i 8 ltac:(lia)) as B.
  split.
  - intros <-. split.
    + symmetry. rewrite Nat.mul_comm. rewrite Nat.div_add_l by lia.
      rewrite Nat.div_small by lia. lia.
    + symmetry. rewrite Nat.add_comm, Nat.mul_comm, Nat.Div0.mod_add.
      now apply Nat.mod_small.
  - intros [-> ->]. lia.
Qed.

(** What the packing loop leaves in the byte array: bit [j] of byte [k] is
    set exactly when it was set before or bit [8k+j] of the input is 1. *)
Lemma pack_loop_spec (bits : list Z) :
  forall (i : nat) (data : list Z),
    Forall is_byte data ->
    (i + List.length bits <= 8 * List.length data)%nat ->
    let r := pack_loop bits i data in
    List.length r = List.length data /\ Forall is_byte r /\
    forall k j, (j < 8)%nat ->
      Z.testbit (nth k r 0) (Z.of_nat j)
      = Z.testbit (nth k data 0) (Z.of_nat j)
        || ((i <=? 8 * k + j)%nat && (8 * k + j <? i + List.length bits)%nat
            && negb (nth (8 * k + j - i) bits 0 =? 0)).
Proof.
  induction bits as [|bit rest IH]; intros i data Hdata Hlen; cbn zeta.
  - cbn [pack_loop List.length]. repeat split; auto.
    intros k j Hj.
    destruct (Nat.leb_spec i (8 * k + j)) as [Hle|Hgt]; cbn [andb].
    + replace (8 * k + j <? i + 0)%nat with false
        by (symmetry; apply Nat.ltb_ge; lia).
      now rewrite orb_false_r.
    + now rewrite orb_false_r.
  - cbn [pack_loop]. cbn [List.length] in Hlen.
    pose proof (Nat.mod_upper_bound i 8 ltac:(lia)) as Hm.
    set (data' := if bit =? 0 then data else _).
    assert (Hd' : Forall is_byte data').
    { unfold data'. destruct (bit =? 0); [assumption|].
      apply set_nth_Forall; [assumption|].
      apply is_byte_set_bit; [now apply is_byte_nth | assumption]. }
    assert (Hl' : List.length data' = List.length data).
    { unfold data'. destruct (bit =? 0); [reflexivity|apply set_nth_length]. }
    destruct (IH (S i) data' Hd') as (L & B & T); [rewrite Hl'; lia|].
    split; [congruence|]. split; [assumption|].
    intros k j Hj. rewrite (T k j Hj).
    assert (Hbit : Z.testbit (nth k data' 0) (Z.of_nat j)
                   = Z.testbit (nth k data 0) (Z.of_nat j)
                     || (Nat.eqb (8 * k + j) i && negb (bit =? 0))).
    { unfold data'. destruct (bit =? 0) eqn:Eb.
      - now rewrite andb_false_r, orb_false_r.
      - rewrite andb_true_r.
        destruct (Nat.eqb_spec (8 * k + j) i) as [E|E].
        + apply index_split in E; [|assumption]. destruct E as [-> ->].
          rewrite set_nth_same.
          * rewrite testbit_set_bit by lia. now rewrite Nat.eqb_refl.
          * pose proof (Nat.div_mod_eq i 8). lia.
        + rewrite orb_false_r.
          destruct (Nat.eq_dec k (i / 8)) as [->|Hk].
          * destruct (Nat.lt_ge_cases (i / 8) (List.length data)) as [Hin|Hout].
            -- rewrite set_nth_same by assumption.
               rewrite testbit_set_bit by lia.
               destruct (Nat.eqb_spec j (i mod 8)) as [->|]; [|apply orb_false_r].
               exfalso. apply E. pose proof (Nat.div_mod_eq i 8). lia.
            -- pose proof (Nat.div_mod_eq i 8). lia.
          * now rewrite set_nth_other. }
    rewrite Hbit. cbn [List.length].
    destruct (Nat.eqb_spec (8 * k + j) i) as [E|E].
    + subst i. rewrite Nat.sub_diag. cbn [nth].
      rewrite Nat.leb_refl.
      replace (S (8 * k + j) <=? 8 * k + j)%nat with false
        by (symmetry; apply Nat.leb_gt; lia).
      replace (8 * k + j <? 8 * k + j + S (List.length rest))%nat with true
        by (symmetry; apply Nat.ltb_lt; lia).
      cbn [andb]. now rewrite orb_false_r.
    + cbn [andb]. rewrite orb_false_r.
      f_equal.
      destruct (Nat.leb_spec (S i) (8 * k + j)) as [Hle|Hgt].
      * replace (i <=? 8 * k + j)%nat with true
          by (symmetry; apply Nat.leb_le; lia).
        replace (8 * k + j - i)%nat with (S (8 * k + j - S i)) by lia.
        cbn [nth andb].
        replace (S i + List.length rest)%nat with (i + S (List.length rest))%nat
          by lia.
        reflexivity.
      * replace (i <=? 8 * k + j)%nat with false
          by (symmetry; apply Nat.leb_gt; lia).
        reflexivity.
Qed.


Lemma byte_bits_length (b : Z) : List.length (byte_bits b) = 8%nat.
Proof. reflexivity. Qed.

Lemma unpack_bits_length (data : list Z) :
  List.length (unpack_bits data) = (8 * List.length data)%nat.
Proof.
  induction data as [|b data IH]; [reflexivity|].
  unfold unpack_bits in *. cbn [flat_map].
  rewrite length_app, IH, byte_bits_length. simpl. lia.
Qed.

Lemma nth_unpack_bits (data : list Z) :
  forall k j, (j < 8)%nat -> (k < List.length data)%nat ->
    nth (8 * k + j) (unpack_bits data) 0
    = bit_of (Z.testbit (nth k data 0) (Z.of_nat j)).
Proof.
  induction data as [|b data IH]; intros k j Hj Hk; [simpl in Hk; lia|].
  unfold unpack_bits in *. cbn [flat_map].
  destruct k as [|k].
  - rewrite app_nth1 by (rewrite byte_bits_length; lia).
    cbn [Nat.mul Nat.add nth].
    do 8 (destruct j as [|j]; [reflexivity|]). lia.
  - rewrite app_nth2 by (rewrite byte_bits_length; lia).
    rewrite byte_bits_length.
    replace (8 * S k + j - 8)%nat with (8 * k + j)%nat by lia.
    cbn [nth]. apply IH; [assumption|]. simpl in Hk. lia.
Qed.

(** Ten bytes hold the 80 bits, and unpacking gives them back. *)
Lemma pack_bytes_spec (bits : list Z) :
  List.length bits = 80%nat ->
  List.length (pack_bytes bits) = 10%nat /\
  Forall is_byte (pack_bytes bits) /\
  forall k j, (k < 10)%nat -> (j < 8)%nat ->
    Z.testbit (nth k (pack_bytes bits) 0) (Z.of_nat j)
    = negb (nth (8 * k + j) bits 0 =? 0).
Proof.
  intros Hlen. unfold pack_bytes.
  assert (Hz : Forall is_byte (repeat 0 10))
    by (apply Forall_forall; intros x Hx; apply repeat_spec in Hx;
        subst; unfold is_byte; lia).
  destruct (pack_loop_spec bits 0%nat (repeat 0 10) Hz) as (L & B & T).
  { rewrite Hlen. simpl. lia. }
  split; [exact L|]. split; [exact B|].
  intros k j Hk Hj. rewrite (T k j Hj).
  replace (nth k (repeat 0 10) 0) with 0
    by (symmetry; apply nth_repeat).
  rewrite Z.bits_0. cbn [orb Nat.leb].
  rewrite Hlen, Nat.sub_0_r.
  replace (8 * k + j <? 0 + 80)%nat with true
    by (symmetry; apply Nat.ltb_lt; lia).
  reflexivity.
Qed.

Lemma unpack_pack (bits : list Z) :
  List.length bits = 80%nat -> Forall is_bit bits ->
  unpack_bits (pack_bytes bits) = bits.
Proof.
  intros Hlen Hbits.
  destruct (pack_bytes_spec bits Hlen) as (L & _ & T).
  apply (nth_ext _ _ 0 0).
  - rewrite unpack_bits_length, L, Hlen. reflexivity.
  - intros n Hn. rewrite unpack_bits_length, L in Hn.
    pose proof (Nat.div_mod_eq n 8) as E.
    pose proof (Nat.mod_upper_bound n 8 ltac:(lia)) as Hm.
    rewrite E at 1.
    rewrite nth_unpack_bits by (rewrite ?L; lia).
    rewrite T by lia. rewrite <- E.
    assert (Hb : is_bit (nth n bits 0)).
    { rewrite Forall_forall in Hbits. apply Hbits, nth_In. lia. }
    destruct Hb as [-> | ->]; reflexivity.
Qed.

(** ** base64 *)

Lemma b64_digit (v : Z) :
  0 <= v < 64 ->
  b64_index (b64_char v) = Some v /\ is_pad (b64_char v) = false.
Proof.
  intros Hv. rewrite <- (Z2Nat.id v) by lia.
  assert (Hn : (Z.to_nat v < 64)%nat) by lia.
  clear Hv. generalize dependent (Z.to_nat v). clear v. intros n Hn.
  do 64 (destruct n as [|n]; [split; reflexivity|]). lia.
Qed.

Lemma b64_decode_group (a b c : Z) (rest : list ascii) :
  is_byte a -> is_byte b -> is_byte c ->
  let n := a * 65536 + b * 256 + c in
  b64decode_list
    (b64_char (n / 262144) :: b64_char ((n / 4096) mod 64)
     :: b64_char ((n / 64) mod 64) :: b64_char (n mod 64) :: rest)
  = match b64decode_list rest with
    | Some bytes => Some (a :: b :: c :: bytes)
    | None => None
    end.
Proof.
  intros Ha Hb Hc n. unfold is_byte in Ha, Hb, Hc.
  assert (H0 : 0 <= n / 262144 < 64) by (subst n; Z.div_mod_to_equations; lia).
  assert (H1 : 0 <= (n / 4096) mod 64 < 64) by (apply Z.mod_pos_bound; lia).
  assert (H2 : 0 <= (n / 64) mod 64 < 64) by (apply Z.mod_pos_bound; lia).
  assert (H3 : 0 <= n mod 64 < 64) by (apply Z.mod_pos_bound; lia).
  destruct (b64_digit _ H0) as [I0 _], (b64_digit _ H1) as [I1 _],
           (b64_digit _ H2) as [I2 P2], (b64_digit _ H3) as [I3 P3].
  cbn [b64decode_list]. rewrite I0, I1, P2, I2, P3, I3. cbn [andb].
  destruct (b64decode_list rest) as [bytes|]; [|reflexivity].
  f_equal. f_equal; [|f_equal; [|f_equal]];
    subst n; Z.div_mod_to_equations; lia.
Qed.

Lemma b64_decode_last (a : Z) :
  is_byte a ->
  let n := a * 65536 in
  b64decode_list
    [b64_char (n / 262144); b64_char ((n / 4096) mod 64); "="%char; "="%char]
  = Some [a].
Proof.
  intros Ha n. unfold is_byte in Ha.
  assert (H0 : 0 <= n / 262144 < 64) by (subst n; Z.div_mod_to_equations; lia).
  assert (H1 : 0 <= (n / 4096) mod 64 < 64) by (apply Z.mod_pos_bound; lia).
  destruct (b64_digit _ H0) as [I0 _], (b64_digit _ H1) as [I1 _].
  cbn [b64decode_list]. rewrite I0, I1.
  change (is_pad "="%char) with true. cbn [andb].
  f_equal. f_equal. subst n. Z.div_mod_to_equations. lia.
Qed.

(** Ten bytes are written as 14 characters, from which they are read back. *)
Lemma b64_roundtrip10 (data : list Z) :
  List.length data = 10%nat -> Forall is_byte data ->
  String.length (b64_unpadded data) = 14%nat /\
  b64encode_list data
  = list_ascii_of_string (b64_unpadded data) ++ ["="%char; "="%char] /\
  b64decode_unpadded (b64_unpadded data) = Some data.
Proof.
  intros Hlen Hb.
  do 10 (destruct data as [|? data]; [discriminate Hlen|]).
  destruct data; [|discriminate Hlen]. clear Hlen.
  repeat match goal with
         | H : Forall _ (_ :: _) |- _ => inversion H; subst; clear H
         end.
  match goal with H : Forall _ [] |- _ => clear H end.
  unfold b64_unpadded, b64decode_unpadded.
  cbn [b64encode_list].
  match goal with
  | |- context [b64_char ((?d * 65536 / 4096) mod 64)] =>
      assert (Hlast : is_pad (b64_char ((d * 65536 / 4096) mod 64)) = false)
        by (apply b64_digit, Z.mod_pos_bound; lia)
  end.
  unfold is_pad in Hlast.
  unfold rstrip_eq. cbn [rev app lstrip_eq].
  change (Ascii.eqb "="%char "="%char) with true. cbv iota.
  rewrite Hlast. cbn [rev app].
  split; [|split].
  - cbn [string_of_list_ascii String.length]. reflexivity.
  - rewrite list_ascii_of_string_of_list_ascii. reflexivity.
  - rewrite list_ascii_of_string_of_list_ascii.
    unfold repad. cbn [List.length Nat.modulo Nat.sub repeat app].
    change ((4 - 14 mod 4) mod 4)%nat with 2%nat. cbn [repeat app].
    rewrite !b64_decode_group by assumption.
    rewrite b64_decode_last by assumption. reflexivity.
Qed.


(** ** The bits of the layout *)

Lemma is_bit_run (c : Z) : Forall is_bit (run c).
Proof.
  unfold run, ones. apply Forall_app. split.
  - apply Forall_forall. intros x Hx. apply repeat_spec in Hx. now right.
  - constructor; [now left | constructor].
Qed.

Lemma is_bit_runs (f : Z -> Z) (l : list Z) :
  Forall is_bit (flat_map (fun p => run (f p)) l).
Proof.
  induction l as [|x l IH]; [constructor|].
  cbn [flat_map]. apply Forall_app. split; [apply is_bit_run | exact IH].
Qed.

Lemma is_bit_layout (points : list Z) (bar0 bar1 : Z) :
  Forall is_bit (layout points bar0 bar1).
Proof.
  unfold layout. apply Forall_app. split; apply Forall_app; split.
  - apply (is_bit_runs (fun p => Z.max 0 p)).
  - apply is_bit_run.
  - apply (is_bit_runs (fun p => Z.max 0 (- p))).
  - apply is_bit_run.
Qed.

Lemma Forall_take {A} (P : A -> Prop) (n : nat) (l : list A) :
  Forall P l -> Forall P (firstn n l).
Proof.
  intros H. revert n. induction H as [|x l Hx _ IH]; intros [|n]; simpl;
    constructor; auto.
Qed.

Lemma is_bit_pad80 (bits : list Z) : Forall is_bit bits -> Forall is_bit (pad80 bits).
Proof.
  intros H. unfold pad80. apply Forall_take, Forall_app. split; [exact H|].
  apply Forall_forall. intros x Hx. apply repeat_spec in Hx. now left.
Qed.

Lemma pad80_long (bits : list Z) :
  (80 <= List.length bits)%nat -> pad80 bits = firstn 80 bits.
Proof.
  intros H. unfold pad80. rewrite firstn_app.
  replace (80 - List.length bits)%nat with 0%nat by lia.
  cbn [firstn]. apply app_nil_r.
Qed.

(** On a valid board the layout fits in 80 bits. *)
Lemma layout_fits (points bar borne_off : list Z) :
  valid_board points bar borne_off ->
  (List.length (layout points (nth 0%nat bar 0%Z) (nth 1%nat bar 0%Z)) <= 80)%nat.
Proof.
  intros (Hp & Hb & Ho & Nb & No & Hw & Hk).
  destruct bar as [|b0 [|b1 [|? ?]]]; try discriminate Hb.
  destruct borne_off as [|o0 [|o1 [|? ?]]]; try discriminate Ho.
  unfold Board.white_count, Board.black_count in Hw, Hk.
  cbn [nth_error] in Hw, Hk. injection Hw as Hw. injection Hk as Hk.
  inversion Nb as [|? ? Hb0 Nb']; subst. inversion Nb' as [|? ? Hb1 _]; subst.
  inversion No as [|? ? Ho0 No']; subst. inversion No' as [|? ? Ho1 _]; subst.
  apply Nat2Z.inj_le. rewrite length_layout, Hp. cbn [nth]. lia.
Qed.

(** Encoding a valid board and decoding the identifier gives the board
    back. *)
Lemma make_position_id_decode (points bar borne_off : list Z) :
  valid_board points bar borne_off ->
  exists s, _make_position_id points bar = Some s /\
            decode_position_id s = Some (points, bar).
Proof.
  intros V. pose proof (layout_fits _ _ _ V) as Hfit.
  destruct V as (Hp & Hb & Ho & Nb & No & Hw & Hk).
  destruct bar as [|b0 [|b1 [|? ?]]]; try discriminate Hb.
  cbn [nth] in Hfit.
  unfold _make_position_id. rewrite raw_bits_layout by assumption.
  eexists. split; [reflexivity|].
  set (bits := pad80 (layout points b0 b1)).
  assert (Hl : List.length bits = 80%nat) by apply pad80_length.
  assert (Hbits : Forall is_bit bits) by apply is_bit_pad80, is_bit_layout.
  destruct (pack_bytes_spec bits Hl) as (L & B & _).
  destruct (b64_roundtrip10 _ L B) as (_ & _ & D).
  unfold decode_position_id. rewrite D, unpack_pack by assumption.
  unfold bits. rewrite pad80_short by assumption.
  rewrite decode_bits_layout by assumption.
  inversion Nb as [|? ? Hb0 Nb']; subst. inversion Nb' as [|? ? Hb1 _]; subst.
  repeat f_equal; lia.
Qed.

(** C1. For every board of 24 signed point counts with a 2-entry bar that
    satisfies the 15-checkers-per-side invariant (the counts of the bar and
    of the borne-off checkers being counts, that is, not negative),
    [_make_position_id] lays the bits out as specified: one run per point
    for white by ascending index, white's bar run, one run per point for
    black by descending index, black's bar run.  The layout is at most 80
    bits long, so that the truncation only pads it with zeros; decoding the
    identifier recovers the points and the bar; two valid boards with the
    same identifier are equal. *)
Theorem position_id_roundtrip (points bar borne_off : list Z) :
  valid_board points bar borne_off ->
  raw_bits points bar = Some (layout points (nth 0%nat bar 0%Z) (nth 1%nat bar 0%Z)) /\
  (List.length (layout points (nth 0%nat bar 0%Z) (nth 1%nat bar 0%Z)) <= 80)%nat /\
  pad80 (layout points (nth 0%nat bar 0%Z) (nth 1%nat bar 0%Z))
  = layout points (nth 0%nat bar 0%Z) (nth 1%nat bar 0%Z)
    ++ repeat 0 (80 - List.length (layout points (nth 0%nat bar 0%Z) (nth 1%nat bar 0%Z))) /\
  (exists s, _make_position_id points bar = Some s /\
             decode_position_id s = Some (points, bar)) /\
  (forall points' bar' borne_off',
      valid_board points' bar' borne_off' ->
      _make_position_id points' bar' = _make_position_id points bar ->
      points' = points /\ bar' = bar).
Proof.
  intros V. pose proof (layout_fits _ _ _ V) as Hfit.
  split; [|split; [exact Hfit|split; [now apply pad80_short|split]]].
  - destruct V as (Hp & Hb & _).
    destruct bar as [|b0 [|b1 [|? ?]]]; try discriminate Hb.
    now apply raw_bits_layout.
  - exact (make_position_id_decode _ _ _ V).
  - intros points' bar' borne_off' V' E.
    destruct (make_position_id_decode _ _ _ V) as (s & Hs & Ds).
    destruct (make_position_id_decode _ _ _ V') as (s' & Hs' & Ds').
    rewrite Hs, Hs' in E. injection E as ->.
    rewrite Ds in Ds'. now injection Ds' as -> ->.
Qed.

Lemma start_board_valid : valid_board start_points [0; 0] [0; 0].
Proof.
  unfold valid_board. repeat split; try reflexivity;
    repeat constructor; lia.
Defined.

Lemma position_id_roundtrip_witness :
  valid_board start_points [0; 0] [0; 0] /\
  exists s, _make_position_id start_points [0; 0] = Some s /\
            decode_position_id s = Some (start_points, [0; 0]).
Proof.
  split; [exact start_board_valid|].
  exact (proj1 (proj2 (proj2 (proj2
           (position_id_roundtrip start_points [0; 0] [0; 0] start_board_valid))))).
Defined.

(** A count below zero is written as an empty run, like a count of zero:
    the round trip needs the counts of the bar not to be negative. *)
Remark negative_bar_count_is_not_recovered :
  raw_bits start_points [-1; 0] = raw_bits start_points [0; 0].
Proof. reflexivity. Qed.

(** C9. For every 24-point board and 2-entry bar, whatever the counts, the
    identifier is built from a bit sequence truncated or zero-padded to
    exactly 80 bits, packed least significant bit first into exactly 10
    bytes (bit [i] is bit [i mod 8] of byte [i / 8]) and written as base64
    without its trailing '=': 14 characters that decode to these 10 bytes,
    that is, to these 80 bits. *)
Theorem position_id_80_bits (points bar : list Z) :
  List.length points = 24%nat -> List.length bar = 2%nat ->
  exists bits data s,
    raw_bits points bar = Some bits /\
    List.length (pad80 bits) = 80%nat /\
    ((List.length bits <= 80)%nat ->
       pad80 bits = bits ++ repeat 0 (80 - List.length bits)) /\
    ((80 <= List.length bits)%nat -> pad80 bits = firstn 80 bits) /\
    data = pack_bytes (pad80 bits) /\
    List.length data = 10%nat /\ Forall is_byte data /\
    (forall i, (i < 80)%nat ->
       Z.testbit (nth (i / 8) data 0) (Z.of_nat (i mod 8))
       = (nth i (pad80 bits) 0 =? 1)) /\
    _make_position_id points bar = Some s /\
    b64encode_list data = list_ascii_of_string s ++ ["="%char; "="%char] /\
    String.length s = 14%nat /\
    b64decode_unpadded s = Some data /\
    unpack_bits data = pad80 bits.
Proof.
  intros Hp Hb.
  destruct bar as [|b0 [|b1 [|? ?]]]; try discriminate Hb.
  exists (layout points b0 b1).
  set (bits := pad80 (layout points b0 b1)).
  assert (Hl : List.length bits = 80%nat) by apply pad80_length.
  assert (Hbits : Forall is_bit bits) by apply is_bit_pad80, is_bit_layout.
  destruct (pack_bytes_spec bits Hl) as (L & B & T).
  destruct (b64_roundtrip10 _ L B) as (S14 & Enc & D).
  exists (pack_bytes bits), (b64_unpadded (pack_bytes bits)).
  repeat split; try assumption.
  - now apply raw_bits_layout.
  - apply pad80_short.
  - apply pad80_long.
  - intros i Hi.
    pose proof (Nat.mod_upper_bound i 8 ltac:(lia)) as Hm.
    assert (Hk : (i / 8 < 10)%nat) by (apply Nat.Div0.div_lt_upper_bound; lia).
    rewrite (T _ _ Hk Hm), <- Nat.div_mod_eq.
    assert (Hbi : is_bit (nth i bits 0)).
    { rewrite Forall_forall in Hbits. apply Hbits, nth_In. lia. }
    destruct Hbi as [-> | ->]; reflexivity.
  - unfold _make_position_id. now rewrite raw_bits_layout.
  - now apply unpack_pack.
Qed.

Lemma position_id_80_bits_witness :
  exists bits data s,
    raw_bits start_points [0; 0] = Some bits /\
    List.length (pad80 bits) = 80%nat /\
    List.length data = 10%nat /\
    _make_position_id start_points [0; 0] = Some s /\
    b64decode_unpadded s = Some data.
Proof.
  destruct (position_id_80_bits start_points [0; 0] eq_refl eq_refl)
    as (bits & data & s & H1 & H2 & _ & _ & _ & H6 & _ & _ & H9 & _ & _ & H12 & _).
  exists bits, data, s. repeat split; assumption.
Defined.

End PositionIdFacts.

(* ===================================================================== *)
(** * Facts on binary64 floats                                             *)
(* ===================================================================== *)

Section FloatFacts.
Import Statements.

(** ** Rounding never produces NaN *)

Lemma shr_1_nonneg (mrs : shr_record) :
  0 <= shr_m mrs -> 0 <= shr_m (shr_1 mrs).
Proof.
  destruct mrs as [m r s]. cbn [shr_m]. intros H.
  destruct m as [|[p|p|]|p]; cbn; lia.
Qed.

Lemma iter_shr_1_nonneg (p : positive) :
  forall mrs, 0 <= shr_m mrs -> 0 <= shr_m (iter_pos shr_1 p mrs).
Proof.
  induction p as [p IH|p IH|]; intros mrs H; cbn [iter_pos].
  - apply IH, IH, shr_1_nonneg, H.
  - apply IH, IH, H.
  - apply shr_1_nonneg, H.
Qed.

Lemma shr_fexp_nonneg (m e : Z) (l : location) :
  0 <= m -> 0 <= shr_m (fst (shr_fexp prec emax m e l)).
Proof.
  intros H. unfold shr_fexp, shr.
  assert (H0 : 0 <= shr_m (shr_record_of_loc m l))
    by (destruct l as [|[]]; exact H).
  destruct (fexp prec emax (Zdigits2 m + e) - e); cbn [fst]; try exact H0.
  apply iter_shr_1_nonneg, H0.
Qed.

Lemma round_nearest_even_nonneg (m : Z) (l : location) :
  0 <= m -> 0 <= round_nearest_even m l.
Proof.
  intros H. unfold round_nearest_even.
  destruct l as [|[]]; try destruct (Z.even m); lia.
Qed.

Lemma binary_round_aux_number (s : bool) (m e : Z) (l : location) :
  0 <= m -> binary_round_aux prec emax s m e l <> S754_nan.
Proof.
  intros H. unfold binary_round_aux.
  pose proof (shr_fexp_nonneg m e l H) as H1.
  destruct (shr_fexp prec emax m e l) as [mrs' e']. cbn [fst] in H1.
  pose proof (shr_fexp_nonneg _ e' loc_Exact
                (round_nearest_even_nonneg _ (loc_of_shr_record mrs') H1)) as H2.
  destruct (shr_fexp prec emax _ e' loc_Exact) as [mrs'' e''].
  cbn [fst] in H2.
  destruct (shr_m mrs'') as [|p|p]; try discriminate; try lia.
  destruct (e'' <=? emax - prec); discriminate.
Qed.

Lemma binary_round_number (s : bool) (m : positive) (e : Z) :
  binary_round prec emax s m e <> S754_nan.
Proof.
  unfold binary_round.
  destruct (shl_align m e _) as [mz ez].
  apply binary_round_aux_number. lia.
Qed.

Lemma SFdiv_finite_number (s1 s2 : bool) (m1 m2 : positive) (e1 e2 : Z) :
  SFdiv prec emax (S754_finite s1 m1 e1) (S754_finite s2 m2 e2) <> S754_nan.
Proof.
  cbn [SFdiv].
  destruct (SFdiv_core_binary prec emax (Z.pos m1) e1 (Z.pos m2) e2)
    as [[mz ez] lz] eqn:E.
  apply binary_round_aux_number.
  unfold SFdiv_core_binary in E.
  set (m' := match _ with Z.pos _ => _ | 0 => _ | Z.neg _ => _ end) in E.
  assert (Hm : 0 <= m').
  { unfold m'.
    destruct (e1 - e2 - _); try lia. apply Z.shiftl_nonneg. lia. }
  pose proof (Z.div_eucl_eq m' (Z.pos m2) ltac:(lia)) as Hq.
  pose proof (Z.mod_pos_bound m' (Z.pos m2) ltac:(lia)) as Hr.
  unfold Z.modulo in Hr.
  destruct (Z.div_eucl m' (Z.pos m2)) as [q r].
  injection E as <- _ _. nia.
Qed.

(** A float built from a specification that is not NaN is a number. *)
Lemma SF2Prim_number (y : spec_float) :
  y <> S754_nan -> is_number (SF2Prim y).
Proof.
  intros Hy. unfold is_number.
  destruct y as [[]|[]| |s m e]; try discriminate; try contradiction.
  cbn [SF2Prim].
  assert (H : Prim2SF (Z.ldexp (of_uint63 (Uint63Axioms.of_Z (Z.pos m))) e)
              <> S754_nan).
  { rewrite Z_ldexp_spec, of_uint63_spec.
    unfold binary_normalize.
    destruct (Uint63Axioms.to_Z _) as [|p|p]; cbn [SFldexp]; try discriminate.
    - pose proof (binary_round_number false p 0) as Hb.
      destruct (binary_round prec emax false p 0); try discriminate;
        try contradiction. apply binary_round_number.
    - pose proof (binary_round_number true p 0) as Hb.
      destruct (binary_round prec emax true p 0); try discriminate;
        try contradiction. apply binary_round_number. }
  destruct s; [|exact H].
  rewrite opp_spec.
  destruct (Prim2SF _) as [[]|[]| |[] ? ?]; try discriminate; contradiction.
Qed.

Lemma float_of_decimal_number (neg : bool) (num : Z) (scale : nat) :
  is_number (Str.float_of_decimal neg num scale).
Proof.
  unfold Str.float_of_decimal. apply SF2Prim_number.
  destruct num; try discriminate. apply SFdiv_finite_number.
Qed.

Lemma zero_number : is_number 0%float.
Proof. unfold is_number. vm_compute. discriminate. Qed.

Lemma one_number : is_number 1%float.
Proof. unfold is_number. vm_compute. discriminate. Qed.

(** ** The order of the numbers *)

Lemma pos_cmp_refl (m : positive) : PosDef.Pos.compare_cont Eq m m = Eq.
Proof. apply (Pos.compare_refl m). Qed.

Lemma SFcompare_refl (a : spec_float) : a <> S754_nan -> cmp_eq a a.
Proof.
  unfold cmp_eq. destruct a as [[]|[]| |[] m e]; intros H; cbn;
    try reflexivity; try contradiction;
    rewrite Z.compare_refl, pos_cmp_refl; reflexivity.
Qed.

Lemma SFcompare_total (a b : spec_float) :
  a <> S754_nan -> b <> S754_nan ->
  cmp_lt a b \/ cmp_eq a b \/ cmp_lt b a.
Proof.
  unfold cmp_lt, cmp_eq.
  destruct a as [[]|[]| |[] m1 e1], b as [[]|[]| |[] m2 e2];
    intros Ha Hb; cbn; try contradiction; auto;
    rewrite (Z.compare_antisym e1 e2);
    change (PosDef.Pos.compare_cont Eq m2 m1) with (Pos.compare m2 m1);
    change (PosDef.Pos.compare_cont Eq m1 m2) with (Pos.compare m1 m2);
    rewrite (Pos.compare_antisym m1 m2);
    destruct (e1 ?= e2); cbn; auto;
    destruct (m1 ?= m2)%positive; cbn; auto.
Qed.

Ltac cmp_cases :=
  repeat match goal with
         | H : context [(?x ?= ?y)%Z] |- _ =>
             destruct (Z.compare_spec x y); try discriminate H
         | H : context [PosDef.Pos.compare_cont Eq ?x ?y] |- _ =>
             change (PosDef.Pos.compare_cont Eq x y) with (Pos.compare x y) in H;
             destruct (Pos.compare_spec x y); try discriminate H
         | |- context [(?x ?= ?y)%Z] =>
             destruct (Z.compare_spec x y)
         | |- context [PosDef.Pos.compare_cont Eq ?x ?y] =>
             change (PosDef.Pos.compare_cont Eq x y) with (Pos.compare x y);
             destruct (Pos.compare_spec x y)
         end;
  subst; try reflexivity; try discriminate; try lia.

Lemma SFcompare_lt_trans (a b c : spec_float) :
  cmp_lt a b -> cmp_lt b c -> cmp_lt a c.
Proof.
  unfold cmp_lt.
  destruct a as [[]|[]| |[] m1 e1], b as [[]|[]| |[] m2 e2],
           c as [[]|[]| |[] m3 e3];
    cbn; intros H1 H2; try discriminate; try reflexivity;
    f_equal; cmp_cases.
Qed.

Lemma SFcompare_eq_lt_trans (a b c : spec_float) :
  cmp_eq a b -> cmp_lt b c -> cmp_lt a c.
Proof.
  unfold cmp_lt, cmp_eq.
  destruct a as [[]|[]| |[] m1 e1], b as [[]|[]| |[] m2 e2],
           c as [[]|[]| |[] m3 e3];
    cbn; intros H1 H2; try discriminate; try reflexivity;
    f_equal; cmp_cases.
Qed.

Lemma SFcompare_lt_eq_trans (a b c : spec_float) :
  cmp_lt a b -> cmp_eq b c -> cmp_lt a c.
Proof.
  unfold cmp_lt, cmp_eq.
  destruct a as [[]|[]| |[] m1 e1], b as [[]|[]| |[] m2 e2],
           c as [[]|[]| |[] m3 e3];
    cbn; intros H1 H2; try discriminate; try reflexivity;
    f_equal; cmp_cases.
Qed.

Lemma SFcompare_lt_not_eq (a b : spec_float) :
  cmp_lt a b -> SFcompare b a = Some Gt.
Proof.
  unfold cmp_lt.
  destruct a as [[]|[]| |[] m1 e1], b as [[]|[]| |[] m2 e2];
    cbn; intros H1; try discriminate; try reflexivity;
    f_equal; cmp_cases.
Qed.

(** The comparisons of [float], on numbers. *)

Lemma float_eqb_refl (a : float) : is_number a -> (a =? a)%float = true.
Proof.
  intros H. rewrite eqb_spec. unfold SFeqb.
  now rewrite (SFcompare_refl _ H).
Qed.

Lemma float_ltb_false_leb (a b : float) :
  is_number a -> is_number b ->
  (a <? b)%float = false -> (b <=? a)%float = true.
Proof.
  intros Ha Hb. rewrite ltb_spec, leb_spec. unfold SFltb, SFleb.
  destruct (SFcompare_total _ _ Ha Hb) as [H|[H|H]];
    unfold cmp_lt, cmp_eq in H.
  - rewrite H. discriminate.
  - intros _. destruct (SFcompare_total _ _ Hb Ha) as [H'|[H'|H']];
      unfold cmp_lt, cmp_eq in H'; try (rewrite H'; reflexivity).
    congruence.
  - intros _. now rewrite H.
Qed.

Lemma float_ltb_not_eqb (a b : float) :
  (a <? b)%float = true -> (b =? a)%float = false.
Proof.
  rewrite ltb_spec, eqb_spec. unfold SFltb, SFeqb. intros H.
  destruct (SFcompare (Prim2SF a) (Prim2SF b)) as [[]|] eqn:E;
    try discriminate H.
  now rewrite (SFcompare_lt_not_eq _ _ E).
Qed.

Lemma float_ltb_trans (a b c : float) :
  (a <? b)%float = true -> (b <? c)%float = true -> (a <? c)%float = true.
Proof.
  rewrite !ltb_spec. unfold SFltb. intros H1 H2.
  destruct (SFcompare (Prim2SF a) (Prim2SF b)) as [[]|] eqn:E1;
    try discriminate H1.
  destruct (SFcompare (Prim2SF b) (Prim2SF c)) as [[]|] eqn:E2;
    try discriminate H2.
  now rewrite (SFcompare_lt_trans _ _ _ E1 E2).
Qed.

Lemma float_leb_ltb_trans (a b c : float) :
  (a <=? b)%float = true -> (b <? c)%float = true -> (a <? c)%float = true.
Proof.
  rewrite leb_spec, !ltb_spec. unfold SFleb, SFltb. intros H1 H2.
  destruct (SFcompare (Prim2SF b) (Prim2SF c)) as [[]|] eqn:E2;
    try discriminate H2.
  destruct (SFcompare (Prim2SF a) (Prim2SF b)) as [[]|] eqn:E1;
    try discriminate H1.
  - now rewrite (SFcompare_eq_lt_trans _ _ _ E1 E2).
  - now rewrite (SFcompare_lt_trans _ _ _ E1 E2).
Qed.

End FloatFacts.

(* ===================================================================== *)
(** * Facts on the matcher                                                 *)
(* ===================================================================== *)

Section RegexFacts.
Import Statements.
Import Str Re ReSpec.

(** Every match that [rmatch] hands to its continuation is a [run]. *)
Lemma rmatch_sound (r : regex) :
  forall (A : Type) (st : mstate) (k : mstate -> option A) (a : A),
    rmatch r st k = Some a ->
    exists st', run r st st' /\ k st' = Some a.
Proof.
  induction r as [|p| |r1 IH1 r2 IH2|g r1 IH1|r1 IH1|n r1 IH1];
    intros A st k a H; cbn [rmatch] in H.
  - exists st. split; [reflexivity|exact H].
  - destruct (rest st) as [|c tl] eqn:E; [discriminate|].
    destruct (p c) eqn:P; [|discriminate].
    eexists. split; [|exact H]. cbn [run prev rest caps].
    exists c. repeat split; assumption.
  - exists st. split; [reflexivity|].
    destruct (prev st) as [c|]; [|exact H].
    destruct (is_newline c); [exact H|discriminate].
  - destruct (IH1 _ _ _ _ H) as (mid & R1 & H2).
    destruct (IH2 _ _ _ _ H2) as (st' & R2 & K).
    exists st'. split; [|exact K]. exists mid. split; assumption.
  - revert H. generalize (S (List.length (rest st))). intros fuel.
    revert st. induction fuel as [|fuel IHf]; intros st H;
      cbn [star_loop] in H.
    + exists st. split; [apply star_refl|exact H].
    + destruct g.
      * destruct (rmatch r1 st (star_loop (rmatch r1) true k fuel))
          as [a0|] eqn:E.
        -- injection H as ->.
           destruct (IH1 _ _ _ _ E) as (mid & R1 & L).
           destruct (IHf _ L) as (st' & R & K).
           exists st'. split; [|exact K]. eapply star_step; eassumption.
        -- exists st. split; [apply star_refl|exact H].
      * destruct (k st) as [a0|] eqn:E.
        -- injection H as ->. exists st. split; [apply star_refl|exact E].
        -- destruct (IH1 _ _ _ _ H) as (mid & R1 & L).
           destruct (IHf _ L) as (st' & R & K).
           exists st'. split; [|exact K]. eapply star_step; eassumption.
  - destruct (rmatch r1 st k) as [a0|] eqn:E.
    + injection H as ->. destruct (IH1 _ _ _ _ E) as (st' & R & K).
      exists st'. split; [right; exact R|exact K].
    + exists st. split; [left; reflexivity|exact H].
  - destruct (IH1 _ _ _ _ H) as (st1 & R & K).
    eexists. split; [|exact K]. exists st1. split; [exact R|reflexivity].
Qed.

(** A run reads a prefix of what is left. *)
Lemma run_reads (r : regex) :
  forall st st', run r st st' -> exists w, rest st = w ++ rest st'.
Proof.
  induction r as [|p| |r1 IH1 r2 IH2|g r1 IH1|r1 IH1|n r1 IH1];
    intros st st' H; cbn [run] in H.
  - subst. now exists [].
  - destruct H as (c & _ & E & _). exists [c]. exact E.
  - subst. now exists [].
  - destruct H as (mid & H1 & H2).
    destruct (IH1 _ _ H1) as (w1 & E1), (IH2 _ _ H2) as (w2 & E2).
    exists (w1 ++ w2). now rewrite E1, E2, app_assoc.
  - induction H as [st|st mid st' H1 _ IH]; [now exists []|].
    destruct (IH1 _ _ H1) as (w1 & E1), IH as (w2 & E2).
    exists (w1 ++ w2). now rewrite E1, E2, app_assoc.
  - destruct H as [->|H]; [now exists []|]. now apply IH1.
  - destruct H as (st1 & H1 & ->). cbn [rest]. now apply IH1.
Qed.

(** A run of a pattern without groups captures nothing. *)
Lemma run_no_groups (r : regex) :
  no_groups r = true -> forall st st', run r st st' -> caps st' = caps st.
Proof.
  induction r as [|p| |r1 IH1 r2 IH2|g r1 IH1|r1 IH1|n r1 IH1];
    cbn [no_groups]; intros N st st' H; cbn [run] in H.
  - now subst.
  - now destruct H as (c & _ & _ & _ & E).
  - now subst.
  - apply andb_prop in N. destruct N as [N1 N2].
    destruct H as (mid & H1 & H2).
    now rewrite (IH2 N2 _ _ H2), (IH1 N1 _ _ H1).
  - induction H as [st|st mid st' H1 _ IH]; [reflexivity|].
    now rewrite IH, (IH1 N _ _ H1).
  - destruct H as [->|H]; [reflexivity|]. now apply IH1.
  - discriminate N.
Qed.

Lemma run_seq_no_groups (r1 r2 : regex) (st st' : mstate) :
  no_groups r1 = true -> run (Seq r1 r2) st st' ->
  exists mid, caps mid = caps st /\ run r2 mid st'.
Proof.
  intros N (mid & H1 & H2). exists mid. split; [|exact H2].
  now apply (run_no_groups r1 N).
Qed.

(** The text of a group is what its pattern read. *)
Lemma run_group (n : nat) (r : regex) (st st' : mstate) :
  run (Group n r) st st' ->
  exists st1 w, run r st st1 /\ rest st = w ++ rest st1 /\
                rest st' = rest st1 /\ caps st' = (n, w) :: caps st1.
Proof.
  intros (st1 & H1 & ->). destruct (run_reads _ _ _ H1) as (w & E).
  exists st1, w. repeat split; try assumption.
  cbn [caps]. rewrite E, length_app.
  replace (List.length w + List.length (rest st1) - List.length (rest st1))%nat
    with (List.length w) by lia.
  now rewrite firstn_app, Nat.sub_diag, firstn_all, app_nil_r.
Qed.

(** Runs of one character class. *)
Lemma run_star_chr (g : bool) (p : ascii -> bool) (st st' : mstate) :
  run (Star g (Chr p)) st st' ->
  exists w, forallb p w = true /\ rest st = w ++ rest st' /\
            caps st' = caps st.
Proof.
  cbn [run]. induction 1 as [st|st mid st' H1 _ IH].
  - now exists [].
  - destruct H1 as (c & P & E & _ & C), IH as (w & F & E' & C').
    exists (c :: w). cbn [forallb app]. rewrite P, F, E, E', C', C. auto.
Qed.

Lemma run_plus_chr (p : ascii -> bool) (st st' : mstate) :
  run (plus (Chr p)) st st' ->
  exists w, w <> [] /\ forallb p w = true /\ rest st = w ++ rest st' /\
            caps st' = caps st.
Proof.
  intros (mid & (c & P & E & _ & C) & H2).
  destruct (run_star_chr _ _ _ _ H2) as (w & F & E' & C').
  exists (c :: w). cbn [forallb app]. rewrite P, F, E, E', C', C.
  repeat split. discriminate.
Qed.

Lemma run_digits (st st' : mstate) :
  run (plus digit) st st' ->
  exists w, digits_text w /\ rest st = w ++ rest st' /\ caps st' = caps st.
Proof.
  intros H. destruct (run_plus_chr _ _ _ H) as (w & N & F & E & C).
  exists w. now repeat split.
Qed.

Lemma run_decimal (st st' : mstate) :
  run decimal st st' ->
  exists w, decimal_text w /\ rest st = w ++ rest st' /\ caps st' = caps st.
Proof.
  unfold decimal. intros (m1 & Hs & m2 & Hi & m3 & Hd & Hf).
  destruct (run_digits _ _ Hi) as (wi & Di & Ei & Ci).
  destruct (run_digits _ _ Hf) as (wf & Df & Ef & Cf).
  unfold lit in Hd. cbn [chars list_ascii_of_string lit_chars run] in Hd.
  destruct Hd as (m4 & (c & P & Ed & _ & Cd) & ->).
  unfold is_char in P. apply Ascii.eqb_eq in P. subst c.
  assert (Hsgn : exists sgn, (sgn = [] \/ sgn = ["+"%char] \/ sgn = ["-"%char])
                             /\ rest st = sgn ++ rest m1 /\ caps m1 = caps st).
  { cbn [run] in Hs. destruct Hs as [->|Hs].
    - exists []. auto.
    - unfold sign in Hs. cbn [run] in Hs.
      destruct Hs as (c & P & E & _ & C).
      exists [c]. split; [|split; [exact E|exact C]].
      apply orb_prop in P. destruct P as [P|P]; apply Ascii.eqb_eq in P;
        subst c; auto. }
  destruct Hsgn as (sgn & Sg & Es & Cs).
  exists (sgn ++ wi ++ "."%char :: wf). split; [|split].
  - exists sgn, wi, wf. auto.
  - rewrite Es, Ei, Ed, Ef. now rewrite <- !app_assoc.
  - now rewrite Cf, Cd, Ci, Cs.
Qed.

Lemma match_here_run (r : regex) (before : option ascii) (s : list ascii)
  (st : mstate) :
  match_here r before s = Some st -> run_from_start r st.
Proof.
  unfold match_here. intros H.
  destruct (rmatch_sound _ _ _ _ _ H) as (st' & R & K).
  injection K as ->. now exists before, s.
Qed.

Lemma search_run (r : regex) (s : list ascii) (st : mstate) :
  search r s = Some st -> run_from_start r st.
Proof.
  unfold search. generalize (@None ascii) as before.
  induction s as [|c tl IH]; intros before H; cbn [search_from] in H.
  - destruct (match_here r before []) eqn:E; [|discriminate].
    injection H as ->. eapply match_here_run; eassumption.
  - destruct (match_here r before (c :: tl)) eqn:E.
    + injection H as ->. eapply match_here_run; eassumption.
    + eapply IH; eassumption.
Qed.

Lemma finditer_run (r : regex) (s : list ascii) :
  Forall (run_from_start r) (finditer r s).
Proof.
  unfold finditer. generalize (S (List.length s)) as fuel.
  generalize (@None ascii) as before. intros before fuel.
  revert before s.
  induction fuel as [|fuel IH]; intros before s; cbn [finditer_from];
    [constructor|].
  destruct (match_here r before s) as [st|] eqn:E.
  - assert (R : run_from_start r st) by (eapply match_here_run; eassumption).
    destruct (List.length (rest st) <? List.length s)%nat.
    + constructor; [exact R|apply IH].
    + constructor; [exact R|]. destruct s; [constructor|apply IH].
  - destruct s; [constructor|apply IH].
Qed.

(** ** The matcher finds a match whenever there is one *)

Lemma run_consumes (r : regex) :
  consuming r = true ->
  forall st st', run r st st' ->
    (List.length (rest st') < List.length (rest st))%nat.
Proof.
  induction r as [|p| |r1 IH1 r2 IH2|g r1 IH1|r1 IH1|n r1 IH1];
    cbn [consuming]; intros C st st' H; try discriminate C; cbn [run] in H.
  - destruct H as (c & _ & E & _). rewrite E. cbn [List.length]. lia.
  - destruct H as (mid & H1 & H2).
    destruct (run_reads _ _ _ H1) as (w1 & E1).
    destruct (run_reads _ _ _ H2) as (w2 & E2).
    assert (L1 : List.length (rest st)
                 = (List.length w1 + List.length (rest mid))%nat)
      by (rewrite E1; apply length_app).
    assert (L2 : List.length (rest mid)
                 = (List.length w2 + List.length (rest st'))%nat)
      by (rewrite E2; apply length_app).
    apply orb_prop in C. destruct C as [C|C].
    + specialize (IH1 C _ _ H1). lia.
    + specialize (IH2 C _ _ H2). lia.
  - destruct H as (st1 & H1 & ->). cbn [rest]. now apply IH1.
Qed.

Lemma star_loop_complete {A : Type} (r1 : regex) (g : bool)
  (k : mstate -> option A) :
  consuming r1 = true ->
  (forall st st' (k' : mstate -> option A),
      run r1 st st' -> k' st' <> None -> rmatch r1 st k' <> None) ->
  forall st st', star (run r1) st st' -> k st' <> None ->
  forall fuel, (List.length (rest st) < fuel)%nat ->
               star_loop (rmatch r1) g k fuel st <> None.
Proof.
  intros C IH st st' S. induction S as [st|st mid st' H1 _ IHs];
    intros K fuel F; (destruct fuel as [|fuel]; [lia|]); cbn [star_loop].
  - destruct g.
    + destruct (rmatch r1 st (star_loop (rmatch r1) true k fuel));
        [discriminate|exact K].
    + destruct (k st); [discriminate|now contradiction K].
  - assert (B : rmatch r1 st (star_loop (rmatch r1) g k fuel) <> None).
    { apply (IH st mid); [exact H1|]. apply IHs; [exact K|].
      pose proof (run_consumes r1 C _ _ H1). lia. }
    destruct g.
    + destruct (rmatch r1 st (star_loop (rmatch r1) true k fuel));
        [discriminate|now contradiction B].
    + destruct (k st); [discriminate|exact B].
Qed.

(** Completeness of the matcher on the plain patterns: when the pattern
    has a run from a state to one that the continuation accepts, the
    matcher returns a result. *)
Lemma rmatch_complete {A : Type} (r : regex) :
  plain r = true ->
  forall st st' (k : mstate -> option A),
    run r st st' -> k st' <> None -> rmatch r st k <> None.
Proof.
  induction r as [|p| |r1 IH1 r2 IH2|g r1 IH1|r1 IH1|n r1 IH1];
    cbn [plain]; intros P st st' k H K; cbn [run] in H; cbn [rmatch].
  - subst st'. exact K.
  - destruct H as (c & Pc & E & Pv & Cp). rewrite E, Pc.
    destruct st' as [pv rs cs]. cbn [prev rest caps] in *. now subst.
  - discriminate P.
  - apply andb_prop in P. destruct P as [P1 P2].
    destruct H as (mid & H1 & H2).
    apply (IH1 P1 st mid); [exact H1|]. now apply (IH2 P2 mid st').
  - apply andb_prop in P. destruct P as [C P1].
    apply (star_loop_complete r1 g k C (IH1 P1) st st' H K). lia.
  - destruct H as [->|H].
    + destruct (rmatch r1 st k); [discriminate|exact K].
    + pose proof (IH1 P _ _ _ H K) as B.
      destruct (rmatch r1 st k); [discriminate|now contradiction B].
  - destruct H as (st1 & H1 & ->). now apply (IH1 P st st1).
Qed.

(** [search] returns a match that starts somewhere in the text, and for a
    plain pattern it returns one whenever the pattern occurs. *)
Lemma search_from_found (r : regex) (s : list ascii) :
  forall before st,
    search_from r before s = Some st ->
    exists pre suf,
      s = pre ++ suf /\
      run r {| prev := char_before before pre; rest := suf; caps := [] |} st.
Proof.
  assert (Here : forall before t st,
             match_here r before t = Some st ->
             run r {| prev := before; rest := t; caps := [] |} st).
  { intros before t st H. unfold match_here in H.
    destruct (rmatch_sound _ _ _ _ _ H) as (st' & R & K).
    now injection K as ->. }
  induction s as [|c tl IH]; intros before st H; cbn [search_from] in H.
  - destruct (match_here r before []) eqn:E; [|discriminate].
    injection H as ->. exists [], []. split; [reflexivity|now apply Here].
  - destruct (match_here r before (c :: tl)) eqn:E.
    + injection H as ->. exists [], (c :: tl).
      split; [reflexivity|now apply Here].
    + destruct (IH _ _ H) as (pre & suf & -> & R).
      exists (c :: pre), suf. split; [reflexivity|exact R].
Qed.

Lemma search_from_complete (r : regex) :
  plain r = true ->
  forall pre before suf st',
    run r {| prev := char_before before pre; rest := suf; caps := [] |} st' ->
    search_from r before (pre ++ suf) <> None.
Proof.
  intros P.
  assert (Here : forall before t st',
             run r {| prev := before; rest := t; caps := [] |} st' ->
             match_here r before t <> None).
  { intros before t st' R. unfold match_here.
    apply (rmatch_complete r P _ st'); [exact R|discriminate]. }
  induction pre as [|c pre IH]; intros before suf st' R; cbn [app char_before] in *.
  - pose proof (Here _ _ _ R) as M.
    destruct suf; cbn [search_from];
      destruct (match_here r before _); try discriminate; now contradiction M.
  - cbn [search_from].
    destruct (match_here r before (c :: pre ++ suf)); [discriminate|].
    eapply IH; eassumption.
Qed.

Lemma search_occurs (r : regex) (text : list ascii) :
  plain r = true -> (occurs r text <-> search r text <> None).
Proof.
  intros P. unfold occurs, search. split.
  - intros (pre & suf & st' & -> & R). eapply search_from_complete; eassumption.
  - intros N. destruct (search_from r None text) as [st|] eqn:E;
      [|now contradiction N].
    destruct (search_from_found _ _ _ _ E) as (pre & suf & Es & R).
    now exists pre, suf, st.
Qed.

(** ** Conversions of the captured texts *)

Lemma digit_is_not (a c : ascii) :
  is_digit a = false -> is_digit c = true -> Ascii.eqb c a = false.
Proof.
  intros Ha Hc. destruct (Ascii.eqb_spec c a) as [->|]; congruence.
Qed.

Lemma digit_not_int_space (c : ascii) :
  is_digit c = true -> is_int_space c = false.
Proof.
  unfold is_digit, is_int_space. intros H.
  apply andb_prop in H. destruct H as [H1 H2].
  apply Nat.leb_le in H1.
  replace (code c <=? 13)%nat with false by (symmetry; apply Nat.leb_gt; lia).
  replace (code c =? 32)%nat with false by (symmetry; apply Nat.eqb_neq; lia).
  now rewrite andb_false_r.
Qed.

Lemma int_lstrip_digits (w : list ascii) :
  forallb is_digit w = true -> int_lstrip w = w.
Proof.
  destruct w as [|c w]; [reflexivity|]. cbn [forallb int_lstrip]. intros H.
  apply andb_prop in H. destruct H as [H _].
  now rewrite (digit_not_int_space _ H).
Qed.

Lemma int_strip_digits (w : list ascii) :
  forallb is_digit w = true -> int_strip w = w.
Proof.
  intros H. unfold int_strip. rewrite (int_lstrip_digits w H).
  rewrite int_lstrip_digits; [apply rev_involutive|].
  rewrite forallb_forall in *. intros c Hc. apply H. now apply in_rev.
Qed.

Lemma int_digits_digits (ds : list ascii) :
  forall acc b, forallb is_digit ds = true -> (ds <> [] \/ b = true) ->
    int_digits ds b acc = Some (rev acc ++ ds).
Proof.
  induction ds as [|d ds IH]; intros acc b F N; cbn [int_digits].
  - destruct N as [N| ->]; [contradiction|]. now rewrite app_nil_r.
  - cbn [forallb] in F. apply andb_prop in F. destruct F as [Fd F].
    rewrite Fd, (IH (d :: acc) true F (or_intror eq_refl)).
    cbn [rev]. now rewrite <- app_assoc.
Qed.

(** [int] skips the white space of its own set: a file separator (code
    28), which [str.strip] removes, makes it raise. *)
Example py_int_white_space :
  py_int (chars " 5 ") = Ok 5 /\
  py_int [ascii_of_nat 9; "-"%char; "7"%char; ascii_of_nat 10] = Ok (-7) /\
  py_int (chars "1_0") = Ok 10 /\
  py_int [ascii_of_nat 28; "5"%char] = Raise ValueError /\
  py_int ["5"%char; ascii_of_nat 31] = Raise ValueError.
Proof. repeat split. Qed.

(** [int] reads every non-empty run of digits. *)
Lemma py_int_digits (w : list ascii) :
  digits_text w -> py_int w = Ok (digits_value w).
Proof.
  intros [N F]. unfold py_int. rewrite (int_strip_digits w F).
  destruct w as [|c w]; [contradiction|].
  pose proof F as F'. cbn [forallb] in F'. apply andb_prop in F'.
  destruct F' as [Fc _].
  rewrite (digit_is_not "-"%char c eq_refl Fc).
  rewrite (digit_is_not "+"%char c eq_refl Fc).
  rewrite (int_digits_digits _ [] false F (or_introl N)). reflexivity.
Qed.

Lemma span_digits_app (ds r : list ascii) :
  forallb is_digit ds = true ->
  match r with [] => True | c :: _ => is_digit c = false end ->
  span_digits (ds ++ r) = (ds, r).
Proof.
  intros F R. induction ds as [|d ds IH]; cbn [app span_digits].
  - destruct r as [|c r]; [reflexivity|]. cbn [span_digits]. now rewrite R.
  - cbn [forallb] in F. apply andb_prop in F. destruct F as [Fd F].
    now rewrite Fd, (IH F).
Qed.

(** [float] reads every signed decimal, and the result is a number. *)
Lemma py_float_decimal (w : list ascii) :
  decimal_text w -> exists f, py_float w = Ok f /\ is_number f.
Proof.
  intros (sgn & ip & fp & -> & Sg & [Ni Fi] & [Nf Ff]).
  assert (Body : forall neg,
    (let '(int_part, r) := span_digits (ip ++ "."%char :: fp) in
     match int_part, r with
     | _ :: _, dotc :: frac =>
         let '(frac_part, r') := span_digits frac in
         match frac_part, r' with
         | _ :: _, [] =>
             if Ascii.eqb dotc "."%char then
               Ok (float_of_decimal neg (digits_value (int_part ++ frac_part))
                                    (List.length frac_part))
             else Raise ValueError
         | _, _ => Raise ValueError
         end
     | _, _ => Raise ValueError
     end)
    = Ok (float_of_decimal neg (digits_value (ip ++ fp)) (List.length fp))).
  { intros neg. rewrite (span_digits_app ip ("."%char :: fp) Fi eq_refl).
    destruct ip as [|i ip]; [contradiction|].
    rewrite <- (app_nil_r fp) at 1. rewrite (span_digits_app fp [] Ff I).
    destruct fp as [|f fp]; [contradiction|]. reflexivity. }
  unfold py_float.
  destruct Sg as [->|[->| ->]]; cbn [app].
  - destruct ip as [|c ip]; [contradiction|].
    pose proof Fi as F'. cbn [forallb] in F'. apply andb_prop in F'.
    destruct F' as [Fc _]. cbn [app].
    rewrite (digit_is_not "-"%char c eq_refl Fc).
    rewrite (digit_is_not "+"%char c eq_refl Fc).
    change (c :: ip ++ "."%char :: fp) with ((c :: ip) ++ "."%char :: fp).
    rewrite Body. eexists. split; [reflexivity|apply float_of_decimal_number].
  - change (Ascii.eqb "+"%char "-"%char) with false.
    change (Ascii.eqb "+"%char "+"%char) with true. cbv iota.
    rewrite Body. eexists. split; [reflexivity|apply float_of_decimal_number].
  - change (Ascii.eqb "-"%char "-"%char) with true. cbv iota.
    rewrite Body. eexists. split; [reflexivity|apply float_of_decimal_number].
Qed.

(** ** The groups of the patterns of the server *)

Lemma run_group_digits (n : nat) (st st' : mstate) :
  run (Group n (plus digit)) st st' ->
  exists w, digits_text w /\ caps st' = (n, w) :: caps st.
Proof.
  intros H. apply run_group in H. destruct H as (st1 & w & R & E & _ & C).
  destruct (run_digits _ _ R) as (w' & D & E' & C').
  rewrite E' in E. apply app_inv_tail in E. subst w'.
  exists w. split; [exact D|]. now rewrite C, C'.
Qed.

Lemma run_group_decimal (n : nat) (st st' : mstate) :
  run (Group n decimal) st st' ->
  exists w, decimal_text w /\ caps st' = (n, w) :: caps st.
Proof.
  intros H. apply run_group in H. destruct H as (st1 & w & R & E & _ & C).
  destruct (run_decimal _ _ R) as (w' & D & E' & C').
  rewrite E' in E. apply app_inv_tail in E. subst w'.
  exists w. split; [exact D|]. now rewrite C, C'.
Qed.

(** A pattern that ends with its only group, a decimal: the three patterns
    of [_parse_cube]. *)
Lemma cube_pattern_group (head : regex) (st : mstate) :
  no_groups head = true ->
  run_from_start (Seq head (Group 1 decimal)) st ->
  decimal_text (group 1 (caps st)).
Proof.
  intros N (before & s & H).
  apply run_seq_no_groups in H; [|exact N].
  destruct H as (mid & C & H).
  apply run_group_decimal in H. destruct H as (w & D & Cw).
  rewrite Cw. exact D.
Qed.

End RegexFacts.

(* ===================================================================== *)
(** * Theorems: dice-sum splitting                                         *)
(* ===================================================================== *)

Section SplitFacts.
Import Statements.
Import Split.

Lemma post_process_app (l1 l2 : list MoveResponse) :
  post_process (l1 ++ l2) = post_process l1 ++ post_process l2.
Proof. apply flat_map_app. Qed.

Lemma split_move_compound (m : MoveResponse) :
  7 <= die_used m <= 12 -> is_bear_off m = false ->
  split_move m = halves m (die_used m - 6).
Proof.
  intros Hd Hb. unfold split_move, halves. rewrite Hb.
  assert (C : die_used m = 7 \/ die_used m = 8 \/ die_used m = 9 \/
              die_used m = 10 \/ die_used m = 11 \/ die_used m = 12) by lia.
  destruct C as [E|[E|[E|[E|[E|E]]]]]; rewrite E; reflexivity.
Qed.

Lemma split_move_unsplittable (m : MoveResponse) :
  12 < die_used m -> split_move m = [m].
Proof.
  intros Hd. unfold split_move.
  destruct ((die_used m >? 6) && negb (is_bear_off m)); [|reflexivity].
  replace (die_used m <=? 12) with false; [reflexivity|].
  symmetry. apply Z.leb_gt. exact Hd.
Qed.

(** What [split_move] puts in the place of a move. *)
Lemma split_move_replacement (m : MoveResponse) :
  replacement m (split_move m).
Proof.
  unfold replacement. split; [|split].
  - intros Hd Hb.
    exists (die_used m - 6), 6,
      (if to_point m >? from_point m then from_point m + (die_used m - 6)
       else from_point m - (die_used m - 6)).
    pose proof (split_move_compound m Hd Hb) as E. unfold halves in E.
    replace (die_used m - (die_used m - 6)) with 6 in E by lia.
    repeat apply conj; try lia; try exact E; reflexivity.
  - apply split_move_unsplittable.
  - intros H. unfold split_move. destruct H as [H|H].
    + replace (die_used m >? 6) with false; [reflexivity|].
      symmetry. rewrite Z.gtb_ltb. apply Z.ltb_ge. exact H.
    + rewrite H. now rewrite andb_false_r.
Qed.

Lemma post_process_pieces (raw : list MoveResponse) :
  Forall2 replacement raw (map split_move raw) /\
  post_process raw = List.concat (map split_move raw).
Proof.
  split.
  - induction raw as [|m raw IH]; cbn [map]; constructor;
      [apply split_move_replacement|exact IH].
  - unfold post_process. apply flat_map_concat_map.
Qed.

End SplitFacts.

(* ===================================================================== *)
(** * Theorems: the black-perspective transform                            *)
(* ===================================================================== *)

Section TransformFacts.
Import Statements.
Import Transform.

(** Negation of a binary64 float is an involution (NaN included). *)
Lemma float_opp_involutive (x : float) : (- (- x))%float = x.
Proof.
  rewrite <- (SF2Prim_Prim2SF (- - x)), !opp_spec.
  rewrite <- (SF2Prim_Prim2SF x) at 2. f_equal.
  destruct (Prim2SF x) as [[]|[]| |[] ? ?]; reflexivity.
Qed.

Lemma transform_move_twice (m : MoveResponse) :
  transform_move (transform_move m) = renormalised_move m.
Proof.
  destruct m as [f t d h b]. unfold transform_move, renormalised_move.
  cbn [from_point to_point die_used is_hit is_bear_off].
  f_equal.
  - destruct (Z.eqb_spec f 0) as [->|Hf]; [reflexivity|].
    destruct (Z.eqb_spec (25 - f) 0); lia.
  - destruct b.
    + destruct (Z.eqb_spec f 0) as [->|Hf]; [reflexivity|].
      destruct (Z.eqb_spec (25 - f) 0); lia.
    + lia.
Qed.

Lemma transform_play_twice (p : PlayResponse) :
  transform_play (transform_play p) = renormalised_play p.
Proof.
  unfold transform_play, renormalised_play. cbn [moves].
  rewrite map_map.
  rewrite (map_ext _ _ transform_move_twice). reflexivity.
Qed.

(** What the transform does to one move, field by field. *)
Lemma transform_move_fields (m : MoveResponse) :
  (from_point m = 0 -> from_point (transform_move m) = 25) /\
  (from_point m <> 0 -> from_point (transform_move m) = 25 - from_point m) /\
  (is_bear_off m = true ->
   to_point (transform_move m) = from_point (transform_move m) + die_used m) /\
  (is_bear_off m = false -> to_point (transform_move m) = 25 - to_point m) /\
  die_used (transform_move m) = die_used m /\
  is_hit (transform_move m) = is_hit m /\
  is_bear_off (transform_move m) = is_bear_off m.
Proof.
  destruct m as [f t d h b]. unfold transform_move.
  cbn [from_point to_point die_used is_hit is_bear_off].
  repeat apply conj; try reflexivity.
  - now intros ->.
  - intros Hf. destruct (Z.eqb_spec f 0); [contradiction|reflexivity].
  - now intros ->.
  - now intros ->.
Qed.

(** What the transform does to a result: the parts of C3 that hold.  Every
    move is mapped by [transform_move], every equity is negated, every win
    probability [p] becomes [1.0 - p], ranks and equity differences are
    kept, and each notation is written again from the transformed moves. *)
Lemma transform_for_black_fields (r : EvaluateResponse) :
  let r' := _transform_for_black r in
  moves (best_play r') = map transform_move (moves (best_play r)) /\
  notation (best_play r') = join " " (map move_notation (moves (best_play r'))) /\
  best_equity r' = (- best_equity r)%float /\
  List.length (all_plays r') = List.length (all_plays r) /\
  forall i rp, nth_error (all_plays r) i = Some rp ->
    exists rp', nth_error (all_plays r') i = Some rp' /\
      rank rp' = rank rp /\
      moves (play rp') = map transform_move (moves (play rp)) /\
      notation (play rp') = join " " (map move_notation (moves (play rp'))) /\
      equity rp' = (- equity rp)%float /\
      win_probability rp' = (1.0 - win_probability rp)%float /\
      equity_difference rp' = equity_difference rp.
Proof.
  cbn zeta. unfold _transform_for_black. cbn [best_play best_equity all_plays].
  repeat apply conj; try reflexivity.
  - apply length_map.
  - intros i rp Hi. exists (transform_ranked rp). split.
    + rewrite nth_error_map, Hi. reflexivity.
    + repeat apply conj; reflexivity.
Qed.

(** C3 (the code at the failing input). The notation is rebuilt from the
    transformed moves, in which the bar is point 25 and no longer 0: the
    test [from_point == 0] does not see it, and the notation of a bar move
    reads "25/3" instead of "bar/3". *)
Theorem transform_bar_move_notation :
  moves (transform_play bar_play)
  = [ {| from_point := 25; to_point := 3; die_used := 22;
         is_hit := false; is_bear_off := false |} ] /\
  notation (transform_play bar_play) = "25/3"%string.
Proof. split; reflexivity. Qed.

(** C8 (counterexample). Two applications do not give the original result
    back: the destination of the bear-off move 6/off was 0 and is now 12. *)
Lemma transform_twice_not_identity :
  map to_point (moves (best_play bear_off_result)) = [0] /\
  map to_point
    (moves (best_play (_transform_for_black (_transform_for_black bear_off_result))))
  = [12] /\
  _transform_for_black (_transform_for_black bear_off_result) <> bear_off_result.
Proof.
  split; [reflexivity|]. split; [reflexivity|].
  intros H.
  apply (f_equal (fun r => map to_point (moves (best_play r)))) in H.
  vm_compute in H. discriminate H.
Qed.

(** C8 (amended). Two applications give back the rank, the equity and the
    equity difference of every entry, the best equity, and of every move
    the from-point (25 - (25 - p) = p, and bar 0 -> 25 -> 0), the die and
    the flags, and the to-point of a move that is not a bear-off; the
    to-point of a bear-off becomes from-point + die; a win probability [p]
    becomes [1.0 - (1.0 - p)]; each notation is the one regenerated from
    the moves. *)
Theorem transform_twice (r : EvaluateResponse) :
  _transform_for_black (_transform_for_black r)
  = {| best_play := renormalised_play (best_play r);
       best_equity := best_equity r;
       all_plays := map renormalised_ranked (all_plays r) |}
  /\ (forall m, is_bear_off m = false -> renormalised_move m = m)
  /\ (forall m, is_bear_off m = true ->
        renormalised_move m
        = {| from_point := from_point m;
             to_point := from_point m + die_used m;
             die_used := die_used m; is_hit := is_hit m;
             is_bear_off := true |}).
Proof.
  split; [|split].
  - unfold _transform_for_black. cbn [best_play best_equity all_plays].
    f_equal.
    + apply transform_play_twice.
    + apply float_opp_involutive.
    + rewrite map_map. apply map_ext. intros rp.
      unfold transform_ranked, renormalised_ranked.
      cbn [rank play equity win_probability equity_difference].
      f_equal; [apply transform_play_twice | apply float_opp_involutive].
  - intros [f t d h b]. cbn [is_bear_off]. intros ->. reflexivity.
  - intros [f t d h b]. cbn [is_bear_off]. intros ->. reflexivity.
Qed.

End TransformFacts.

(* ===================================================================== *)
(** * Theorems: the parsers                                                *)
(* ===================================================================== *)

Section ParseFacts.
Import Statements.
Import Str Re ReSpec Parse.

Lemma tail_decimal_group (r : regex) :
  tail_decimal r ->
  forall st st', run r st st' ->
    exists w, decimal_text w /\ caps st' = (1%nat, w) :: caps st.
Proof.
  induction 1 as [|head r N _ IH]; intros st st' H.
  - now apply run_group_decimal.
  - apply run_seq_no_groups in H; [|exact N].
    destruct H as (mid & C & H). destruct (IH _ _ H) as (w & D & Cw).
    exists w. split; [exact D|]. now rewrite Cw, C.
Qed.

Lemma nd_pat_tail : tail_decimal nd_pat.
Proof. unfold nd_pat. repeat (constructor; try reflexivity). Qed.

Lemma dt_pat_tail : tail_decimal dt_pat.
Proof. unfold dt_pat. repeat (constructor; try reflexivity). Qed.

Lemma dp_pat_tail : tail_decimal dp_pat.
Proof. unfold dp_pat. repeat (constructor; try reflexivity). Qed.

(** The equity of a label: the float of the captured decimal, or the
    default; a number in both cases. *)
Lemma equity_or_number (pat : regex) (output : list ascii) (default : float) :
  tail_decimal pat -> is_number default ->
  exists f, equity_or (search pat output) default = Ok f /\ is_number f.
Proof.
  intros T Hd. destruct (search pat output) as [st|] eqn:E; cbn [equity_or].
  - apply search_run in E. destruct E as (before & s & R).
    destruct (tail_decimal_group _ T _ _ R) as (w & D & C).
    rewrite C. cbn [group Nat.eqb]. now apply py_float_decimal.
  - now exists default.
Qed.

(** The choice of [_parse_cube] among three numbers. *)
Lemma recommendation_choice (nd dt dp : float) :
  is_number nd -> is_number dt -> is_number dp ->
  let best := py_max3 nd dt dp in
  let rec := if (best =? nd)%float then "no_double"%string
             else if (best =? dt)%float then "double_take"%string
             else "double_pass"%string in
  (rec = "no_double"%string /\
   (dt <=? nd)%float = true /\ (dp <=? nd)%float = true) \/
  (rec = "double_take"%string /\
   (nd <? dt)%float = true /\ (dp <=? dt)%float = true) \/
  (rec = "double_pass"%string /\
   (nd <? dp)%float = true /\ (dt <? dp)%float = true).
Proof.
  intros Hnd Hdt Hdp. cbn zeta. unfold py_max3.
  destruct (nd <? dt)%float eqn:E1.
  - destruct (dt <? dp)%float eqn:E2.
    + right. right.
      pose proof (float_ltb_trans _ _ _ E1 E2) as E3.
      rewrite (float_ltb_not_eqb _ _ E3), (float_ltb_not_eqb _ _ E2). auto.
    + right. left.
      rewrite (float_ltb_not_eqb _ _ E1), (float_eqb_refl _ Hdt).
      repeat split. now apply float_ltb_false_leb.
  - pose proof (float_ltb_false_leb _ _ Hnd Hdt E1) as L1.
    destruct (nd <? dp)%float eqn:E2.
    + right. right.
      pose proof (float_leb_ltb_trans _ _ _ L1 E2) as E3.
      rewrite (float_ltb_not_eqb _ _ E2), (float_ltb_not_eqb _ _ E3). auto.
    + left. rewrite (float_eqb_refl _ Hnd).
      repeat split; [exact L1|]. now apply float_ltb_false_leb.
Qed.

(** The decimal of such a pattern is a piece of what the pattern read. *)
Lemma tail_decimal_reads (r : regex) :
  tail_decimal r ->
  forall st st', run r st st' ->
    exists a w, decimal_text w /\ caps st' = (1%nat, w) :: caps st /\
                rest st = a ++ w ++ rest st'.
Proof.
  induction 1 as [|head r N _ IH]; intros st st' H.
  - apply run_group in H. destruct H as (st1 & w & R & E & Er & C).
    destruct (run_decimal _ _ R) as (w' & D & E' & C').
    rewrite E' in E. apply app_inv_tail in E. subst w'.
    exists [], w. split; [exact D|]. split; [now rewrite C, C'|].
    cbn [app]. now rewrite Er, E'.
  - destruct H as (mid & H1 & H2).
    pose proof (run_no_groups head N _ _ H1) as C1.
    destruct (run_reads _ _ _ H1) as (w0 & E0).
    destruct (IH _ _ H2) as (a & w & D & C & E).
    exists (w0 ++ a), w. split; [exact D|]. split; [now rewrite C, C1|].
    now rewrite E0, E, <- app_assoc.
Qed.

Lemma nd_pat_plain : plain nd_pat = true.
Proof. reflexivity. Qed.

Lemma dt_pat_plain : plain dt_pat = true.
Proof. reflexivity. Qed.

Lemma dp_pat_plain : plain dp_pat = true.
Proof. reflexivity. Qed.

(** The equity of a label is read in the text whenever the pattern of the
    label occurs in it, and is the default otherwise. *)
Lemma equity_or_occurs (pat : regex) (output : list ascii) (default f : float) :
  tail_decimal pat -> plain pat = true ->
  equity_or (search pat output) default = Ok f ->
  (~ occurs pat output -> f = default) /\
  (occurs pat output ->
   exists a w b, output = a ++ w ++ b /\ decimal_text w /\ py_float w = Ok f).
Proof.
  intros T P E. pose proof (search_occurs pat output P) as O. split.
  - intros N. destruct (search pat output) as [st|] eqn:S.
    + exfalso. apply N, O. discriminate.
    + cbn [equity_or] in E. now injection E.
  - intros Oc. apply O in Oc.
    destruct (search pat output) as [st|] eqn:S; [|now contradiction Oc].
    cbn [equity_or] in E. unfold search in S.
    destruct (search_from_found _ _ _ _ S) as (pre & suf & Eo & R).
    destruct (tail_decimal_reads _ T _ _ R) as (a & w & D & C & Er).
    cbn [rest caps] in Er, C. rewrite C in E. cbn [group Nat.eqb] in E.
    exists (pre ++ a), w, (rest st). split; [|split; assumption].
    now rewrite Eo, Er, <- app_assoc.
Qed.

(** C6. For every output text [_parse_cube] returns; each of the three
    equities is the float of the decimal that follows its label, or the
    neutral value when the label is missing (0.0 for no-double and
    double-take, 1.0 for double-pass): when the pattern of a label occurs
    in the text, the search finds a match and the equity is the float of a
    signed decimal that stands in the text, and when it does not occur the
    equity is the neutral value; the recommendation is the option of the
    greatest equity, and among equal greatest equities the first of
    no_double, double_take, double_pass. *)
Theorem parse_cube_recommendation (output : list ascii) :
  exists resp,
    _parse_cube output = Ok resp /\
    (search nd_pat output = None -> no_double_equity resp = 0%float) /\
    (search dt_pat output = None -> double_take_equity resp = 0%float) /\
    (search dp_pat output = None -> double_pass_equity resp = 1%float) /\
    (forall m, search nd_pat output = Some m ->
       py_float (group 1 (caps m)) = Ok (no_double_equity resp)) /\
    (forall m, search dt_pat output = Some m ->
       py_float (group 1 (caps m)) = Ok (double_take_equity resp)) /\
    (forall m, search dp_pat output = Some m ->
       py_float (group 1 (caps m)) = Ok (double_pass_equity resp)) /\
    (occurs nd_pat output <-> search nd_pat output <> None) /\
    (occurs dt_pat output <-> search dt_pat output <> None) /\
    (occurs dp_pat output <-> search dp_pat output <> None) /\
    (~ occurs nd_pat output -> no_double_equity resp = 0%float) /\
    (~ occurs dt_pat output -> double_take_equity resp = 0%float) /\
    (~ occurs dp_pat output -> double_pass_equity resp = 1%float) /\
    (occurs nd_pat output ->
     exists a w b, output = a ++ w ++ b /\ decimal_text w /\
                   py_float w = Ok (no_double_equity resp)) /\
    (occurs dt_pat output ->
     exists a w b, output = a ++ w ++ b /\ decimal_text w /\
                   py_float w = Ok (double_take_equity resp)) /\
    (occurs dp_pat output ->
     exists a w b, output = a ++ w ++ b /\ decimal_text w /\
                   py_float w = Ok (double_pass_equity resp)) /\
    let nd := no_double_equity resp in
    let dt := double_take_equity resp in
    let dp := double_pass_equity resp in
    (recommendation resp = "no_double"%string /\
     (dt <=? nd)%float = true /\ (dp <=? nd)%float = true) \/
    (recommendation resp = "double_take"%string /\
     (nd <? dt)%float = true /\ (dp <=? dt)%float = true) \/
    (recommendation resp = "double_pass"%string /\
     (nd <? dp)%float = true /\ (dt <? dp)%float = true).
Proof.
  destruct (equity_or_number nd_pat output 0%float nd_pat_tail zero_number)
    as (nd & End & Nnd).
  destruct (equity_or_number dt_pat output 0%float dt_pat_tail zero_number)
    as (dt & Edt & Ndt).
  destruct (equity_or_number dp_pat output 1%float dp_pat_tail one_number)
    as (dp & Edp & Ndp).
  destruct (equity_or_occurs _ _ _ _ nd_pat_tail nd_pat_plain End) as [Dnd Ond].
  destruct (equity_or_occurs _ _ _ _ dt_pat_tail dt_pat_plain Edt) as [Ddt Odt].
  destruct (equity_or_occurs _ _ _ _ dp_pat_tail dp_pat_plain Edp) as [Ddp Odp].
  unfold _parse_cube. rewrite End, Edt, Edp. cbn [bind].
  eexists. split; [reflexivity|].
  cbn [no_double_equity double_take_equity double_pass_equity recommendation].
  split; [intros E; rewrite E in End; cbn in End; now injection End|].
  split; [intros E; rewrite E in Edt; cbn in Edt; now injection Edt|].
  split; [intros E; rewrite E in Edp; cbn in Edp; now injection Edp|].
  split; [intros m E; rewrite E in End; exact End|].
  split; [intros m E; rewrite E in Edt; exact Edt|].
  split; [intros m E; rewrite E in Edp; exact Edp|].
  split; [apply search_occurs, nd_pat_plain|].
  split; [apply search_occurs, dt_pat_plain|].
  split; [apply search_occurs, dp_pat_plain|].
  split; [exact Dnd|]. split; [exact Ddt|]. split; [exact Ddp|].
  split; [exact Ond|]. split; [exact Odt|]. split; [exact Odp|].
  apply recommendation_choice; assumption.
Qed.

(** A cube analysis of three lines: the equities are read on the lines of
    their labels (0.25, 0.1 and 1.0), and the greatest one is that of
    double-pass. *)
Lemma parse_cube_recommendation_witness :
  exists resp,
    _parse_cube cube_report = Ok resp /\
    no_double_equity resp = 0.25%float /\
    double_take_equity resp = 0.1%float /\
    double_pass_equity resp = 1%float /\
    recommendation resp = "double_pass"%string /\
    occurs nd_pat cube_report /\
    occurs dt_pat cube_report /\
    occurs dp_pat cube_report.
Proof.
  destruct (parse_cube_recommendation cube_report)
    as (resp & E & _ & _ & _ & _ & _ & _ & Ond & Odt & Odp & _).
  exists resp. split; [exact E|].
  assert (V : _parse_cube cube_report
              = Ok {| recommendation := "double_pass";
                      no_double_equity := 0.25%float;
                      double_take_equity := 0.1%float;
                      double_pass_equity := 1%float;
                      proper_cube_action := "Double Pass";
                      cube_win_probability := 0.5%float;
                      gammon_threat := 0%float |})
    by (vm_compute; reflexivity).
  rewrite V in E. injection E as <-.
  cbn [no_double_equity double_take_equity double_pass_equity recommendation].
  split; [reflexivity|]. split; [reflexivity|]. split; [reflexivity|].
  split; [reflexivity|].
  split; [apply Ond; vm_compute; discriminate|].
  split; [apply Odt; vm_compute; discriminate|].
  apply Odp; vm_compute; discriminate.
Defined.

(** ** _parse_notation on the notations used in the statements *)

Example parse_notation_bar :
  _parse_notation (chars "bar/22") = Ok bar_play.
Proof. reflexivity. Qed.

Example parse_notation_bear_off :
  _parse_notation (chars "6/off") = Ok bear_off_play.
Proof. reflexivity. Qed.

Example parse_notation_compound :
  _parse_notation (chars "1/10*")
  = Ok {| moves := Split.split_move move_1_10; notation := "1/10*" |}.
Proof. reflexivity. Qed.

Example parse_notation_repeat :
  _parse_notation (chars "20/24(3)")
  = Ok {| moves := repeat {| from_point := 20; to_point := 24; die_used := 4;
                             is_hit := false; is_bear_off := false |} 3;
          notation := "20/24(3)" |}.
Proof. reflexivity. Qed.

(** What [_parse_notation] returns: the notation, and the moves of the
    first loop after the post-processing. *)
Lemma parse_notation_returns (s : list ascii) (p : PlayResponse) :
  _parse_notation s = Ok p ->
  exists raw,
    parse_parts (split_ws s) [] = Ok raw /\
    p = {| moves := Split.post_process raw;
           notation := string_of_list_ascii s |}.
Proof.
  unfold _parse_notation.
  destruct (parse_parts (split_ws s) []) as [raw|e]; cbn [bind];
    [|discriminate].
  intros [= <-]. now exists raw.
Qed.

(** C2. Whenever [_parse_notation] returns, its moves are those of the
    first loop with every move replaced in place: a move with a die value
    in [7,12] that is not a bear-off by exactly two moves, whose die values
    lie in [1,6] and sum to the original, the first die being the smallest
    [d1] in [1,6] for which [total - d1] is in [1,6] too, the intermediate
    point being [from_point + d1] when [to_point > from_point] and
    [from_point - d1] otherwise, the first of the two not a hit and the
    second with the hit flag; a move with a die value above 12, and every
    other move, by itself. *)
Theorem split_compound_move (s : list ascii) (p : PlayResponse) :
  _parse_notation s = Ok p ->
  exists raw pieces,
    parse_parts (split_ws s) [] = Ok raw /\
    Forall2 replacement raw pieces /\
    moves p = List.concat pieces.
Proof.
  intros H. destruct (parse_notation_returns s p H) as (raw & E & ->).
  exists raw, (map Split.split_move raw). split; [exact E|].
  cbn [moves]. apply post_process_pieces.
Qed.

(** The notation "1/10*": the first loop builds one move with the die 9,
    and the parser returns the moves 1/4 with the die 3 and 4/10 with the
    die 6, the second one a hit. *)
Lemma split_compound_move_witness :
  parse_parts (split_ws (chars "1/10*")) [] = Ok [move_1_10] /\
  _parse_notation (chars "1/10*")
  = Ok {| moves :=
            [ {| from_point := 1; to_point := 4; die_used := 3;
                 is_hit := false; is_bear_off := false |};
              {| from_point := 4; to_point := 10; die_used := 6;
                 is_hit := true; is_bear_off := false |} ];
          notation := "1/10*" |} /\
  exists raw pieces,
    parse_parts (split_ws (chars "1/10*")) [] = Ok raw /\
    Forall2 replacement raw pieces /\
    [ {| from_point := 1; to_point := 4; die_used := 3;
         is_hit := false; is_bear_off := false |};
      {| from_point := 4; to_point := 10; die_used := 6;
         is_hit := true; is_bear_off := false |} ] = List.concat pieces.
Proof.
  split; [reflexivity|]. split; [reflexivity|].
  exact (split_compound_move (chars "1/10*")
           {| moves :=
                [ {| from_point := 1; to_point := 4; die_used := 3;
                     is_hit := false; is_bear_off := false |};
                  {| from_point := 4; to_point := 10; die_used := 6;
                     is_hit := true; is_bear_off := false |} ];
              notation := "1/10*" |} eq_refl).
Defined.

(** ** _parse_evaluation *)

(** The groups of a match of [move_pat]: the rank is a run of digits and
    the equity a signed decimal. *)
Lemma move_pat_groups (m : mstate) :
  run_from_start move_pat m ->
  exists w1 w2 w3,
    caps m = [(3%nat, w3); (2%nat, w2); (1%nat, w1)] /\
    digits_text w1 /\ decimal_text w3.
Proof.
  intros (before & s & H). unfold move_pat in H.
  apply run_seq_no_groups in H; [|reflexivity]. destruct H as (m0 & C0 & H).
  apply run_seq_no_groups in H; [|reflexivity]. destruct H as (m1 & C1 & H).
  destruct H as (m2 & G1 & H).
  apply run_group_digits in G1. destruct G1 as (w1 & D1 & C2).
  apply run_seq_no_groups in H; [|reflexivity]. destruct H as (m3 & C3 & H).
  apply run_seq_no_groups in H; [|reflexivity]. destruct H as (m4 & C4 & H).
  apply run_seq_no_groups in H; [|reflexivity]. destruct H as (m5 & C5 & H).
  destruct H as (m6 & G2 & H).
  apply run_group in G2. destruct G2 as (m6' & w2 & R2 & _ & _ & C6).
  apply (run_no_groups notation_pat eq_refl) in R2.
  apply run_seq_no_groups in H; [|reflexivity]. destruct H as (m7 & C7 & H).
  apply run_seq_no_groups in H; [|reflexivity]. destruct H as (m8 & C8 & H).
  apply run_seq_no_groups in H; [|reflexivity]. destruct H as (m9 & C9 & H).
  apply run_seq_no_groups in H; [|reflexivity]. destruct H as (m10 & C10 & H).
  apply run_group_decimal in H. destruct H as (w3 & D3 & C11).
  exists w1, w2, w3. split; [|split; assumption].
  rewrite C11, C10, C9, C8, C7, C6, R2, C5, C4, C3, C2, C1, C0. reflexivity.
Qed.

(** One iteration of the loop: it raises exactly when the notation does not
    parse, and otherwise appends one entry. *)
Lemma parse_match_result (m : mstate) (plays : list RankedPlay) :
  run_from_start move_pat m ->
  exists rank_v equity_v,
    parse_match m plays =
      match _parse_notation (strip (group 2 (caps m))) with
      | Ok p => Ok (plays ++ [entry_of m p plays rank_v equity_v])
      | Raise e => Raise e
      end.
Proof.
  intros R. destruct (move_pat_groups m R) as (w1 & w2 & w3 & C & D1 & D3).
  destruct (py_float_decimal w3 D3) as (f & Ef & _).
  exists (digits_value w1), f. unfold parse_match. rewrite C.
  cbn [group Nat.eqb]. rewrite (py_int_digits w1 D1), Ef. cbn [bind].
  destruct (_parse_notation (strip w2)); reflexivity.
Qed.

(** [int] raises nothing but ValueError, and so does [_parse_notation]. *)
Lemma py_int_raises (s : list ascii) (e : exn) :
  py_int s = Raise e -> e = ValueError.
Proof.
  unfold py_int.
  destruct (match int_strip s with
            | [] => (false, int_strip s)
            | c :: tl => _
            end) as [neg body].
  destruct (int_digits body false []); [discriminate|].
  now intros [= <-].
Qed.

Lemma parse_pair_raises (a b : list ascii) (count : Z) (e : exn) :
  parse_pair a b count = Raise e -> e = ValueError.
Proof.
  unfold parse_pair.
  destruct (eqb_chars _ (chars "bar")); cbn [bind].
  - destruct (eqb_chars _ (chars "off")); cbn [bind]; [discriminate|].
    destruct (py_int (remove_char _ (strip b))) eqn:E; cbn [bind];
      [discriminate|].
    intros [= <-]. eapply py_int_raises; eassumption.
  - destruct (py_int (remove_char _ (strip a))) eqn:E1; cbn [bind].
    + destruct (eqb_chars _ (chars "off")); cbn [bind]; [discriminate|].
      destruct (py_int (remove_char _ (strip b))) eqn:E; cbn [bind];
        [discriminate|].
      intros [= <-]. eapply py_int_raises; eassumption.
    + intros [= <-]. eapply py_int_raises; eassumption.
Qed.

Lemma parse_segments_raises (segments : list (list ascii)) (count : Z) :
  forall moves e, parse_segments segments count moves = Raise e ->
                  e = ValueError.
Proof.
  induction segments as [|a tl IH]; intros moves e; cbn [parse_segments];
    [discriminate|].
  destruct tl as [|b tl']; [discriminate|].
  destruct (parse_pair a b count) eqn:E; cbn [bind].
  - apply IH.
  - intros [= <-]. eapply parse_pair_raises; eassumption.
Qed.

Lemma parse_part_raises (part : list ascii) (moves : list MoveResponse) (e : exn) :
  parse_part part moves = Raise e -> e = ValueError.
Proof.
  unfold parse_part.
  destruct (match search multiplier_pat part with
            | Some m => py_int (group 1 (caps m))
            | None => Ok 1
            end) as [count|e'] eqn:E; cbn [bind].
  - destruct (2 <=? _)%nat; [apply parse_segments_raises|discriminate].
  - intros [= <-]. destruct (search multiplier_pat part); [|discriminate].
    eapply py_int_raises; eassumption.
Qed.

Lemma parse_notation_raises (s : list ascii) (e : exn) :
  _parse_notation s = Raise e -> e = ValueError.
Proof.
  unfold _parse_notation.
  generalize (@nil MoveResponse) as moves.
  induction (split_ws s) as [|part parts IH]; intros moves;
    cbn [parse_parts bind]; [discriminate|].
  destruct (parse_part part moves) eqn:E; cbn [bind].
  - apply IH.
  - intros [= <-]. eapply parse_part_raises; eassumption.
Qed.

(** The loop over the matches. *)
Lemma parse_matches_ok (ms : list mstate) :
  Forall (run_from_start move_pat) ms ->
  forall plays plays',
    parse_matches ms plays = Ok plays' ->
    exists new, plays' = plays ++ new /\ List.length new = List.length ms.
Proof.
  induction 1 as [|m ms R _ IH]; intros plays plays' H;
    cbn [parse_matches] in H.
  - injection H as <-. exists []. now rewrite app_nil_r.
  - destruct (parse_match_result m plays R) as (rk & eq & E).
    rewrite E in H.
    destruct (_parse_notation (strip (group 2 (caps m)))) as [p|e];
      cbn [bind] in H; [|discriminate].
    destruct (IH _ _ H) as (new & -> & L).
    eexists. rewrite <- app_assoc. split; [reflexivity|]. cbn. now rewrite L.
Qed.

Lemma parse_matches_raise (ms : list mstate) :
  Forall (run_from_start move_pat) ms ->
  forall plays,
    (exists e, parse_matches ms plays = Raise e) <->
    (exists m, In m ms /\
               _parse_notation (strip (group 2 (caps m))) = Raise ValueError).
Proof.
  induction 1 as [|m ms R _ IH]; intros plays; cbn [parse_matches].
  - split; [intros (e & H); discriminate | intros (m & [] & _)].
  - destruct (parse_match_result m plays R) as (rk & eq & E). rewrite E.
    destruct (_parse_notation (strip (group 2 (caps m)))) as [p|e] eqn:N;
      cbn [bind].
    + rewrite IH. split.
      * intros (m' & I & F). exists m'. split; [now right|exact F].
      * intros (m' & [<-|I] & F); [congruence|]. now exists m'.
    + split.
      * intros _. exists m. split; [now left|].
        now rewrite N, (parse_notation_raises _ _ N).
      * intros _. now exists e.
Qed.

Lemma parse_matches_raises_value_error (ms : list mstate) :
  Forall (run_from_start move_pat) ms ->
  forall plays e, parse_matches ms plays = Raise e -> e = ValueError.
Proof.
  induction 1 as [|m ms R _ IH]; intros plays e; cbn [parse_matches];
    [discriminate|].
  destruct (parse_match_result m plays R) as (rk & eq & E). rewrite E.
  destruct (_parse_notation (strip (group 2 (caps m)))) as [p|e'] eqn:N;
    cbn [bind].
  - apply IH.
  - intros [= <-]. eapply parse_notation_raises; eassumption.
Qed.

(** C10 (counterexample). The parser raises: the line matches [move_pat],
    its notation is "a/b", and [int("a")] raises ValueError. *)
Lemma parse_evaluation_raises :
  _parse_evaluation bad_notation_output = Raise ValueError.
Proof. vm_compute. reflexivity. Qed.

(** Notations on which the parser raises as well: "bar" is read only
    before the slash, "off" only after it. *)
Example parse_notation_rejects :
  _parse_notation (chars "6/bar") = Raise ValueError /\
  _parse_notation (chars "off/3") = Raise ValueError.
Proof. split; reflexivity. Qed.

(** C10 (amended). Whenever [_parse_evaluation] returns, the ranked list is
    not empty and the best play and the best equity are those of its first
    entry; when nothing matches it returns the single entry of rank 1 with
    no move, the notation "No move" and the equity 0.0; it raises, and then
    ValueError, exactly when the notation of a matched line does not
    parse. *)
Theorem parse_evaluation_result (output : list ascii) :
  (forall r, _parse_evaluation output = Ok r ->
     exists first others,
       all_plays r = first :: others /\
       best_play r = play first /\ best_equity r = equity first) /\
  (finditer move_pat output = [] ->
     _parse_evaluation output =
       Ok {| best_play := {| moves := []; notation := "No move" |};
             best_equity := 0%float;
             all_plays :=
               [ {| rank := 1;
                    play := {| moves := []; notation := "No move" |};
                    equity := 0%float;
                    win_probability := 0.5%float;
                    equity_difference := 0%float |} ] |}) /\
  ((exists e, _parse_evaluation output = Raise e) <->
   (exists m, In m (finditer move_pat output) /\
              _parse_notation (strip (group 2 (caps m))) = Raise ValueError)) /\
  (forall e, _parse_evaluation output = Raise e -> e = ValueError).
Proof.
  pose proof (finditer_run move_pat output) as F.
  unfold _parse_evaluation.
  split; [|split; [|split]].
  - intros r H.
    destruct (parse_matches (finditer move_pat output) []) as [plays|e];
      cbn [bind] in H; [|discriminate].
    destruct plays as [|first others]; cbn [app] in H; injection H as <-;
      eexists; eexists; repeat split.
  - intros ->. reflexivity.
  - rewrite <- (parse_matches_raise _ F []).
    destruct (parse_matches (finditer move_pat output) []) as [plays|e];
      cbn [bind].
    + split; intros (e & H); [|discriminate H].
      destruct plays; discriminate H.
    + split; intros _; now exists e.
  - intros e.
    destruct (parse_matches (finditer move_pat output) []) as [plays|e'] eqn:E;
      cbn [bind].
    + destruct plays; discriminate.
    + intros [= <-]. eapply parse_matches_raises_value_error; eassumption.
Qed.

Lemma parse_evaluation_result_witness :
  _parse_evaluation (chars "no ranked play here") =
    Ok {| best_play := {| moves := []; notation := "No move" |};
          best_equity := 0%float;
          all_plays :=
            [ {| rank := 1;
                 play := {| moves := []; notation := "No move" |};
                 equity := 0%float;
                 win_probability := 0.5%float;
                 equity_difference := 0%float |} ] |}.
Proof.
  apply (proj1 (proj2 (parse_evaluation_result (chars "no ranked play here")))).
  vm_compute. reflexivity.
Defined.

End ParseFacts.

(* ===================================================================== *)
(** * Theorems: the orchestrator                                           *)
(* ===================================================================== *)

Section EngineFacts.
Import Statements.
Import Str Engine.

(** ** The mock strategy answers every validated request *)

Lemma occupied_loop_some (pts : list Z) (w b : bool) (idxs : list nat) :
  Forall (fun i => (i < List.length pts)%nat) idxs ->
  forall acc, exists occ, occupied_loop pts w b idxs acc = Some occ.
Proof.
  induction 1 as [|i idxs Hi _ IH]; intros acc; cbn [occupied_loop].
  - now exists acc.
  - destruct (nth_error pts i) as [val|] eqn:E.
    + destruct (w && (val >? 0) || b && (val <? 0)); apply IH.
    + apply nth_error_None in E. lia.
Qed.

Lemma mock_evaluate_ok (req : EvaluateRequest) (draws : MockDraws) :
  valid_request req -> exists resp, _mock_evaluate req draws = Ok resp.
Proof.
  intros (Hp & _ & _ & Hd & _). unfold _mock_evaluate.
  destruct (dice req) as [|d1 [|d2 [|? ?]]]; try discriminate Hd.
  destruct (occupied_loop_some (points req)
              (String.eqb (player req) "white")
              (String.eqb (player req) "black") (seq 0 24)) with (acc := @nil Z)
    as (occ & ->).
  { rewrite Hp. apply Forall_forall. intros i Hi. apply in_seq in Hi. lia. }
  match goal with
  | |- context [match ?X with [] => [Parse.no_move_entry] | _ :: _ => _ end] =>
      destruct X as [|first others]
  end; eexists; reflexivity.
Qed.

(** ** Running one request *)

Lemma exec_then_release {A} (p : prog A) :
  forall replies n sent,
    exec (then_do p (fun a => Release (Ret a))) replies n sent
    = exec p replies n sent.
Proof.
  induction p as [a|k IH|k IH|cmd t k IH]; intros replies n sent;
    cbn [then_do exec]; auto.
Qed.

Lemma run_with_lock {A} (p : prog A) (replies : nat -> result string) :
  run_alone (with_lock p) replies = run_alone p replies.
Proof. unfold run_alone, with_lock. cbn [exec]. apply exec_then_release. Qed.

Lemma counts_of_valid (req : EvaluateRequest) :
  valid_request req ->
  exists w b,
    Board.white_count (points req) (bar req) (borne_off req) = Some w /\
    Board.black_count (points req) (bar req) (borne_off req) = Some b.
Proof.
  intros (_ & Hb & Ho & _).
  destruct (bar req) as [|b0 [|b1 [|? ?]]]; try discriminate Hb.
  destruct (borne_off req) as [|o0 [|o1 [|? ?]]]; try discriminate Ho.
  eexists. eexists. split; reflexivity.
Qed.

(** C4. When the white total or the black total of a request differs from
    15, [evaluate] returns what the mock strategy returns, no command has
    been written to the engine, and the request succeeds. *)
Theorem invalid_count_uses_mock (version : string) (draws : MockDraws)
  (req : EvaluateRequest) (replies : nat -> result string) :
  valid_request req ->
  Board.white_count (points req) (bar req) (borne_off req) <> Some 15 \/
  Board.black_count (points req) (bar req) (borne_off req) <> Some 15 ->
  run_alone (evaluate version draws req) replies
  = (_mock_evaluate req draws, []) /\
  exists resp, _mock_evaluate req draws = Ok resp.
Proof.
  intros V Hc. split; [|now apply mock_evaluate_ok].
  unfold evaluate. destruct (String.eqb version "mock"); [reflexivity|].
  rewrite run_with_lock. unfold evaluate_locked.
  destruct (counts_of_valid req V) as (w & b & Ew & Eb).
  rewrite Ew, Eb in *.
  replace (negb (w =? 15) || negb (b =? 15)) with true; [reflexivity|].
  symmetry. apply orb_true_iff.
  destruct Hc as [Hc|Hc]; [left|right]; apply negb_true_iff, Z.eqb_neq;
    congruence.
Qed.

Lemma short_request_valid : valid_request short_request.
Proof. unfold valid_request. cbn. repeat split; lia. Defined.

Lemma start_request_valid : valid_request start_request.
Proof. unfold valid_request. cbn. repeat split; lia. Defined.

Lemma invalid_count_uses_mock_witness :
  valid_request short_request /\
  Board.white_count (points short_request) (bar short_request)
                    (borne_off short_request) = Some 14 /\
  run_alone (evaluate "1.0.0" some_draws short_request) not_running
  = (_mock_evaluate short_request some_draws, []).
Proof.
  split; [exact short_request_valid|]. split; [reflexivity|].
  apply (invalid_count_uses_mock "1.0.0" some_draws short_request not_running
           short_request_valid).
  left. vm_compute. discriminate.
Defined.

(** ** The fallbacks of [evaluate] *)

(** The [try] block either falls back, or got seven replies, a legal
    position and a hint with the equity marker that parses. *)
Lemma evaluate_try_cases (req : EvaluateRequest) (fb : result EvaluateResponse)
  (replies : nat -> result string) :
  fst (run_alone (evaluate_try req (Ret fb)) replies) = fb \/
  exists set_result output result,
    (forall n, (n < 7)%nat -> exists text, replies n = Ok text) /\
    replies set_board_reply = Ok set_result /\
    contains (chars "Illegal") (chars set_result) = false /\
    replies hint_reply = Ok output /\
    output <> ""%string /\
    contains (chars "Eq.:") (chars output) = true /\
    Parse._parse_evaluation (chars output) = Ok result /\
    fst (run_alone (evaluate_try req (Ret fb)) replies)
    = Ok (if String.eqb (player req) "black"
          then Transform._transform_for_black result else result).
Proof.
  unfold run_alone, evaluate_try, send_or. cbn [exec].
  destruct (replies 0%nat) as [t0|] eqn:R0; [|now left].
  cbn [exec].
  destruct (replies 1%nat) as [t1|] eqn:R1; [|now left].
  destruct (PositionId._make_position_id (points req) (bar req)) as [pos_id|];
    [|now left].
  cbn [exec].
  destruct (replies 2%nat) as [t2|] eqn:R2; [|now left].
  destruct (contains (chars "Illegal") (chars t2)) eqn:Ill; [now left|].
  cbn [exec].
  destruct (replies 3%nat) as [t3|] eqn:R3; [|now left].
  cbn [exec].
  destruct (replies 4%nat) as [t4|] eqn:R4; [|now left].
  destruct (nth_error (dice req) 0) as [die0|]; [|now left].
  destruct (nth_error (dice req) 1) as [die1|]; [|now left].
  cbn [exec].
  destruct (replies 5%nat) as [t5|] eqn:R5; [|now left].
  cbn [exec].
  destruct (replies 6%nat) as [t6|] eqn:R6; [|now left].
  destruct (String.eqb t6 "") eqn:Empty; cbn [orb]; [now left|].
  destruct (contains (chars "Eq.:") (chars t6)) eqn:Marker; cbn [negb];
    [|now left].
  destruct (Parse._parse_evaluation (chars t6)) as [result|] eqn:P;
    [|now left].
  right. exists t2, t6, result.
  repeat apply conj; try assumption; try reflexivity.
  - intros n Hn.
    do 7 (destruct n as [|n]; [eexists; eassumption|]). lia.
  - intros ->. discriminate Empty.
Qed.

(** C5. In every mode and for every sequence of replies, [evaluate]
    returns a response and does not raise.  It returns what the mock
    strategy returns when the reply to "set board" contains "Illegal", when
    the hint is empty or lacks the marker "Eq.:", when a command raises
    (the replies are numbered as the commands: 0 search depth, 1 new game,
    2 set board, 3 set turn, 4 show board, 5 set dice, 6 hint), and when the
    parser raises on the hint. *)
Theorem evaluate_never_raises (version : string) (draws : MockDraws)
  (req : EvaluateRequest) (replies : nat -> result string) :
  valid_request req ->
  let out := fst (run_alone (evaluate version draws req) replies) in
  (exists resp, out = Ok resp) /\
  ((exists text, replies set_board_reply = Ok text /\
                 contains (chars "Illegal") (chars text) = true) ->
   out = _mock_evaluate req draws) /\
  ((exists text, replies hint_reply = Ok text /\
                 (text = ""%string \/
                  contains (chars "Eq.:") (chars text) = false)) ->
   out = _mock_evaluate req draws) /\
  ((exists n e, (n < 7)%nat /\ replies n = Raise e) ->
   out = _mock_evaluate req draws) /\
  ((exists text e, replies hint_reply = Ok text /\
                   Parse._parse_evaluation (chars text) = Raise e) ->
   out = _mock_evaluate req draws).
Proof.
  intros V out.
  destruct (mock_evaluate_ok req draws V) as (mock & Em).
  assert (Cases : out = _mock_evaluate req draws \/
    exists set_result output result,
      (forall n, (n < 7)%nat -> exists text, replies n = Ok text) /\
      replies set_board_reply = Ok set_result /\
      contains (chars "Illegal") (chars set_result) = false /\
      replies hint_reply = Ok output /\
      output <> ""%string /\
      contains (chars "Eq.:") (chars output) = true /\
      Parse._parse_evaluation (chars output) = Ok result /\
      out = Ok (if String.eqb (player req) "black"
                then Transform._transform_for_black result else result)).
  { unfold out, evaluate.
    destruct (String.eqb version "mock"); [now left|].
    rewrite run_with_lock. unfold evaluate_locked.
    destruct (counts_of_valid req V) as (w & b & -> & ->).
    destruct (negb (w =? 15) || negb (b =? 15)); [now left|].
    apply evaluate_try_cases. }
  destruct Cases as [E|(sr & output & result & All & Rs & Ill & Rh & Ne & Mk & P & E)].
  - repeat apply conj; try (intros _; exact E).
    exists mock. now rewrite E.
  - repeat apply conj.
    + eexists. exact E.
    + intros (text & Rt & It). rewrite Rs in Rt. injection Rt as <-. congruence.
    + intros (text & Rt & [Et|Mt]); rewrite Rh in Rt; injection Rt as <-;
        congruence.
    + intros (n & e & Hn & Rn). destruct (All n Hn) as (text & Rt). congruence.
    + intros (text & e & Rt & Pt). rewrite Rh in Rt. injection Rt as <-.
      congruence.
Qed.

Lemma evaluate_never_raises_witness :
  valid_request start_request /\
  exists resp,
    fst (run_alone (evaluate "1.0.0" some_draws start_request) not_running)
    = Ok resp.
Proof.
  split; [exact start_request_valid|].
  exact (proj1 (evaluate_never_raises "1.0.0" some_draws start_request
                  not_running start_request_valid)).
Defined.

(** ** The lock *)

Lemma critical_then_ret {A B} (g : A -> B) (p : prog A) :
  critical p -> critical (then_do p (fun a => Ret (g a))).
Proof.
  induction 1 as [a|cmd t k _ IH]; cbn [then_do]; constructor. exact IH.
Qed.

Lemma serial_then_ret {A B} (g : A -> B) (p : prog A) :
  serial p -> serial (then_do p (fun a => Ret (g a))).
Proof.
  intros [a|k Hk]; cbn [then_do]; constructor. now apply critical_then_ret.
Qed.

Lemma critical_with_release {A} (body : prog A) :
  sends_only body -> critical (then_do body (fun a => Release (Ret a))).
Proof.
  induction 1 as [a|cmd t k _ IH]; cbn [then_do]; constructor. exact IH.
Qed.

Lemma serial_with_lock {A} (body : prog A) :
  sends_only body -> serial (with_lock body).
Proof. intros H. constructor. now apply critical_with_release. Qed.

Lemma sends_only_send_or {A} (handler : prog A) (cmd : string) (t : float)
  (k : string -> prog A) :
  sends_only handler -> (forall text, sends_only (k text)) ->
  sends_only (send_or handler cmd t k).
Proof.
  intros Hh Hk. unfold send_or. constructor. intros [text|e]; auto.
Qed.

Lemma sends_only_evaluate_try (req : EvaluateRequest)
  (fb : result EvaluateResponse) :
  sends_only (evaluate_try req (Ret fb)).
Proof.
  assert (F : sends_only (Ret fb)) by constructor.
  unfold evaluate_try.
  apply sends_only_send_or; [exact F|]. intros _.
  apply sends_only_send_or; [exact F|]. intros _.
  destruct (PositionId._make_position_id _ _); [|exact F].
  apply sends_only_send_or; [exact F|]. intros set_result.
  destruct (contains _ _); [exact F|].
  apply sends_only_send_or; [exact F|]. intros _.
  apply sends_only_send_or; [exact F|]. intros _.
  destruct (nth_error (dice req) 0); [|exact F].
  destruct (nth_error (dice req) 1); [|exact F].
  apply sends_only_send_or; [exact F|]. intros _.
  apply sends_only_send_or; [exact F|]. intros output.
  destruct (_ || _); [exact F|].
  destruct (Parse._parse_evaluation _); [constructor|exact F].
Qed.

(** [evaluate] and [evaluate_cube] return at once or keep all their
    commands between taking the lock and releasing it, the fallbacks
    included. *)
Lemma serial_evaluate (version : string) (draws : MockDraws)
  (req : EvaluateRequest) :
  serial (evaluate version draws req).
Proof.
  unfold evaluate. destruct (String.eqb version "mock"); [constructor|].
  apply serial_with_lock. unfold evaluate_locked.
  destruct (Board.white_count _ _ _); [|constructor].
  destruct (Board.black_count _ _ _); [|constructor].
  destruct (_ || _); [constructor|apply sends_only_evaluate_try].
Qed.

Lemma serial_evaluate_cube (version : string) (draws : MockDraws)
  (req : CubeRequest) :
  serial (evaluate_cube version draws req).
Proof.
  unfold evaluate_cube. destruct (String.eqb version "mock"); [constructor|].
  apply serial_with_lock.
  assert (F : sends_only (Ret (Ok (_mock_cube draws)))) by constructor.
  apply sends_only_send_or; [exact F|]. intros _.
  apply sends_only_send_or; [exact F|]. intros _.
  unfold _setup_position.
  apply sends_only_send_or; [exact F|]. intros _.
  apply sends_only_send_or; [exact F|]. intros _.
  destruct (setup_reads _ _); [|exact F].
  destruct (PositionId._make_position_id _ _); [|exact F].
  apply sends_only_send_or; [exact F|]. intros _.
  apply sends_only_send_or; [exact F|]. intros _.
  apply sends_only_send_or; [exact F|]. intros output.
  destruct (Parse._parse_cube _); [constructor|exact F].
Qed.

Lemma serial_handle (version : string) (rq : request) :
  serial (handle version rq).
Proof.
  destruct rq as [draws req|draws req]; cbn [handle];
    apply serial_then_ret; [apply serial_evaluate|apply serial_evaluate_cube].
Qed.

Lemma nth_error_set_task_same (ts : list task) (i : nat) (t t0 : task) :
  nth_error ts i = Some t0 -> nth_error (set_task ts i t) i = Some t.
Proof.
  revert i. induction ts as [|x ts IH]; intros [|i] H; cbn in *;
    try discriminate; auto.
Qed.

Lemma nth_error_set_task_other (ts : list task) (i j : nat) (t : task) :
  i <> j -> nth_error (set_task ts i t) j = nth_error ts j.
Proof.
  revert i j. induction ts as [|x ts IH]; intros [|i] [|j] H; cbn;
    try reflexivity; try congruence. apply IH. congruence.
Qed.

Lemma lock_invariant_start (version : string) (rqs : list request) :
  lock_invariant (start version rqs).
Proof.
  constructor; cbn [start written holder tasks].
  - intros p q r i c1 c3 _ H. destruct p; discriminate H.
  - discriminate.
  - intros i t H _. rewrite nth_error_map in H.
    destruct (nth_error rqs i) as [rq|]; [|discriminate].
    injection H as <-.
    destruct (serial_handle version rq) as [a|k Hk].
    + left. now exists a.
    + right. exists k. repeat split; try assumption.
      intros q j cmd H. destruct q; discriminate H.
Qed.

(** A task that has not returned and does not wait for the lock holds
    it. *)
Lemma busy_task_holds (c : config) (i : nat) (t : task) :
  lock_invariant c ->
  nth_error (tasks c) i = Some t ->
  (forall a, t <> Running (Ret a)) ->
  (forall k, t <> Running (Acquire k)) ->
  holder c = Some i.
Proof.
  intros [_ _ I3] Hi NR NA.
  destruct (holder c) as [h|] eqn:Eh.
  - destruct (Nat.eq_dec h i) as [->|N]; [reflexivity|].
    destruct (I3 i t Hi) as [(a & E)|(k & E & _)]; [congruence| |];
      exfalso; [eapply NR|eapply NA]; eassumption.
  - destruct (I3 i t Hi) as [(a & E)|(k & E & _)]; [congruence| |];
      exfalso; [eapply NR|eapply NA]; eassumption.
Qed.

(** A step that writes nothing and leaves the holder inside its critical
    section keeps the invariant. *)
Lemma lock_invariant_silent (c : config) (i : nat) (t t' : task) :
  lock_invariant c ->
  nth_error (tasks c) i = Some t ->
  holder c = Some i ->
  critical_task t' ->
  lock_invariant {| tasks := set_task (tasks c) i t'; holder := holder c;
                    written := written c |}.
Proof.
  intros [I1 I2 I3] Hi Hh Ct.
  constructor; cbn [written holder tasks].
  - exact I1.
  - intros i' Hi'. rewrite Hh in Hi'. injection Hi' as <-.
    destruct (I2 i Hh) as (t0 & n0 & _ & _ & Ln & Own).
    exists t', n0. repeat split; try assumption;
      try (eapply nth_error_set_task_same; eassumption);
      apply (Own q j cmd H).
  - intros l t0 Hl Hne. rewrite Hh in Hne.
    assert (i <> l) by congruence.
    rewrite nth_error_set_task_other in Hl by assumption.
    apply (I3 l t0 Hl). congruence.
Qed.

Lemma lock_invariant_step (c c' : config) :
  lock_invariant c -> step c c' -> lock_invariant c'.
Proof.
  intros Inv S. pose proof Inv as [I1 I2 I3].
  destruct S as [c i k Hi Hfree|c i j k Hi Hheld|c i cmd tm k Hi
                |c i k reply Hi|c i cmd tm k e Hi].
  - (* the lock is taken *)
    destruct (I3 i _ Hi) as [(a & E)|(k' & E & Ck & Nw)];
      [congruence|discriminate|].
    injection E as <-.
    constructor; cbn [written holder tasks].
    + exact I1.
    + intros i' [= <-]. exists (Running k), (List.length (written c)).
      repeat split.
      * eapply nth_error_set_task_same; eassumption.
      * exact Ck.
      * lia.
      * intros ->. exfalso. eapply Nw; eauto.
      * intros L. assert (q < List.length (written c))%nat
          by (apply nth_error_Some; congruence). lia.
    + intros l t Hl Hne.
      assert (i <> l) by congruence.
      rewrite nth_error_set_task_other in Hl by assumption.
      apply (I3 l t Hl). congruence.
  - (* the lock is released *)
    assert (Hh : holder c = Some i)
      by (eapply busy_task_holds; try eassumption; discriminate).
    destruct (I2 i Hh) as (t & n0 & Ht & Ct & _).
    rewrite Hi in Ht. injection Ht as <-. cbn [critical_task] in Ct.
    inversion Ct as [a Ea|]; subst.
    constructor; cbn [written holder tasks].
    + exact I1.
    + discriminate.
    + intros l t Hl _. destruct (Nat.eq_dec i l) as [<-|N].
      * rewrite (nth_error_set_task_same _ _ _ _ Hi) in Hl.
        injection Hl as <-. left. now exists a.
      * rewrite nth_error_set_task_other in Hl by assumption.
        apply (I3 l t Hl). congruence.
  - (* a command is written *)
    assert (Hh : holder c = Some i)
      by (eapply busy_task_holds; try eassumption; discriminate).
    destruct (I2 i Hh) as (t & n0 & Ht & Ct & Ln & Own).
    rewrite Hi in Ht. injection Ht as <-. cbn [critical_task] in Ct.
    inversion Ct as [|cmd' t' k' Ck]; subst.
    assert (Own' : forall q j c0,
              nth_error (written c ++ [(i, cmd)]) q = Some (j, c0) ->
              (j = i <-> (n0 <= q)%nat)).
    { intros q j c0 H.
      destruct (Nat.lt_ge_cases q (List.length (written c))) as [Lt|Ge].
      - rewrite nth_error_app1 in H by assumption. eapply Own; eassumption.
      - rewrite nth_error_app2 in H by assumption.
        destruct (q - List.length (written c))%nat as [|d] eqn:Ed;
          [|destruct d; discriminate H].
        cbn in H. injection H as <- <-. split; [lia|reflexivity]. }
    constructor; cbn [written holder tasks].
    + intros p q r a c1 c3 [Hpq Hqr] Hp Hr.
      assert (Lr : (r < List.length (written c ++ [(i, cmd)]))%nat)
        by (apply nth_error_Some; congruence).
      rewrite length_app in Lr. cbn [List.length] in Lr.
      destruct (Nat.lt_ge_cases r (List.length (written c))) as [Lt|Ge].
      * rewrite nth_error_app1 in Hp, Hr |- * by lia.
        eapply I1; [split; eassumption| |]; eassumption.
      * assert (r = List.length (written c)) by lia. subst r.
        rewrite nth_error_app2 in Hr by lia.
        rewrite Nat.sub_diag in Hr. cbn in Hr. injection Hr as <- <-.
        assert (N0 : (n0 <= p)%nat) by (apply (Own' p i c1 Hp); reflexivity).
        destruct (nth_error (written c ++ [(i, cmd)]) q) as [[j c2]|] eqn:Eq.
        -- exists c2. f_equal. f_equal.
           apply (Own' q j c2 Eq). lia.
        -- apply nth_error_None in Eq. rewrite length_app in Eq.
           cbn [List.length] in Eq. lia.
    + rewrite Hh. intros i' [= <-]. exists (Reading k), n0.
      repeat split.
      * eapply nth_error_set_task_same; eassumption.
      * exact Ck.
      * rewrite length_app. lia.
      * apply (Own' q j cmd0 H).
      * apply (Own' q j cmd0 H).
    + intros l t Hl Hne. rewrite Hh in Hne.
      assert (i <> l) by congruence.
      rewrite nth_error_set_task_other in Hl by assumption.
      destruct (I3 l t Hl) as [R|(k' & E & Ck' & Nw)]; [congruence|now left|].
      right. exists k'. repeat split; try assumption.
      intros q j c0 H0 ->.
      destruct (Nat.lt_ge_cases q (List.length (written c))) as [Lt|Ge].
      -- rewrite nth_error_app1 in H0 by assumption.
         now apply (Nw q l c0 H0).
      -- rewrite nth_error_app2 in H0 by assumption.
         destruct (q - List.length (written c))%nat as [|d];
           [|destruct d; discriminate H0].
         cbn in H0. injection H0 as E0 _. congruence.
  - (* a reply is read *)
    assert (Hh : holder c = Some i)
      by (eapply busy_task_holds; try eassumption; discriminate).
    destruct (I2 i Hh) as (t & n0 & Ht & Ct & _).
    rewrite Hi in Ht. injection Ht as <-. cbn [critical_task] in Ct.
    eapply lock_invariant_silent; try eassumption. apply Ct.
  - (* [_send] raises before it writes *)
    assert (Hh : holder c = Some i)
      by (eapply busy_task_holds; try eassumption; discriminate).
    destruct (I2 i Hh) as (t & n0 & Ht & Ct & _).
    rewrite Hi in Ht. injection Ht as <-. cbn [critical_task] in Ct.
    inversion Ct as [|cmd' t' k' Ck]; subst.
    eapply lock_invariant_silent; try eassumption. apply Ck.
Qed.

Lemma lock_invariant_reachable (version : string) (rqs : list request)
  (c : config) :
  reachable (start version rqs) c -> lock_invariant c.
Proof.
  induction 1 as [|c c' _ IH S].
  - apply lock_invariant_start.
  - eapply lock_invariant_step; eassumption.
Qed.

(** C7. Every request returns at once (mock mode) or takes the lock before
    its first command and releases it after its last one on every path,
    the fallbacks included; in every configuration that concurrent
    requests can reach, a task that is about to write a command or waits
    for a reply holds the lock, and the commands written to the process so
    far are not interleaved: between two commands of a request there are
    only commands of that request. *)
Theorem requests_do_not_interleave (version : string) (rqs : list request)
  (c : config) :
  reachable (start version rqs) c ->
  (forall rq, In rq rqs -> serial (handle version rq)) /\
  (forall i cmd timeout k,
      nth_error (tasks c) i = Some (Running (Send cmd timeout k)) ->
      holder c = Some i) /\
  (forall i k, nth_error (tasks c) i = Some (Reading k) -> holder c = Some i) /\
  not_interleaved (written c).
Proof.
  intros R. pose proof (lock_invariant_reachable _ _ _ R) as Inv.
  split; [|split; [|split]].
  - intros rq _. apply serial_handle.
  - intros i cmd t k Hi.
    eapply busy_task_holds; try eassumption; discriminate.
  - intros i k Hi.
    eapply busy_task_holds; try eassumption; discriminate.
  - apply Inv.
Qed.

(** Without the lock the commands of two tasks do interleave: the relation
    [step] does not serialise by itself. *)
Example unlocked_tasks_interleave :
  exists c, reachable unlocked_start c /\ ~ not_interleaved (written c).
Proof.
  eexists. split.
  - eapply reach_step; [eapply reach_step; [eapply reach_step;
      [eapply reach_step; [eapply reach_step; [apply reach_start|]|]|]|]|].
    + eapply (step_write _ 0%nat); reflexivity.
    + eapply (step_read _ 0%nat _ (Ok ""%string)); reflexivity.
    + eapply (step_write _ 1%nat); reflexivity.
    + eapply (step_read _ 1%nat _ (Ok ""%string)); reflexivity.
    + eapply (step_write _ 0%nat); reflexivity.
  - cbn. intros N.
    destruct (N 0%nat 1%nat 2%nat 0%nat "set dice 3 1"%string "hint"%string)
      as (c2 & E); [lia|reflexivity|reflexivity|].
    discriminate E.
Qed.

(** ** Schedules *)

Lemma perform_step (c c' : config) (a : action) :
  perform c a = Some c' -> step c c'.
Proof.
  destruct a as [i|i|i|i reply|i e]; unfold perform.
  - destruct (nth_error (tasks c) i) as [[[?|k|?|? ? ?]|?]|] eqn:E;
      try discriminate.
    destruct (holder c) eqn:H; [discriminate|].
    intros [= <-]. now apply step_acquire.
  - destruct (nth_error (tasks c) i) as [[[?|?|k|? ? ?]|?]|] eqn:E;
      try discriminate.
    destruct (holder c) as [j|] eqn:H; [|discriminate].
    intros [= <-]. now apply (step_release c i j).
  - destruct (nth_error (tasks c) i) as [[[?|?|?|cmd t k]|?]|] eqn:E;
      try discriminate.
    intros [= <-]. now apply (step_write c i cmd t).
  - destruct (nth_error (tasks c) i) as [[?|k]|] eqn:E; try discriminate.
    intros [= <-]. now apply step_read.
  - destruct (nth_error (tasks c) i) as [[[?|?|?|cmd t k]|?]|] eqn:E;
      try discriminate.
    intros [= <-]. now apply (step_send_raises c i cmd t).
Qed.

Lemma perform_all_reachable (c0 : config) (l : list action) :
  forall c c', reachable c0 c -> perform_all c l = Some c' -> reachable c0 c'.
Proof.
  induction l as [|a l IH]; intros c c' R H; cbn [perform_all] in H.
  - now injection H as <-.
  - destruct (perform c a) as [c1|] eqn:E; [|discriminate].
    apply (IH c1); [|exact H].
    eapply reach_step; [exact R|]. apply (perform_step c c1 a E).
Qed.

(** Two requests at once: the evaluation writes its seven commands and
    releases the lock, the cube decision then writes its first command.
    Both have written, and the commands are not interleaved. *)
Lemma requests_do_not_interleave_witness :
  exists c,
    reachable (start "1.0.0" two_requests) c /\
    seen c
    = ([ (0%nat, "set evaluation chequer eval plies 0"%string);
         (0%nat, "new game"%string);
         (0%nat, "set board 4HPwATDgc/ABMA"%string);
         (0%nat, "set turn 0"%string);
         (0%nat, "show board"%string);
         (0%nat, "set dice 3 1"%string);
         (0%nat, "hint"%string);
         (1%nat, "set evaluation cubedecision eval plies 2"%string) ],
       Some 1%nat) /\
    not_interleaved (written c).
Proof.
  assert (Seen : option_map seen
                   (perform_all (start "1.0.0" two_requests) one_after_the_other)
                 = Some
                     ([ (0%nat, "set evaluation chequer eval plies 0"%string);
                        (0%nat, "new game"%string);
                        (0%nat, "set board 4HPwATDgc/ABMA"%string);
                        (0%nat, "set turn 0"%string);
                        (0%nat, "show board"%string);
                        (0%nat, "set dice 3 1"%string);
                        (0%nat, "hint"%string);
                        (1%nat, "set evaluation cubedecision eval plies 2"%string) ],
                      Some 1%nat))
    by (vm_compute; reflexivity).
  destruct (perform_all (start "1.0.0" two_requests) one_after_the_other)
    as [c|] eqn:E; [|discriminate Seen].
  cbn [option_map] in Seen. unfold seen in Seen. injection Seen as W H.
  assert (R : reachable (start "1.0.0" two_requests) c)
    by (eapply perform_all_reachable; [apply reach_start|exact E]).
  exists c. split; [exact R|].
  split; [unfold seen; now rewrite W, H|].
  exact (proj2 (proj2 (proj2
           (requests_do_not_interleave "1.0.0" two_requests c R)))).
Defined.

End EngineFacts.

(* ===================================================================== *)
(** * More on the codecs: match identifier, position identifier            *)
(* ===================================================================== *)

Section CodecFacts.
Import PositionId MatchId Statements MoreStatements.

Lemma small_cases (d : Z) :
  0 <= d < 8 ->
  d = 0 \/ d = 1 \/ d = 2 \/ d = 3 \/ d = 4 \/ d = 5 \/ d = 6 \/ d = 7.
Proof. lia. Qed.

(** The bytes, the length and the decoding for the two 3-bit values. *)
Lemma match_id_of_bits (die0 die1 : Z) :
  0 < die0 -> 0 < die1 ->
  let d1 := (die0 - 1) mod 8 in
  let d2 := (die1 - 1) mod 8 in
  match_bytes [die0; die1] = [48; 1; 32 * d1; 2 * d2; 0; 0; 0; 0; 0] /\
  String.length (_make_match_id [die0; die1]) = 12%nat /\
  b64decode_unpadded (_make_match_id [die0; die1])
  = Some (match_bytes [die0; die1]) /\
  dice_of_bytes (match_bytes [die0; die1]) = [d1 + 1; d2 + 1].
Proof.
  intros H0 H1 d1 d2.
  assert (B1 : 0 <= d1 < 8) by (apply Z.mod_pos_bound; lia).
  assert (B2 : 0 <= d2 < 8) by (apply Z.mod_pos_bound; lia).
  unfold _make_match_id, match_bytes.
  replace (die0 >? 0) with true by (symmetry; apply Z.gtb_lt; lia).
  replace (die1 >? 0) with true by (symmetry; apply Z.gtb_lt; lia).
  cbn [andb].
  change 7 with (Z.ones 3). rewrite !Z.land_ones by lia.
  change (2 ^ 3) with 8. fold d1 d2.
  clearbody d1 d2. clear H0 H1.
  destruct (small_cases d1 B1) as [->|[->|[->|[->|[->|[->|[->| ->]]]]]]];
    destruct (small_cases d2 B2) as [->|[->|[->|[->|[->|[->|[->| ->]]]]]]];
    vm_compute; repeat split; reflexivity.
Qed.

(** X1. For two positive dice [_make_match_id] writes nine bytes as twelve
    base64 characters without padding; byte 2 holds [(die - 1) mod 8] of
    the first die from bit 5, byte 3 that of the second die from bit 1, so
    that the identifier decodes to the dice whenever both are at most 8. *)
Theorem match_id_roundtrip (die0 die1 : Z) :
  1 <= die0 <= 8 -> 1 <= die1 <= 8 ->
  String.length (_make_match_id [die0; die1]) = 12%nat /\
  exists data,
    b64decode_unpadded (_make_match_id [die0; die1]) = Some data /\
    List.length data = 9%nat /\
    nth 0 data 0 = 48 /\ nth 1 data 0 = 1 /\
    nth 2 data 0 = 32 * (die0 - 1) /\ nth 3 data 0 = 2 * (die1 - 1) /\
    dice_of_bytes data = [die0; die1].
Proof.
  intros H0 H1.
  destruct (match_id_of_bits die0 die1) as (B & L & D & R); try lia.
  rewrite !Z.mod_small in B, R by lia.
  split; [exact L|]. exists (match_bytes [die0; die1]).
  split; [exact D|]. rewrite R, B. cbn [List.length nth].
  repeat split; f_equal; try lia. f_equal. lia.
Qed.

Lemma match_id_roundtrip_witness :
  exists data,
    b64decode_unpadded (_make_match_id [3; 1]) = Some data /\
    dice_of_bytes data = [3; 1].
Proof.
  destruct (match_id_roundtrip 3 1) as (_ & data & D & _ & _ & _ & _ & _ & R);
    try lia.
  exists data. split; assumption.
Defined.

(** X2. Dice that are not exactly two positive numbers leave no trace: the
    identifier is the one of the empty list, "MAEAAAAAAAAA". *)
Theorem match_id_without_dice (dice : list Z) :
  (List.length dice <> 2%nat \/ exists d, In d dice /\ d <= 0) ->
  _make_match_id dice = "MAEAAAAAAAAA"%string.
Proof.
  intros H. unfold _make_match_id, match_bytes.
  destruct dice as [|die0 [|die1 [|? ?]]]; try reflexivity.
  destruct H as [H|(d & [<-|[<-|[]]] & Hd)]; [now contradiction H| |].
  - replace (die0 >? 0) with false
      by (symmetry; rewrite Z.gtb_ltb; apply Z.ltb_ge; lia).
    reflexivity.
  - replace (die1 >? 0) with false
      by (symmetry; rewrite Z.gtb_ltb; apply Z.ltb_ge; lia).
    now rewrite andb_false_r.
Qed.

Lemma match_id_without_dice_witness :
  _make_match_id [0; 4] = "MAEAAAAAAAAA"%string.
Proof.
  apply match_id_without_dice. right. exists 0. split; [now left|lia].
Defined.

(** ** The position identifier outside of the invariant *)

Lemma white_loop_short (points : list Z) (idxs : list nat) :
  (exists i, In i idxs /\ (List.length points <= i)%nat) ->
  forall bits, white_loop points idxs bits = None.
Proof.
  induction idxs as [|j idxs IH]; intros (i & Hi & L) bits;
    [destruct Hi|]. cbn [white_loop].
  destruct (nth_error points j) as [p|] eqn:E; [|reflexivity].
  destruct Hi as [->|Hi].
  - apply nth_error_None in L. congruence.
  - apply IH. now exists i.
Qed.

Lemma range24_in_bounds (points : list Z) :
  (24 <= List.length points)%nat ->
  Forall (fun i => (i < List.length points)%nat) range24 /\
  Forall (fun i => (i < List.length points)%nat) range23_down.
Proof.
  intros L. split; apply Forall_forall; intros i Hi.
  - apply in_seq in Hi. lia.
  - apply in_rev, in_seq in Hi. lia.
Qed.

Lemma nth_firstn_24 (points : list Z) (i : nat) :
  (i < 24)%nat -> nth i (firstn 24 points) 0 = nth i points 0.
Proof.
  intros Hi. rewrite <- (firstn_skipn 24 points) at 2.
  destruct (Nat.lt_ge_cases i (List.length (firstn 24 points))) as [L|G].
  - now rewrite app_nth1.
  - rewrite length_firstn in G.
    assert (List.length points <= i)%nat by lia.
    rewrite (nth_overflow (firstn 24 points)) by (rewrite length_firstn; lia).
    rewrite nth_overflow; [reflexivity|].
    rewrite firstn_skipn. assumption.
Qed.

Lemma runs_firstn_24 (f : Z -> Z) (points : list Z) (idxs : list nat) :
  Forall (fun i => (i < 24)%nat) idxs ->
  flat_map (fun i => run (f (nth i (firstn 24 points) 0))) idxs
  = flat_map (fun i => run (f (nth i points 0))) idxs.
Proof.
  induction 1 as [|i idxs Hi _ IH]; [reflexivity|].
  cbn [flat_map]. now rewrite IH, nth_firstn_24.
Qed.

(** X3. [_make_position_id] raises IndexError exactly when there are fewer
    than 24 points or fewer than 2 bar entries; entries beyond these are
    never read: the identifier is that of the first 24 points and of the
    first 2 bar entries. *)
Theorem position_id_index_error (points bar : list Z) :
  (_make_position_id points bar = None <->
   (List.length points < 24)%nat \/ (List.length bar < 2)%nat) /\
  _make_position_id points bar
  = _make_position_id (firstn 24 points) (firstn 2 bar).
Proof.
  assert (Id : forall r, (match r with
                          | Some bits => Some (b64_unpadded (pack_bytes (pad80 bits)))
                          | None => None
                          end = None) <-> r = None)
    by (intros [bits|]; split; intros H; congruence).
  unfold _make_position_id.
  destruct (Nat.lt_ge_cases (List.length points) 24) as [Short|Long].
  - (* a point is missing *)
    assert (N : raw_bits points bar = None).
    { unfold raw_bits. rewrite white_loop_short; [reflexivity|].
      exists 23%nat. split; [|lia]. unfold range24. apply in_seq. lia. }
    rewrite firstn_all2 by lia.
    assert (N' : raw_bits points (firstn 2 bar) = None).
    { unfold raw_bits. rewrite white_loop_short; [reflexivity|].
      exists 23%nat. split; [|lia]. unfold range24. apply in_seq. lia. }
    rewrite N, N'. split; [|reflexivity]. split; [intros _; now left|reflexivity].
  - destruct (range24_in_bounds points Long) as [Up Down].
    assert (Long' : (24 <= List.length (firstn 24 points))%nat)
      by (rewrite length_firstn; lia).
    destruct (range24_in_bounds _ Long') as [Up' Down'].
    assert (In24 : Forall (fun i => (i < 24)%nat) range24)
      by (apply Forall_forall; intros i Hi; apply in_seq in Hi; lia).
    assert (In24' : Forall (fun i => (i < 24)%nat) range23_down)
      by (apply Forall_forall; intros i Hi; apply in_rev, in_seq in Hi; lia).
    unfold raw_bits.
    rewrite (white_loop_runs _ _ _ Up), (white_loop_runs _ _ _ Up').
    rewrite (runs_firstn_24 (fun p => Z.max 0 p)) by assumption.
    destruct bar as [|b0 [|b1 bar']]; cbn [firstn nth_error].
    + split; [|reflexivity]. split; [intros _; right; cbn; lia|reflexivity].
    + rewrite (black_loop_runs _ _ _ Down), (black_loop_runs _ _ _ Down').
      split; [|reflexivity]. split; [intros _; right; cbn; lia|reflexivity].
    + rewrite (black_loop_runs _ _ _ Down), (black_loop_runs _ _ _ Down').
      rewrite (runs_firstn_24 (fun p => Z.max 0 (- p))) by assumption.
      split; [|reflexivity]. split; [discriminate|].
      intros [H|H]; [lia|cbn in H; lia].
Qed.

(** X4. Exchanging the sides exchanges the halves: on 24 points the bits
    are white's half followed by black's half, and the bits of the
    mirrored board (colours exchanged, points reversed, bars exchanged) are
    black's half followed by white's half. *)
Theorem position_id_mirror (points : list Z) (bar0 bar1 : Z) :
  List.length points = 24%nat ->
  raw_bits points [bar0; bar1]
  = Some (white_half points bar0 ++ black_half points bar1) /\
  raw_bits (mirror points) [bar1; bar0]
  = Some (black_half points bar1 ++ white_half points bar0).
Proof.
  intros L. split; [now apply raw_bits_layout|].
  rewrite raw_bits_layout
    by (unfold mirror; now rewrite length_map, length_rev).
  unfold layout, white_half, black_half, mirror. f_equal. f_equal.
  - f_equal. rewrite flat_map_concat_map, map_map, <- flat_map_concat_map.
    reflexivity.
  - f_equal. rewrite <- map_rev, rev_involutive.
    rewrite flat_map_concat_map, map_map, <- flat_map_concat_map.
    apply flat_map_ext. intros p. now rewrite Z.opp_involutive.
Qed.

Lemma position_id_mirror_witness :
  raw_bits (mirror start_points) [0; 0]
  = Some (black_half start_points 0 ++ white_half start_points 0).
Proof. exact (proj2 (position_id_mirror start_points 0 0 eq_refl)). Defined.

Lemma count_run (c : Z) :
  count_occ Z.eq_dec (run c) 0 = 1%nat /\
  Z.of_nat (count_occ Z.eq_dec (run c) 1) = Z.max 0 c.
Proof.
  unfold run, ones. rewrite !count_occ_app.
  replace (Z.max 0 c) with (Z.of_nat (Z.to_nat c)) by lia.
  induction (Z.to_nat c) as [|n [IH0 IH1]]; [split; reflexivity|].
  cbn [repeat count_occ app] in *.
  destruct (Z.eq_dec 1 0) as [E|_]; [discriminate E|].
  destruct (Z.eq_dec 1 1) as [_|N]; [|contradiction].
  destruct (Z.eq_dec 0 0) as [_|N]; [|contradiction].
  destruct (Z.eq_dec 0 1) as [E|_]; [discriminate E|].
  split; lia.
Qed.

Lemma count_runs (f : Z -> Z) (l : list Z) :
  count_occ Z.eq_dec (flat_map (fun p => run (Z.max 0 (f p))) l) 0
  = List.length l /\
  Z.of_nat (count_occ Z.eq_dec (flat_map (fun p => run (Z.max 0 (f p))) l) 1)
  = Board.py_sum (map (fun p => Z.max 0 (f p)) l).
Proof.
  induction l as [|x l [IH0 IH1]]; [split; reflexivity|].
  cbn [flat_map map List.length]. rewrite !count_occ_app, py_sum_cons.
  destruct (count_run (Z.max 0 (f x))) as [C0 C1].
  rewrite C0, IH0. split; [reflexivity|]. lia.
Qed.

(** X5. On 24 points the bits before truncation hold exactly 50 zeros, the
    ends of the 25 runs of each side, and one 1-bit for every checker on
    the points and on the bar; bits are cut off exactly when more than 30
    checkers are shown. *)
Theorem position_id_bit_counts (points : list Z) (bar0 bar1 : Z) :
  List.length points = 24%nat ->
  exists bits,
    raw_bits points [bar0; bar1] = Some bits /\
    count_occ Z.eq_dec bits 0 = 50%nat /\
    Z.of_nat (count_occ Z.eq_dec bits 1) = checkers_shown points bar0 bar1 /\
    Z.of_nat (List.length bits) = 50 + checkers_shown points bar0 bar1 /\
    (checkers_shown points bar0 bar1 <= 30 ->
     pad80 bits = bits ++ repeat 0 (80 - List.length bits)) /\
    (30 < checkers_shown points bar0 bar1 ->
     pad80 bits = firstn 80 bits /\ (80 < List.length bits)%nat).
Proof.
  intros L. exists (layout points bar0 bar1).
  split; [now apply raw_bits_layout|].
  pose proof (length_layout points bar0 bar1) as Len. rewrite L in Len.
  unfold checkers_shown.
  destruct (count_runs (fun p => p) points) as [W0 W1].
  destruct (count_runs (fun p => - p) (rev points)) as [B0 B1].
  destruct (count_run bar0) as [R0 R1], (count_run bar1) as [S0 S1].
  rewrite map_rev, py_sum_rev in B1. rewrite length_rev in B0.
  repeat apply conj.
  - unfold layout. rewrite !count_occ_app, W0, B0, R0, S0, L. reflexivity.
  - unfold layout. rewrite !count_occ_app, !Nat2Z.inj_add. lia.
  - lia.
  - intros H. apply pad80_short. lia.
  - intros H. split; [apply pad80_long; lia | lia].
Qed.

Lemma position_id_bit_counts_witness :
  exists bits,
    raw_bits start_points [0; 0] = Some bits /\
    count_occ Z.eq_dec bits 0 = 50%nat /\
    Z.of_nat (List.length bits) = 50 + checkers_shown start_points 0 0.
Proof.
  destruct (position_id_bit_counts start_points 0 0 eq_refl)
    as (bits & R & C0 & _ & Len & _).
  exists bits. repeat split; assumption.
Defined.

End CodecFacts.

(* ===================================================================== *)
(** * More on the moves: splitting and transform                           *)
(* ===================================================================== *)

Section MoveFacts.
Import Split Transform Statements MoreStatements.

Lemma split_move_settled (m : MoveResponse) :
  settled m -> split_move m = [m].
Proof.
  unfold settled, split_move. intros [B|[L|G]].
  - rewrite B. now rewrite andb_false_r.
  - replace (die_used m >? 6) with false; [reflexivity|].
    symmetry. rewrite Z.gtb_ltb. apply Z.ltb_ge. exact L.
  - destruct (_ && _); [|reflexivity].
    replace (die_used m <=? 12) with false; [reflexivity|].
    symmetry. apply Z.leb_gt. exact G.
Qed.

(** What one move becomes: itself, or its two halves. *)
Lemma split_move_cases (m : MoveResponse) :
  (settled m /\ split_move m = [m]) \/
  (7 <= die_used m <= 12 /\ is_bear_off m = false /\
   split_move m = halves m (die_used m - 6)).
Proof.
  destruct (is_bear_off m) eqn:B.
  - left. assert (S : settled m) by (left; exact B).
    split; [exact S|now apply split_move_settled].
  - destruct (Z.le_gt_cases (die_used m) 6) as [L|G].
    + left. assert (S : settled m) by (right; left; exact L).
      split; [exact S|now apply split_move_settled].
    + destruct (Z.le_gt_cases (die_used m) 12) as [L|G'].
      * right. repeat split; try lia. apply split_move_compound; [lia|exact B].
      * left. assert (S : settled m) by (right; right; exact G').
        split; [exact S|now apply split_move_settled].
Qed.

Lemma split_move_all_settled (m : MoveResponse) :
  Forall settled (split_move m).
Proof.
  destruct (split_move_cases m) as [(S & ->)|(D & B & ->)].
  - now constructor.
  - unfold halves.
    apply Forall_cons; [right; left; cbn [die_used]; lia|].
    apply Forall_cons; [right; left; cbn [die_used]; lia|].
    apply Forall_nil.
Qed.

Lemma post_process_settled (ms : list MoveResponse) :
  Forall settled ms -> post_process ms = ms.
Proof.
  induction 1 as [|m ms S _ IH]; [reflexivity|].
  unfold post_process in *. cbn [flat_map].
  now rewrite (split_move_settled m S), IH.
Qed.

Lemma post_process_all_settled (ms : list MoveResponse) :
  Forall settled (post_process ms).
Proof.
  induction ms as [|m ms IH]; [constructor|].
  unfold post_process in *. cbn [flat_map].
  apply Forall_app. split; [apply split_move_all_settled|exact IH].
Qed.

(** X6. After the dice-sum splitting no move is left that could be split:
    every move is a bear-off, or has a die of at most 6, or a die above
    12; the splitting therefore changes nothing when it is applied again. *)
Theorem post_process_idempotent (ms : list MoveResponse) :
  Forall settled (post_process ms) /\
  post_process (post_process ms) = post_process ms.
Proof.
  split; [apply post_process_all_settled|].
  apply post_process_settled, post_process_all_settled.
Qed.

Lemma die_total_app (l1 l2 : list MoveResponse) :
  die_total (l1 ++ l2) = die_total l1 + die_total l2.
Proof. unfold die_total. now rewrite map_app, py_sum_app. Qed.

Lemma hits_app (l1 l2 : list MoveResponse) :
  hits (l1 ++ l2) = (hits l1 + hits l2)%nat.
Proof. unfold hits. now rewrite filter_app, length_app. Qed.

Lemma split_move_conserves (m : MoveResponse) :
  die_total (split_move m) = die_used m /\
  hits (split_move m) = hits [m] /\
  (1 <= List.length (split_move m) <= 2)%nat /\
  (exists first rest, split_move m = first :: rest /\
                      from_point first = from_point m) /\
  (exists front last, split_move m = front ++ [last] /\
                      to_point last = to_point m).
Proof.
  destruct (split_move_cases m) as [(S & ->)|(D & B & ->)].
  - split; [|split; [|split; [|split]]].
    + unfold die_total. cbn [map]. rewrite py_sum_cons.
      change (Board.py_sum []) with 0. lia.
    + reflexivity.
    + cbn [List.length]. lia.
    + now exists m, [].
    + now exists [], m.
  - unfold halves. split; [|split; [|split; [|split]]].
    + unfold die_total. cbn [map die_used]. rewrite !py_sum_cons.
      change (Board.py_sum []) with 0. lia.
    + unfold hits. cbn [filter is_hit List.length].
      destruct (is_hit m); reflexivity.
    + cbn [List.length]. lia.
    + eexists. eexists. split; reflexivity.
    + eexists [_]. eexists. split; reflexivity.
Qed.

(** X7. The dice-sum splitting conserves what the moves say: the sum of
    the dice and the number of hits are unchanged, and the list has at
    least as many moves as before and at most twice as many. *)
Theorem post_process_conserves (ms : list MoveResponse) :
  die_total (post_process ms) = die_total ms /\
  hits (post_process ms) = hits ms /\
  (List.length ms <= List.length (post_process ms) <= 2 * List.length ms)%nat.
Proof.
  induction ms as [|m ms (D & H & L)].
  - split; [reflexivity|split; [reflexivity|cbn; lia]].
  - unfold post_process in *. cbn [flat_map].
    destruct (split_move_conserves m) as (Dm & Hm & Lm & _).
    change (m :: ms) with ([m] ++ ms).
    rewrite !die_total_app, !hits_app, !length_app, D, H, Dm, Hm.
    split; [|split; [reflexivity|cbn [List.length]; lia]].
    unfold die_total at 2. cbn [map]. rewrite py_sum_cons.
    change (Board.py_sum []) with 0. lia.
Qed.

(** The dice-sum splitting keeps the moves coherent. *)
Lemma split_move_coherent (m : MoveResponse) :
  coherent m -> Forall coherent (split_move m).
Proof.
  intros C. destruct (split_move_cases m) as [(S & ->)|(D & B & ->)].
  - now constructor.
  - unfold coherent in C. rewrite B in C.
    unfold halves.
    destruct (Z.gtb_spec (to_point m) (from_point m));
      (apply Forall_cons; [|apply Forall_cons; [|apply Forall_nil]]);
      unfold coherent; cbn [is_bear_off die_used from_point to_point];
      lia.
Qed.

Lemma post_process_coherent (ms : list MoveResponse) :
  Forall coherent ms -> Forall coherent (post_process ms).
Proof.
  induction 1 as [|m ms C _ IH]; [constructor|].
  unfold post_process in *. cbn [flat_map].
  apply Forall_app. split; [now apply split_move_coherent|exact IH].
Qed.

(** X8. The transform is the reflection [p -> 25 - p]: the from-point of
    every move becomes [25 - from_point] (the bar case 0 -> 25 included),
    and for a move that is not a bear-off so does the to-point, so that the
    distance between the two points is kept and the direction reversed; a
    point between 1 and 24 stays between 1 and 24.  For a bear-off the
    to-point lies [die_used] beyond the from-point. *)
Theorem transform_move_reflects (m : MoveResponse) :
  from_point (transform_move m) = 25 - from_point m /\
  (1 <= from_point m <= 24 -> 1 <= from_point (transform_move m) <= 24) /\
  (is_bear_off m = false ->
   to_point (transform_move m) = 25 - to_point m /\
   Z.abs (from_point (transform_move m) - to_point (transform_move m))
   = Z.abs (from_point m - to_point m) /\
   (to_point m < from_point m <->
    from_point (transform_move m) < to_point (transform_move m))) /\
  (is_bear_off m = true ->
   to_point (transform_move m) - from_point (transform_move m) = die_used m).
Proof.
  destruct m as [f t d h b]. unfold transform_move.
  cbn [from_point to_point die_used is_hit is_bear_off].
  assert (F : (if f =? 0 then 25 else 25 - f) = 25 - f)
    by (destruct (Z.eqb_spec f 0); lia).
  rewrite F. repeat apply conj; try lia.
  - intros ->. repeat split; lia.
  - intros ->. lia.
Qed.

Lemma transform_move_thrice (m : MoveResponse) :
  transform_move (transform_move (transform_move m)) = transform_move m.
Proof.
  destruct m as [f t d h b]. unfold transform_move.
  cbn [from_point to_point die_used is_hit is_bear_off].
  destruct (Z.eqb_spec f 0) as [->|F]; cbn [Z.eqb];
    [|destruct (Z.eqb_spec (25 - f) 0) as [E|E]; cbn [Z.eqb];
      [|destruct (Z.eqb_spec (25 - (25 - f)) 0); [lia|]]];
    destruct b; f_equal; lia.
Qed.

(** X9. Three applications of the transform of a play are one application,
    and two applications are a projection: applied to their own result they
    change nothing. *)
Theorem transform_play_thrice (p : PlayResponse) :
  transform_play (transform_play (transform_play p)) = transform_play p /\
  transform_play (transform_play (transform_play (transform_play p)))
  = transform_play (transform_play p).
Proof.
  assert (T : forall q,
             transform_play (transform_play (transform_play q))
             = transform_play q).
  { intros q. unfold transform_play. cbn [moves].
    assert (E : map transform_move
                  (map transform_move (map transform_move (moves q)))
                = map transform_move (moves q)).
    { rewrite !map_map. apply map_ext, transform_move_thrice. }
    now rewrite E. }
  split; [apply T|]. now rewrite T.
Qed.

(** The transform on coherent moves. *)
Lemma transform_move_coherent (m : MoveResponse) :
  coherent m -> coherent_for_black (transform_move m).
Proof.
  destruct m as [f t d h b]. unfold coherent, coherent_for_black, transform_move.
  cbn [from_point to_point die_used is_hit is_bear_off].
  destruct b.
  - intros [-> ->]. destruct (Z.eqb_spec f 0); lia.
  - intros ->. destruct (Z.eqb_spec f 0); lia.
Qed.

End MoveFacts.

(* ===================================================================== *)
(** * More on the parsers                                                  *)
(* ===================================================================== *)

Section MoreParseFacts.
Import Str Re ReSpec Parse Split Transform Statements MoreStatements.

(** ** The moves that [_parse_notation] builds *)

Lemma parse_pair_coherent (a b : list ascii) (count : Z)
  (new : list MoveResponse) :
  parse_pair a b count = Ok new -> Forall coherent new.
Proof.
  unfold parse_pair.
  destruct (if eqb_chars (lower (remove_char "*" (strip a))) (chars "bar")
            then Ok 0 else py_int (remove_char "*" (strip a))) as [f|e];
    cbn [bind]; [|discriminate].
  destruct (eqb_chars (lower (remove_char "*" (strip b))) (chars "off"));
    cbn [bind].
  - intros [= <-]. apply Forall_forall. intros m I.
    apply repeat_spec in I. subst m. unfold coherent.
    cbn [is_bear_off to_point die_used from_point]. now split.
  - destruct (py_int (remove_char "*" (strip b))) as [t|e]; cbn [bind];
      [|discriminate].
    intros [= <-]. apply Forall_forall. intros m I.
    apply repeat_spec in I. subst m. reflexivity.
Qed.

Lemma parse_segments_coherent (segments : list (list ascii)) (count : Z) :
  forall moves out,
    Forall coherent moves ->
    parse_segments segments count moves = Ok out -> Forall coherent out.
Proof.
  induction segments as [|a tl IH]; intros moves out F;
    cbn [parse_segments]; [now intros [= <-]|].
  destruct tl as [|b tl']; [now intros [= <-]|].
  destruct (parse_pair a b count) as [new|e] eqn:E; cbn [bind];
    [|discriminate].
  apply IH. apply Forall_app. split; [exact F|].
  eapply parse_pair_coherent; eassumption.
Qed.

Lemma parse_part_coherent (part : list ascii) (moves out : list MoveResponse) :
  Forall coherent moves ->
  parse_part part moves = Ok out -> Forall coherent out.
Proof.
  intros F. unfold parse_part.
  destruct (match search multiplier_pat part with
            | Some m => py_int (group 1 (caps m))
            | None => Ok 1
            end) as [count|e]; cbn [bind]; [|discriminate].
  destruct (2 <=? _)%nat.
  - now apply parse_segments_coherent.
  - now intros [= <-].
Qed.

Lemma parse_parts_coherent (parts : list (list ascii)) :
  forall moves out,
    Forall coherent moves ->
    parse_parts parts moves = Ok out -> Forall coherent out.
Proof.
  induction parts as [|part parts IH]; intros moves out F;
    cbn [parse_parts]; [now intros [= <-]|].
  destruct (parse_part part moves) as [moves'|e] eqn:E; cbn [bind];
    [|discriminate].
  apply IH. eapply parse_part_coherent; eassumption.
Qed.

Lemma parse_notation_moves (s : list ascii) (p : PlayResponse) :
  _parse_notation s = Ok p ->
  exists raw, parse_parts (split_ws s) [] = Ok raw /\
              Forall coherent raw /\
              p = {| moves := post_process raw;
                     notation := string_of_list_ascii s |}.
Proof.
  unfold _parse_notation.
  destruct (parse_parts (split_ws s) []) as [raw|e] eqn:E; cbn [bind];
    [|discriminate].
  intros [= <-]. exists raw. split; [reflexivity|]. split; [|reflexivity].
  eapply parse_parts_coherent; [|exact E]. constructor.
Qed.

(** X10. Whenever [_parse_notation] returns, the notation of the play is
    the text it was given, and every move agrees with itself: a bear-off
    has the placeholder 0 as to-point and the from-point as die, another
    move has the distance between its points as die; and no move is left
    that the dice-sum splitting would split. *)
Theorem parse_notation_coherent (s : list ascii) (p : PlayResponse) :
  _parse_notation s = Ok p ->
  notation p = string_of_list_ascii s /\
  Forall coherent (moves p) /\
  Forall settled (moves p).
Proof.
  intros H. destruct (parse_notation_moves s p H) as (raw & _ & C & ->).
  cbn [notation moves]. split; [reflexivity|]. split.
  - now apply post_process_coherent.
  - apply post_process_all_settled.
Qed.

Lemma parse_notation_coherent_witness :
  Forall coherent (Split.split_move move_1_10).
Proof.
  apply (proj1 (proj2 (parse_notation_coherent (chars "1/10*")
                         {| moves := Split.split_move move_1_10;
                            notation := "1/10*" |} eq_refl))).
Defined.

(** X11. The parser followed by the transform for black: every move of a
    parsed play that is then transformed has a bear-off ending on point 25
    with [25 - from_point] as die, and any other move with the distance
    between its points as die. *)
Theorem parsed_play_for_black (s : list ascii) (p : PlayResponse) :
  _parse_notation s = Ok p ->
  Forall coherent_for_black (moves (transform_play p)).
Proof.
  intros H. destruct (parse_notation_moves s p H) as (raw & _ & C & ->).
  unfold transform_play. cbn [moves].
  apply Forall_map.
  eapply Forall_impl; [|apply post_process_coherent; exact C].
  intros m. apply transform_move_coherent.
Qed.

Lemma parsed_play_for_black_witness :
  Forall coherent_for_black (moves (transform_play bear_off_play)).
Proof.
  apply (parsed_play_for_black (chars "6/off") bear_off_play eq_refl).
Defined.

(** ** A notation without a slash *)

Lemma match_here_reads (r : regex) (before : option ascii) (s : list ascii)
  (st : mstate) :
  match_here r before s = Some st -> exists w, s = w ++ rest st.
Proof.
  unfold match_here. intros H.
  destruct (rmatch_sound _ _ _ _ _ H) as (st' & R & K).
  injection K as ->. apply run_reads in R. exact R.
Qed.

Lemma remove_matches_from_chars (r : regex) (fuel : nat) :
  forall before s x,
    In x (remove_matches_from fuel r before s) -> In x s.
Proof.
  induction fuel as [|fuel IH]; intros before s x; cbn [remove_matches_from];
    [trivial|].
  destruct (match_here r before s) as [st|] eqn:E.
  - destruct (List.length (rest st) <? List.length s)%nat.
    + intros I. apply IH in I.
      destruct (match_here_reads _ _ _ _ E) as (w & ->).
      apply in_or_app. now right.
    + destruct s as [|c tl]; [trivial|].
      intros [->|I]; [now left|right; eapply IH; eassumption].
  - destruct s as [|c tl]; [trivial|].
    intros [->|I]; [now left|right; eapply IH; eassumption].
Qed.

Lemma split_ws_loop_chars (s : list ascii) :
  forall cur part x,
    In part (split_ws_loop s cur) -> In x part -> In x s \/ In x cur.
Proof.
  induction s as [|c tl IH]; intros cur part x; cbn [split_ws_loop].
  - destruct cur as [|a cur]; [intros []|].
    intros [<-|[]] I. right. now apply in_rev.
  - destruct (is_space c).
    + destruct cur as [|a cur].
      * intros P I. destruct (IH _ _ _ P I) as [J|[]]. left. now right.
      * intros [<-|P] I.
        -- right. now apply in_rev.
        -- destruct (IH _ _ _ P I) as [J|[]]. left. now right.
    + intros P I. destruct (IH _ _ _ P I) as [J|[<-|J]].
      * left. now right.
      * left. now left.
      * now right.
Qed.

Lemma split_on_loop_without (sep : ascii) (s : list ascii) :
  without sep s -> forall cur, split_on_loop sep s cur = [rev cur ++ s].
Proof.
  induction s as [|c tl IH]; intros W cur; cbn [split_on_loop].
  - now rewrite app_nil_r.
  - rewrite (W c (or_introl eq_refl)).
    rewrite IH; [|intros x I; apply W; now right].
    cbn [rev]. now rewrite <- app_assoc.
Qed.

Lemma digits_value_nonneg (ds : list ascii) : 0 <= digits_value ds.
Proof.
  unfold digits_value.
  assert (N : forall l acc, 0 <= acc ->
              0 <= fold_left (fun a c => 10 * a + digit_value c) l acc).
  { induction l as [|d l IH]; intros acc A; cbn [fold_left]; [exact A|].
    apply IH. unfold digit_value. lia. }
  apply N. lia.
Qed.

(** The repeat count of a part never raises: the group is a run of
    digits. *)
Lemma multiplier_count (part : list ascii) :
  exists count,
    match search multiplier_pat part with
    | Some m => py_int (group 1 (caps m))
    | None => Ok 1
    end = Ok count /\ 0 <= count.
Proof.
  destruct (search multiplier_pat part) as [st|] eqn:E.
  - apply search_run in E. destruct E as (before & s & R).
    unfold multiplier_pat in R.
    apply run_seq_no_groups in R; [|reflexivity].
    destruct R as (m0 & C0 & m1 & G & R).
    apply run_group_digits in G. destruct G as (w & D & C1).
    apply (run_no_groups (lit ")") eq_refl) in R.
    rewrite R, C1. cbn [group Nat.eqb].
    exists (digits_value w). split; [now apply py_int_digits|].
    apply digits_value_nonneg.
  - exists 1. split; [reflexivity|lia].
Qed.

Lemma parse_part_without_slash (part : list ascii) (moves : list MoveResponse) :
  without "/" part -> parse_part part moves = Ok moves.
Proof.
  intros W. unfold parse_part.
  destruct (multiplier_count part) as (count & -> & _). cbn [bind].
  unfold split_on. rewrite split_on_loop_without; [reflexivity|].
  intros x I. apply W. unfold remove_matches in I.
  eapply remove_matches_from_chars; eassumption.
Qed.

(** X12. A notation in which no slash occurs has no moves: the parser
    returns the play with the empty list of moves and the notation, and
    raises nothing, whatever else the text holds (a repeat count in
    parentheses included). *)
Theorem parse_notation_without_slash (s : list ascii) :
  has_char "/" s = false ->
  _parse_notation s = Ok {| moves := []; notation := string_of_list_ascii s |}.
Proof.
  intros H.
  assert (W : without "/" s).
  { intros x I. unfold has_char in H.
    destruct (Ascii.eqb_spec x "/") as [->|]; [|reflexivity].
    assert (E : existsb (Ascii.eqb "/") s = true)
      by (apply existsb_exists; exists "/"%char; split;
          [exact I|apply Ascii.eqb_refl]).
    congruence. }
  unfold _parse_notation.
  assert (P : forall parts moves,
             (forall part, In part parts -> without "/" part) ->
             parse_parts parts moves = Ok moves).
  { induction parts as [|part parts IH]; intros moves A; cbn [parse_parts];
      [reflexivity|].
    rewrite parse_part_without_slash by (apply A; now left).
    cbn [bind]. apply IH. intros q I. apply A. now right. }
  rewrite P; [reflexivity|].
  intros part I x J. unfold split_ws in I.
  destruct (split_ws_loop_chars _ _ _ _ I J) as [K|[]]. now apply W.
Qed.

Lemma parse_notation_without_slash_witness :
  _parse_notation (chars "Cannot move (2)")
  = Ok {| moves := []; notation := "Cannot move (2)" |}.
Proof.
  apply (parse_notation_without_slash (chars "Cannot move (2)")).
  reflexivity.
Defined.

(** ** The entries of [_parse_evaluation] *)

(** One iteration of the loop appends one entry, or raises. *)
Lemma parse_match_entry (m : mstate) (plays plays' : list RankedPlay) :
  run_from_start move_pat m ->
  parse_match m plays = Ok plays' ->
  exists e, plays' = plays ++ [e] /\ ranked_entry (hd_error plays) e.
Proof.
  intros R. destruct (move_pat_groups m R) as (w1 & w2 & w3 & C & D1 & D3).
  destruct (py_float_decimal w3 D3) as (f & Ef & Nf).
  unfold parse_match. rewrite C.
  cbn [group Nat.eqb]. rewrite (py_int_digits w1 D1), Ef. cbn [bind].
  destruct (_parse_notation (strip w2)) as [p|e]; cbn [bind]; [|discriminate].
  intros [= <-]. eexists. split; [reflexivity|].
  unfold ranked_entry.
  cbn [win_probability rank equity equity_difference].
  split; [reflexivity|]. split; [apply digits_value_nonneg|].
  split; [exact Nf|].
  destruct plays; reflexivity.
Qed.

(** The loop over the matches when the list is not empty any more. *)
Lemma parse_matches_entries (ms : list mstate) :
  Forall (run_from_start move_pat) ms ->
  forall first plays plays',
    parse_matches ms (first :: plays) = Ok plays' ->
    exists new, plays' = first :: plays ++ new /\
                List.length new = List.length ms /\
                Forall (ranked_entry (Some first)) new.
Proof.
  induction 1 as [|m ms R _ IH]; intros first plays plays' H;
    cbn [parse_matches] in H.
  - injection H as <-. exists []. now rewrite app_nil_r.
  - destruct (parse_match m (first :: plays)) as [next|e] eqn:E;
      cbn [bind] in H; [|discriminate].
    destruct (parse_match_entry _ _ _ R E) as (e & -> & Re).
    cbn [app] in H. destruct (IH _ _ _ H) as (new & -> & L & F).
    exists (e :: new). rewrite <- app_assoc. split; [reflexivity|].
    split; [cbn [List.length]; now rewrite L|].
    constructor; assumption.
Qed.

(** X13. Whenever [_parse_evaluation] returns, the list has one entry for
    each matched line, or the single entry for no move when no line
    matched (and then exactly that entry); every entry has the win
    probability 0.5, a rank that is not negative and an equity that is a
    number; the equity difference of the
    first entry is 0.0, and that of every later entry is 0.0 when its rank
    is 1 and the equity of the first entry minus its own otherwise. *)
Theorem parse_evaluation_entries (output : list ascii) (r : EvaluateResponse) :
  _parse_evaluation output = Ok r ->
  exists first others,
    all_plays r = first :: others /\
    List.length (all_plays r)
    = Nat.max 1 (List.length (finditer move_pat output)) /\
    ranked_entry None first /\
    equity_difference first = 0%float /\
    Forall (ranked_entry (Some first)) others /\
    (finditer move_pat output = [] -> all_plays r = [no_move_entry]).
Proof.
  pose proof (finditer_run move_pat output) as F.
  unfold _parse_evaluation.
  destruct (finditer move_pat output) as [|m ms].
  - cbn [parse_matches bind app]. intros [= <-].
    exists no_move_entry, []. cbn [all_plays List.length].
    split; [reflexivity|]. split; [reflexivity|].
    split; [|split; [reflexivity|split; [constructor|reflexivity]]].
    unfold ranked_entry, no_move_entry.
    cbn [win_probability rank equity equity_difference].
    split; [reflexivity|]. split; [lia|]. split; [apply zero_number|].
    reflexivity.
  - inversion F as [|? ? Rm Rms]; subst. cbn [parse_matches].
    destruct (parse_match m []) as [next|e] eqn:E; cbn [bind];
      [|discriminate].
    destruct (parse_match_entry _ _ _ Rm E) as (e & -> & Re).
    cbn [app hd_error] in *.
    destruct (parse_matches ms [e]) as [plays|e'] eqn:E2; cbn [bind];
      [|discriminate].
    destruct (parse_matches_entries ms Rms _ _ _ E2) as (new & -> & L & Fn).
    cbn [app]. intros [= <-]. exists e, new. cbn [all_plays List.length].
    split; [reflexivity|]. split; [now rewrite L|].
    split; [exact Re|]. split; [|split; [exact Fn|discriminate]].
    destruct Re as (_ & _ & _ & D). rewrite D.
    destruct (rank e =? 1); reflexivity.
Qed.

(** A hint of two lines gives two entries, the second one with the
    difference 0.5 - 0.25. *)
Lemma parse_evaluation_entries_witness :
  exists r,
    _parse_evaluation two_plays_hint = Ok r /\
    map rank (all_plays r) = [1; 2] /\
    map equity (all_plays r) = [0.5; 0.25]%float /\
    map equity_difference (all_plays r) = [0; 0.25]%float /\
    exists first others,
      all_plays r = first :: others /\
      List.length (all_plays r)
      = Nat.max 1 (List.length (finditer move_pat two_plays_hint)) /\
      ranked_entry None first /\
      equity_difference first = 0%float /\
      Forall (ranked_entry (Some first)) others /\
      (finditer move_pat two_plays_hint = [] -> all_plays r = [no_move_entry]).
Proof.
  eexists. split; [vm_compute; reflexivity|].
  split; [reflexivity|]. split; [reflexivity|]. split; [reflexivity|].
  apply (parse_evaluation_entries two_plays_hint).
  vm_compute. reflexivity.
Defined.

End MoreParseFacts.

(* ===================================================================== *)
(** * More on the orchestrator                                             *)
(* ===================================================================== *)

Section MoreEngineFacts.
Import Str Re ReSpec Parse Engine PositionId Statements MoreStatements.

(** Closes a branch in which the coroutine has returned: the commands are
    the first ones of the sequence, and no reply before the last command
    raised. *)
Ltac sent_done :=
  cbn [exec app snd];
  split;
  [ first [ exists 0%nat; reflexivity | exists 1%nat; reflexivity
          | exists 2%nat; reflexivity | exists 3%nat; reflexivity
          | exists 4%nat; reflexivity | exists 5%nat; reflexivity
          | exists 6%nat; reflexivity | exists 7%nat; reflexivity ]
  | let k := fresh "k" in
    let e := fresh "e" in
    let Hk := fresh "Hk" in
    intros k e Hk; cbn [List.length app];
    do 7 (try (destruct k as [|k]; [solve [congruence | lia]|]));
    lia ].

Ltac next_reply replies n :=
  let t := fresh "t" in
  let e := fresh "e" in
  let R := fresh "R" in
  destruct (replies n) as [t|e] eqn:R; cbn [exec app snd]; [|sent_done].

Lemma evaluate_try_sent (req : EvaluateRequest) (fb : result EvaluateResponse)
  (replies : nat -> result string) :
  let sent := snd (run_alone (evaluate_try req (Ret fb)) replies) in
  (exists n, sent = firstn n (evaluate_commands req)) /\
  (forall k e, replies k = Raise e -> (List.length sent <= S k)%nat).
Proof.
  unfold run_alone, evaluate_try, send_or, evaluate_commands.
  destruct (_make_position_id (points req) (bar req)) as [pos_id|];
    destruct (nth_error (dice req) 0) as [die0|];
    destruct (nth_error (dice req) 1) as [die1|];
    cbn [exec app snd];
    next_reply replies 0%nat; next_reply replies 1%nat; try sent_done;
    next_reply replies 2%nat;
    (destruct (contains (chars "Illegal") _); [sent_done|]);
    cbn [exec app snd];
    next_reply replies 3%nat; next_reply replies 4%nat; try sent_done;
    next_reply replies 5%nat; next_reply replies 6%nat;
    (destruct (String.eqb _ "" || negb (contains (chars "Eq.:") _));
     [sent_done|]);
    destruct (_parse_evaluation _); sent_done.
Qed.

(** X14. The commands that [evaluate] passes to [_send] are always the
    first ones of one fixed sequence: search depth, new game, set board,
    set turn, show board, set dice, hint.  Nothing is sent in mock mode,
    and nothing is sent after a command has raised. *)
Theorem evaluate_commands_in_order (version : string) (draws : MockDraws)
  (req : EvaluateRequest) (replies : nat -> result string) :
  let sent := snd (run_alone (evaluate version draws req) replies) in
  (exists n, sent = firstn n (evaluate_commands req)) /\
  (forall k e, replies k = Raise e -> (List.length sent <= S k)%nat) /\
  (version = "mock"%string -> sent = []) /\
  (List.length sent <= 7)%nat.
Proof.
  assert (Short : (List.length (evaluate_commands req) <= 7)%nat).
  { unfold evaluate_commands.
    destruct (_make_position_id _ _); [|cbn; lia].
    destruct (nth_error (dice req) 0); [|cbn; lia].
    destruct (nth_error (dice req) 1); cbn; lia. }
  assert (Nothing : forall r : result EvaluateResponse,
             let sent := snd (r, @nil string) in
             (exists n, sent = firstn n (evaluate_commands req)) /\
             (forall k e, replies k = Raise e ->
                          (List.length sent <= S k)%nat) /\
             (version = "mock"%string -> sent = []) /\
             (List.length sent <= 7)%nat).
  { intros r. cbn [snd List.length]. split; [now exists 0%nat|].
    split; [intros; lia|]. split; [reflexivity|lia]. }
  unfold evaluate. destruct (String.eqb_spec version "mock") as [->|Real].
  - apply Nothing.
  - rewrite run_with_lock. unfold evaluate_locked.
    destruct (Board.white_count _ _ _) as [w|]; [|apply Nothing].
    destruct (Board.black_count _ _ _) as [b|]; [|apply Nothing].
    destruct (negb (w =? 15) || negb (b =? 15)); [apply Nothing|].
    destruct (evaluate_try_sent req (_mock_evaluate req draws) replies)
      as ((n & E) & Stop).
    cbv zeta. split; [now exists n|]. split; [exact Stop|].
    split; [contradiction|].
    rewrite E, length_firstn. lia.
Qed.

(** X15. The path of [evaluate] on which nothing goes wrong: with an
    engine that is not in mock mode, fifteen checkers on each side, seven
    answered commands, a reply to "set board" without "Illegal" and a hint
    with the marker "Eq.:" that parses, [evaluate] returns the parsed
    result, transformed when black is on roll, and has sent the seven
    commands of the sequence. *)
Theorem evaluate_success (version : string) (draws : MockDraws)
  (req : EvaluateRequest) (replies : nat -> result string)
  (set_result output : string) (result : EvaluateResponse) :
  valid_request req ->
  version <> "mock"%string ->
  Board.white_count (points req) (bar req) (borne_off req) = Some 15 ->
  Board.black_count (points req) (bar req) (borne_off req) = Some 15 ->
  all_ok replies 7 ->
  replies set_board_reply = Ok set_result ->
  contains (chars "Illegal") (chars set_result) = false ->
  replies hint_reply = Ok output ->
  contains (chars "Eq.:") (chars output) = true ->
  _parse_evaluation (chars output) = Ok result ->
  run_alone (evaluate version draws req) replies
  = (Ok (if String.eqb (player req) "black"
         then Transform._transform_for_black result else result),
     evaluate_commands req) /\
  List.length (evaluate_commands req) = 7%nat.
Proof.
  intros (Hp & Hb & _ & Hd & _) Real W B All Rs Ill Rh Mk P.
  assert (Pos : exists pos_id,
             _make_position_id (points req) (bar req) = Some pos_id).
  { destruct (bar req) as [|b0 [|b1 [|? ?]]]; try discriminate Hb.
    unfold _make_position_id. rewrite (raw_bits_layout _ _ _ Hp).
    eexists. reflexivity. }
  destruct Pos as (pos_id & Pos).
  destruct (dice req) as [|die0 [|die1 [|? ?]]] eqn:D; try discriminate Hd.
  assert (Ne : String.eqb output "" = false).
  { destruct output; [discriminate Mk|reflexivity]. }
  unfold evaluate. destruct (String.eqb_spec version "mock"); [contradiction|].
  rewrite run_with_lock. unfold evaluate_locked. rewrite W, B.
  cbn [Z.eqb Pos.eqb negb orb].
  unfold run_alone, evaluate_try, send_or, evaluate_commands.
  rewrite Pos, D. cbn [nth_error exec app].
  destruct (All 0%nat) as (t0 & ->); [lia|]. cbn [exec app].
  destruct (All 1%nat) as (t1 & ->); [lia|]. cbn [exec app].
  unfold set_board_reply in Rs. rewrite Rs, Ill. cbn [exec app].
  destruct (All 3%nat) as (t3 & ->); [lia|]. cbn [exec app].
  destruct (All 4%nat) as (t4 & ->); [lia|]. cbn [exec app].
  destruct (All 5%nat) as (t5 & ->); [lia|]. cbn [exec app].
  unfold hint_reply in Rh. rewrite Rh, Ne, Mk, P. cbn [negb orb exec].
  split; reflexivity.
Qed.

Lemma evaluate_success_witness :
  exists result,
    _parse_evaluation (chars one_play_hint) = Ok result /\
    run_alone (evaluate "1.0.0" some_draws start_request) hint_replies
    = (Ok result, evaluate_commands start_request).
Proof.
  eexists. split; [vm_compute; reflexivity|].
  apply (evaluate_success "1.0.0" some_draws start_request hint_replies
           "" one_play_hint).
  - exact start_request_valid.
  - discriminate.
  - reflexivity.
  - reflexivity.
  - intros k Hk. unfold hint_replies.
    destruct (k =? 6)%nat; eexists; reflexivity.
  - reflexivity.
  - reflexivity.
  - reflexivity.
  - reflexivity.
  - vm_compute. reflexivity.
Defined.

(** ** [evaluate_cube] *)

Lemma parse_cube_returns (output : list ascii) :
  exists resp, _parse_cube output = Ok resp.
Proof.
  unfold _parse_cube.
  destruct (equity_or_number nd_pat output 0%float nd_pat_tail zero_number)
    as (nd & -> & _).
  destruct (equity_or_number dt_pat output 0%float dt_pat_tail zero_number)
    as (dt & -> & _).
  destruct (equity_or_number dp_pat output 1%float dp_pat_tail one_number)
    as (dp & -> & _).
  cbn [bind]. eexists. reflexivity.
Qed.

(** X16. [evaluate_cube] returns a response for every request, every
    version and every sequence of replies: the mock response, or what
    [_parse_cube] reads in the reply to "hint cube".  The commands it sends
    are the first ones of one fixed sequence, nothing is sent in mock mode
    and nothing after a command has raised; when the seven commands are
    answered and the position can be encoded, the response is the parsed
    one and all seven commands were sent. *)
Theorem evaluate_cube_outcome (version : string) (draws : MockDraws)
  (req : CubeRequest) (replies : nat -> result string) :
  let out := run_alone (evaluate_cube version draws req) replies in
  (exists resp, fst out = Ok resp /\
     (resp = _mock_cube draws \/
      exists output, replies 6%nat = Ok output /\
                     _parse_cube (chars output) = Ok resp)) /\
  (exists n, snd out = firstn n (cube_commands req)) /\
  (forall k e, replies k = Raise e -> (List.length (snd out) <= S k)%nat) /\
  (version = "mock"%string -> out = (Ok (_mock_cube draws), [])) /\
  (version <> "mock"%string -> all_ok replies 7 ->
   (24 <= List.length (cube_points req))%nat ->
   (2 <= List.length (cube_bar req))%nat ->
   List.length (snd out) = 7%nat /\
   exists output, replies 6%nat = Ok output /\
                  fst out = _parse_cube (chars output)).
Proof.
  unfold evaluate_cube. destruct (String.eqb_spec version "mock") as [->|Real].
  - cbn [run_alone exec fst snd]. split; [eexists; split; [reflexivity|now left]|].
    split; [now exists 0%nat|]. split; [intros; cbn; lia|].
    split; [reflexivity|contradiction].
  - rewrite run_with_lock.
    unfold run_alone, _setup_position, send_or, cube_commands.
    assert (Mock : exists resp, Ok (_mock_cube draws) = Ok resp /\
                     (resp = _mock_cube draws \/
                      exists output, replies 6%nat = Ok output /\
                                     _parse_cube (chars output) = Ok resp))
      by (eexists; split; [reflexivity|now left]).
    assert (Reads : (24 <= List.length (cube_points req))%nat ->
                    (2 <= List.length (cube_bar req))%nat ->
                    setup_reads (cube_points req) (cube_bar req) = true /\
                    exists pos_id, _make_position_id (cube_points req)
                                     (cube_bar req) = Some pos_id).
    { intros Lp Lb. split.
      - unfold setup_reads.
        destruct (cube_bar req) as [|b0 [|b1 ?]]; cbn in Lb; try lia.
        cbn [nth_error]. now apply Nat.leb_le.
      - destruct (_make_position_id (cube_points req) (cube_bar req))
          as [pos_id|] eqn:E; [now exists pos_id|].
        exfalso. unfold _make_position_id in E.
        destruct (raw_bits (cube_points req) (cube_bar req)) as [bits|] eqn:Rb;
          [discriminate|].
        rewrite <- (firstn_skipn 2 (cube_bar req)) in Rb.
        destruct (cube_bar req) as [|b0 [|b1 tl]]; cbn in Lb; try lia.
        cbn [firstn skipn app] in Rb. unfold raw_bits in Rb.
        destruct (range24_in_bounds _ Lp) as [Up Down].
        rewrite (white_loop_runs _ _ _ Up) in Rb. cbn [nth_error] in Rb.
        rewrite (black_loop_runs _ _ _ Down) in Rb. discriminate Rb. }
    cbn [exec app fst snd].
    destruct (replies 0%nat) as [t0|e0] eqn:R0; cbn [exec app fst snd].
    2:{ split; [exact Mock|]. split; [|split; [|split]]; try sent_done.
        - now exists 1%nat.
        - intros k e Hk. cbn. lia.
        - contradiction.
        - intros _ All. destruct (All 0%nat) as (? & ?); [lia|congruence]. }
    destruct (replies 1%nat) as [t1|e1] eqn:R1; cbn [exec app fst snd].
    2:{ split; [exact Mock|]. split; [now exists 2%nat|].
        split; [intros [|k] e Hk; [congruence|cbn; lia]|].
        split; [contradiction|].
        intros _ All. destruct (All 1%nat) as (? & ?); [lia|congruence]. }
    destruct (replies 2%nat) as [t2|e2] eqn:R2; cbn [exec app fst snd].
    2:{ split; [exact Mock|]. split; [now exists 3%nat|].
        split; [intros [|[|k]] e Hk; [congruence|congruence|cbn; lia]|].
        split; [contradiction|].
        intros _ All. destruct (All 2%nat) as (? & ?); [lia|congruence]. }
    destruct (replies 3%nat) as [t3|e3] eqn:R3; cbn [exec app fst snd].
    2:{ split; [exact Mock|]. split; [now exists 4%nat|].
        split; [intros [|[|[|k]]] e Hk; [congruence|congruence|congruence|cbn; lia]|].
        split; [contradiction|].
        intros _ All. destruct (All 3%nat) as (? & ?); [lia|congruence]. }
    destruct (setup_reads (cube_points req) (cube_bar req)) eqn:Sr.
    2:{ cbn [exec app fst snd]. split; [exact Mock|].
        split; [now exists 4%nat|].
        split; [intros [|[|[|[|k]]]] e Hk; try congruence; cbn; lia|].
        split; [contradiction|].
        intros _ _ Lp Lb. destruct (Reads Lp Lb) as [? _]. congruence. }
    destruct (_make_position_id (cube_points req) (cube_bar req))
      as [pos_id|] eqn:Pid.
    2:{ cbn [exec app fst snd]. split; [exact Mock|].
        split; [now exists 4%nat|].
        split; [intros [|[|[|[|k]]]] e Hk; try congruence; cbn; lia|].
        split; [contradiction|].
        intros _ _ Lp Lb. destruct (Reads Lp Lb) as [_ (? & ?)]. congruence. }
    cbn [exec app fst snd].
    destruct (replies 4%nat) as [t4|e4] eqn:R4; cbn [exec app fst snd].
    2:{ split; [exact Mock|]. split; [now exists 5%nat|].
        split; [intros [|[|[|[|[|k]]]]] e Hk; try congruence; cbn; lia|].
        split; [contradiction|].
        intros _ All. destruct (All 4%nat) as (? & ?); [lia|congruence]. }
    destruct (replies 5%nat) as [t5|e5] eqn:R5; cbn [exec app fst snd].
    2:{ split; [exact Mock|]. split; [now exists 6%nat|].
        split; [intros [|[|[|[|[|[|k]]]]]] e Hk; try congruence; cbn; lia|].
        split; [contradiction|].
        intros _ All. destruct (All 5%nat) as (? & ?); [lia|congruence]. }
    destruct (replies 6%nat) as [t6|e6] eqn:R6; cbn [exec app fst snd].
    2:{ split; [exact Mock|]. split; [now exists 7%nat|].
        split; [intros [|[|[|[|[|[|[|k]]]]]]] e Hk; try congruence; cbn; lia|].
        split; [contradiction|].
        intros _ All. destruct (All 6%nat) as (? & ?); [lia|congruence]. }
    destruct (parse_cube_returns (chars t6)) as (resp & Pc). rewrite Pc.
    cbn [exec fst snd].
    split; [exists resp; split; [reflexivity|right; now exists t6]|].
    split; [now exists 7%nat|].
    split; [intros [|[|[|[|[|[|[|k]]]]]]] e Hk; try congruence; cbn; lia|].
    split; [contradiction|].
    intros _ _ _ _. split; [reflexivity|]. exists t6. split; [reflexivity|].
    now rewrite Pc.
Qed.

(** The cube decision on the opening position, with every command
    answered. *)
Example evaluate_cube_on_start :
  run_alone (evaluate_cube "1.0.0" some_draws start_cube_request) cube_replies
  = (_parse_cube (chars cube_hint), cube_commands start_cube_request).
Proof. vm_compute. reflexivity. Qed.

End MoreEngineFacts.

(* ===================================================================== *)
(** * More on the mock strategy                                            *)
(* ===================================================================== *)

Section MockFacts.
Import Str Parse Engine Statements MoreStatements.

(** ** The occupied points *)

Lemma occupied_loop_in (pts : list Z) (w b : bool) (idxs : list nat) :
  forall acc occ,
    occupied_loop pts w b idxs acc = Some occ ->
    forall pt, In pt occ ->
      In pt acc \/
      exists i val, In i idxs /\ pt = Z.of_nat i + 1 /\
                    nth_error pts i = Some val /\
                    (w && (val >? 0) || b && (val <? 0)) = true.
Proof.
  induction idxs as [|i idxs IH]; intros acc occ H pt I;
    cbn [occupied_loop] in H.
  - injection H as <-. now left.
  - destruct (nth_error pts i) as [val|] eqn:E; [|discriminate].
    destruct (w && (val >? 0) || b && (val <? 0)) eqn:C.
    + destruct (IH _ _ H pt I) as [J|(j & v & Ij & Ep & En & Ec)].
      * apply in_app_or in J. destruct J as [J|[<-|[]]]; [now left|].
        right. exists i, val.
        split; [now left|]. split; [reflexivity|]. split; assumption.
      * right. exists j, v.
        split; [now right|]. split; [exact Ep|]. split; assumption.
    + destruct (IH _ _ H pt I) as [J|(j & v & Ij & Ep & En & Ec)];
        [now left|].
      right. exists j, v.
      split; [now right|]. split; [exact Ep|]. split; assumption.
Qed.

Lemma occupied_loop_nodup (pts : list Z) (w b : bool) (idxs : list nat) :
  forall acc occ,
    occupied_loop pts w b idxs acc = Some occ ->
    NoDup acc -> NoDup idxs ->
    (forall i, In i idxs -> ~ In (Z.of_nat i + 1) acc) ->
    NoDup occ.
Proof.
  induction idxs as [|i idxs IH]; intros acc occ H Na Ni Fresh;
    cbn [occupied_loop] in H.
  - injection H as <-. exact Na.
  - inversion Ni as [|? ? Notin Ni']; subst.
    destruct (nth_error pts i) as [val|]; [|discriminate].
    destruct (w && (val >? 0) || b && (val <? 0)).
    + apply (IH _ _ H).
      * apply NoDup_app; [exact Na|repeat constructor; intros []|].
        intros a Ia [<-|[]]. apply (Fresh i); [now left|exact Ia].
      * exact Ni'.
      * intros j Ij Hin. apply in_app_or in Hin.
        destruct Hin as [Hin|[Eq|[]]].
        -- apply (Fresh j); [now right|exact Hin].
        -- assert (i = j) by lia. subst j. contradiction.
    + apply (IH _ _ H); [exact Na|exact Ni'|].
      intros j Ij. apply Fresh. now right.
Qed.

Lemma occupied_loop_none (pts : list Z) (w b : bool) (idxs : list nat) :
  (exists i, In i idxs /\ (List.length pts <= i)%nat) ->
  forall acc, occupied_loop pts w b idxs acc = None.
Proof.
  induction idxs as [|i idxs IH]; intros (j & I & L) acc; [destruct I|].
  cbn [occupied_loop].
  destruct (nth_error pts i) as [val|] eqn:E; [|reflexivity].
  assert (Other : exists k, In k idxs /\ (List.length pts <= k)%nat).
  { destruct I as [<-|I]; [|now exists j].
    assert (i < List.length pts)%nat
      by (apply nth_error_Some; congruence).
    lia. }
  destruct (w && (val >? 0) || b && (val <? 0)); now apply IH.
Qed.

Lemma occupied_point (req : EvaluateRequest) (occ : list Z) (pt : Z) :
  occupied_loop (points req) (String.eqb (player req) "white")
    (String.eqb (player req) "black") (seq 0 24) [] = Some occ ->
  In pt occ -> occupied_by req pt.
Proof.
  intros H I.
  destruct (occupied_loop_in _ _ _ _ _ _ H pt I)
    as [[]|(i & val & Ii & -> & En & C)].
  apply in_seq in Ii. unfold occupied_by. split; [lia|].
  exists val. split.
  - replace (Z.to_nat (Z.of_nat i + 1 - 1)) with i by lia. exact En.
  - apply orb_prop in C. destruct C as [C|C]; apply andb_prop in C;
      destruct C as [P V].
    + left. split; [now apply String.eqb_eq|].
      rewrite Z.gtb_ltb in V. now apply Z.ltb_lt.
    + right. split; [now apply String.eqb_eq|]. now apply Z.ltb_lt.
Qed.

Lemma random_choice_in (l : list Z) (pick : nat) :
  l <> [] -> In (random_choice l pick) l.
Proof.
  intros N. unfold random_choice. apply nth_In.
  apply Nat.mod_upper_bound. destruct l; [contradiction|discriminate].
Qed.

(** Among two or more distinct points there is one that is not [src]. *)
Lemma others_not_empty (occ : list Z) (src : Z) :
  NoDup occ -> (1 < List.length occ)%nat ->
  filter (fun p => negb (p =? src)) occ <> [].
Proof.
  intros N L. destruct occ as [|a [|b tl]]; cbn [List.length] in L; try lia.
  inversion N as [|? ? Notin _]; subst. cbn [filter].
  destruct (Z.eqb_spec a src) as [->|]; cbn [negb]; [|discriminate].
  destruct (Z.eqb_spec b src) as [->|]; cbn [negb]; [|discriminate].
  exfalso. apply Notin. now left.
Qed.

Lemma in_board_bounds (p : Z) : in_board p = true -> 1 <= p <= 24.
Proof.
  unfold in_board. intros H. apply andb_prop in H. destruct H as [A B].
  apply Z.leb_le in A. apply Z.leb_le in B. lia.
Qed.

Lemma plain_move_mock (req : EvaluateRequest) (src die : Z) :
  occupied_by req src -> In die (dice req) ->
  in_board (src + die * mock_direction req) = true ->
  mock_move req (plain_move src (src + die * mock_direction req) die).
Proof.
  intros O D B. unfold mock_move, plain_move.
  cbn [from_point to_point die_used is_hit is_bear_off].
  split; [exact O|]. split; [exact D|]. split; [reflexivity|].
  split; [now apply in_board_bounds|]. split; reflexivity.
Qed.

(** X17. What the mock strategy returns: one or two ranked plays, the
    first with rank 1 and the equity difference 0.0, the second with rank
    2 and a single move by the first die; the best play and the best
    equity are those of the first; every play has at most two moves and
    the win probability 0.5, and every move takes a checker from a point
    that the player on roll occupies, by one of the two dice, in the
    player's direction, to a point between 1 and 24, and is neither a hit
    nor a bear-off.  The second play starts from another point than the
    one drawn for the first. *)
Theorem mock_evaluate_plays (req : EvaluateRequest) (draws : MockDraws)
  (resp : EvaluateResponse) :
  _mock_evaluate req draws = Ok resp ->
  exists first others,
    all_plays resp = first :: others /\
    best_play resp = play first /\
    best_equity resp = equity first /\
    rank first = 1 /\
    equity_difference first = 0%float /\
    (others = [] \/
     exists second m,
       others = [second] /\ rank second = 2 /\
       moves (play second) = [m] /\
       die_used m = nth 0 (dice req) 0 /\
       Forall (fun m1 => from_point m1 <> from_point m)
              (moves (play first))) /\
    Forall (mock_entry req) (all_plays resp).
Proof.
  unfold _mock_evaluate.
  destruct (dice req) as [|d1 [|d2 [|? ?]]] eqn:D; try discriminate.
  destruct (occupied_loop (points req) _ _ (seq 0 24) [])
    as [occ|] eqn:Occ; [|discriminate].
  assert (Dir : (if String.eqb (player req) "white" then -1 else 1)
                = mock_direction req) by reflexivity.
  cbv zeta. rewrite !Dir.
  destruct occ as [|o occ'] eqn:Eocc.
  - (* no occupied point *)
    intros [= <-]. exists no_move_entry, [].
    cbn [all_plays best_play best_equity].
    repeat apply conj; try reflexivity; [now left|].
    constructor; [|constructor].
    unfold mock_entry, no_move_entry. cbn. repeat apply conj;
      [reflexivity|lia|constructor].
  - rewrite <- Eocc in *.
    assert (Ne : occ <> []) by (rewrite Eocc; discriminate).
    set (src := random_choice occ (choice_src draws)).
    assert (Osrc : occupied_by req src)
      by (eapply occupied_point; [exact Occ|now apply random_choice_in]).
    assert (In1 : In d1 (dice req)) by (rewrite D; now left).
    assert (In2 : In d2 (dice req)) by (rewrite D; right; now left).
    set (first_moves :=
           (if in_board (src + d1 * mock_direction req)
            then [plain_move src (src + d1 * mock_direction req) d1] else [])
           ++ (if in_board (src + d2 * mock_direction req)
               then [plain_move src (src + d2 * mock_direction req) d2]
               else [])).
    assert (First : (List.length first_moves <= 2)%nat /\
                    Forall (mock_move req) first_moves /\
                    Forall (fun m => from_point m = src) first_moves).
    { unfold first_moves.
      destruct (in_board (src + d1 * mock_direction req)) eqn:B1;
        destruct (in_board (src + d2 * mock_direction req)) eqn:B2;
        cbn [app List.length];
        (split; [lia|]);
        (split; repeat constructor; try (now apply plain_move_mock)). }
    destruct First as (Len & Fm & Fs).
    set (others := filter (fun p => negb (p =? src)) occ).
    set (src2 := random_choice others (choice_src2 draws)).
    destruct (1 <? List.length occ)%nat eqn:More.
    + apply Nat.ltb_lt in More.
      assert (No : others <> []).
      { apply others_not_empty; [|exact More].
        eapply occupied_loop_nodup; [exact Occ|constructor|apply seq_NoDup|].
        intros i _ []. }
      assert (I2 : In src2 others) by (now apply random_choice_in).
      apply filter_In in I2. destruct I2 as [I2 Neq].
      apply negb_true_iff, Z.eqb_neq in Neq.
      assert (O2 : occupied_by req src2)
        by (eapply occupied_point; [exact Occ|exact I2]).
      destruct (in_board (src2 + d1 * mock_direction req)) eqn:B3.
      * cbv beta iota. intros [= <-]. eexists. eexists.
        cbn [all_plays best_play best_equity play equity rank
             equity_difference].
        split; [reflexivity|]. split; [reflexivity|]. split; [reflexivity|].
        split; [reflexivity|]. split; [reflexivity|]. split.
        -- right. eexists. eexists. split; [reflexivity|].
           cbn [rank play moves]. split; [reflexivity|].
           split; [reflexivity|]. split; [reflexivity|].
           cbn [plain_move from_point].
           eapply Forall_impl; [|exact Fs].
           intros m ->. congruence.
        -- constructor; [|constructor; [|constructor]].
           ++ unfold mock_entry. cbn [win_probability play moves].
              split; [reflexivity|]. split; assumption.
           ++ unfold mock_entry. cbn [win_probability play moves List.length].
              split; [reflexivity|]. split; [lia|].
              constructor; [|constructor]. now apply plain_move_mock.
      * cbv beta iota. intros [= <-]. eexists. exists [].
        cbn [all_plays best_play best_equity play equity rank
             equity_difference].
        split; [reflexivity|]. split; [reflexivity|]. split; [reflexivity|].
        split; [reflexivity|]. split; [reflexivity|]. split; [now left|].
        constructor; [|constructor].
        unfold mock_entry. cbn [win_probability play moves].
        split; [reflexivity|]. split; assumption.
    + cbv beta iota. intros [= <-]. eexists. exists [].
      cbn [all_plays best_play best_equity play equity rank
           equity_difference].
      split; [reflexivity|]. split; [reflexivity|]. split; [reflexivity|].
      split; [reflexivity|]. split; [reflexivity|]. split; [now left|].
      constructor; [|constructor].
      unfold mock_entry. cbn [win_probability play moves].
      split; [reflexivity|]. split; assumption.
Qed.

Lemma mock_evaluate_plays_witness :
  exists resp,
    _mock_evaluate start_request some_draws = Ok resp /\
    exists first others,
      all_plays resp = first :: others /\
      best_play resp = play first /\
      best_equity resp = equity first /\
      rank first = 1 /\
      equity_difference first = 0%float /\
      (others = [] \/
       exists second m,
         others = [second] /\ rank second = 2 /\
         moves (play second) = [m] /\
         die_used m = nth 0 (dice start_request) 0 /\
         Forall (fun m1 => from_point m1 <> from_point m)
                (moves (play first))) /\
      Forall (mock_entry start_request) (all_plays resp).
Proof.
  eexists. split; [vm_compute; reflexivity|].
  apply (mock_evaluate_plays start_request some_draws).
  vm_compute. reflexivity.
Defined.

(** X18. The mock strategy raises in two cases only: ValueError when the
    request does not have exactly two dice, and otherwise IndexError when
    it has fewer than 24 points. *)
Theorem mock_evaluate_raises (req : EvaluateRequest) (draws : MockDraws) :
  (_mock_evaluate req draws = Raise ValueError <->
   List.length (dice req) <> 2%nat) /\
  (_mock_evaluate req draws = Raise IndexError <->
   List.length (dice req) = 2%nat /\ (List.length (points req) < 24)%nat) /\
  (forall e, _mock_evaluate req draws = Raise e ->
             e = ValueError \/ e = IndexError).
Proof.
  unfold _mock_evaluate.
  destruct (dice req) as [|d1 [|d2 [|d3 tl]]]; cbn [List.length].
  1,2,4: split; [split; [intros _; lia|reflexivity]|];
         split; [split; [discriminate|intros [? _]; lia]|];
         intros e [= <-]; now left.
  destruct (Nat.lt_ge_cases (List.length (points req)) 24) as [Short|Long].
  - rewrite occupied_loop_none.
    2:{ exists 23%nat. split; [apply in_seq; lia|lia]. }
    split; [split; [discriminate|intros H; now contradiction H]|].
    split; [split; [intros _; now split|reflexivity]|].
    intros e [= <-]; now right.
  - destruct (occupied_loop_some (points req)
                (String.eqb (player req) "white")
                (String.eqb (player req) "black") (seq 0 24)) with (acc := @nil Z)
      as (occ & ->).
    { apply Forall_forall. intros i Hi. apply in_seq in Hi. lia. }
    match goal with
    | |- context [match ?X with [] => [no_move_entry] | _ :: _ => _ end] =>
        destruct X as [|first others]
    end;
      (split; [split; [discriminate|intros H; now contradiction H]|]);
      (split; [split; [discriminate|intros [_ ?]; lia]|]);
      discriminate.
Qed.

End MockFacts.

(* ===================================================================== *)
(** * The start of the engine and the two modes                            *)
(* ===================================================================== *)

Section LifecycleFacts.
Import Str Re ReSpec Parse Engine Lifecycle Statements MoreStatements.

(** The version read in the banner is a run of digits and dots. *)
Lemma banner_version_text (banner : list ascii) :
  banner_version banner = "unknown"%string \/
  exists w, w <> [] /\ forallb digit_or_dot w = true /\
            banner_version banner = string_of_list_ascii w.
Proof.
  unfold banner_version.
  destruct (search version_pat banner) as [vm|] eqn:E; [|now left].
  right. apply search_run in E. destruct E as (before & s & R).
  unfold version_pat in R.
  apply run_seq_no_groups in R; [|reflexivity]. destruct R as (m0 & C0 & R).
  apply run_seq_no_groups in R; [|reflexivity]. destruct R as (m1 & C1 & R).
  apply run_group in R. destruct R as (st1 & w & R & E & _ & C).
  destruct (run_plus_chr _ _ _ R) as (w' & N & F & E' & C').
  rewrite E' in E. apply app_inv_tail in E. subst w'.
  exists w. rewrite C. cbn [group Nat.eqb]. auto.
Qed.

Lemma banner_version_not_mock (banner : list ascii) :
  banner_version banner <> "mock"%string.
Proof.
  destruct (banner_version_text banner) as [->|(w & _ & F & ->)];
    [discriminate|].
  intros H.
  assert (E : w = chars "mock").
  { rewrite <- (list_ascii_of_string_of_list_ascii w). now rewrite H. }
  subst w. discriminate F.
Qed.

(** X19. The start of the engine.  The version read in a banner is never
    "mock".  When [start] returns, the engine is ready, and its version is
    "mock" or the one of the banner; it is "mock" only after a
    FileNotFoundError, raised when the process is created or by one of the
    two commands.  The first exception decides: a FileNotFoundError, from
    the creation of the process or from a command whose predecessors were
    answered, puts the engine in mock mode, and an exception of any other
    class leaves [start], which raises it; conversely [start] raises
    nothing else.  With a process and two answered commands the version is
    that of the banner and the two commands were sent.  An engine that was
    started from a process therefore never takes the mock path of
    [evaluate] at once: it takes the lock. *)
Theorem start_outcome (spawned : spawn) (banner : list ascii)
  (replies : nat -> result string) :
  let out := run_alone (start spawned banner) replies in
  banner_version banner <> "mock"%string /\
  (forall st, fst out = Ok st ->
     ready st = true /\
     (version st = "mock"%string \/ version st = banner_version banner) /\
     (version st = "mock"%string ->
      exists e, is_file_not_found e = true /\
                (spawned = SpawnRaises e \/
                 exists k, (k < 2)%nat /\ replies k = Raise e)) /\
     (version st <> "mock"%string ->
      forall draws req,
        evaluate (version st) draws req
        = with_lock (evaluate_locked req draws))) /\
  (forall e, fst out = Raise e ->
     is_file_not_found e = false /\
     (spawned = SpawnRaises e \/
      exists k, (k < 2)%nat /\ replies k = Raise e)) /\
  (spawned = Spawned -> all_ok replies 2 ->
   out = (Ok {| version := banner_version banner; ready := true |},
          [ "set evaluation chequer eval plies 2"%string;
            "set evaluation cubedecision eval plies 2"%string ])) /\
  (forall e,
     spawned = SpawnRaises e \/
     (spawned = Spawned /\ replies 0%nat = Raise e) \/
     (spawned = Spawned /\ (exists text, replies 0%nat = Ok text) /\
      replies 1%nat = Raise e) ->
     (is_file_not_found e = false -> fst out = Raise e) /\
     (is_file_not_found e = true ->
      fst out = Ok {| version := "mock"; ready := true |})).
Proof.
  assert (First : forall e,
            (is_file_not_found e = false -> start_handler e = Raise e) /\
            (is_file_not_found e = true ->
             start_handler e = Ok {| version := "mock"; ready := true |})).
  { intros e. unfold start_handler.
    destruct (is_file_not_found e); split; intros H;
      try discriminate H; reflexivity. }
  pose proof (banner_version_not_mock banner) as NotMock.
  assert (Lock : forall v, v <> "mock"%string ->
            forall draws req,
              evaluate v draws req = with_lock (evaluate_locked req draws)).
  { intros v Hv draws req. unfold evaluate.
    destruct (String.eqb_spec v "mock"); [contradiction|reflexivity]. }
  assert (Handler : forall e (cause : Prop), cause ->
    (forall st, start_handler e = Ok st ->
       ready st = true /\
       (version st = "mock"%string \/ version st = banner_version banner) /\
       (version st = "mock"%string ->
        exists e', is_file_not_found e' = true /\ e' = e) /\
       (version st <> "mock"%string ->
        forall draws req,
          evaluate (version st) draws req
          = with_lock (evaluate_locked req draws))) /\
    (forall e', start_handler e = Raise e' ->
       is_file_not_found e' = false /\ e' = e)).
  { intros e cause _. unfold start_handler.
    destruct (is_file_not_found e) eqn:F; split.
    - intros st [= <-]. cbn [ready version].
      split; [reflexivity|]. split; [now left|].
      split; [intros _; now exists e|]. intros H. now contradiction H.
    - discriminate.
    - discriminate.
    - intros e' [= <-]. now split. }
  unfold run_alone, start. destruct spawned as [|e0].
  - cbn [exec app].
    destruct (replies 0%nat) as [t0|e0] eqn:R0; cbn [exec app fst snd].
    + destruct (replies 1%nat) as [t1|e1] eqn:R1; cbn [exec app fst snd].
      * split; [exact NotMock|]. split; [|split; [|split]].
        -- intros st [= <-]. cbn [ready version].
           split; [reflexivity|]. split; [now right|].
           split; [intros H; now contradiction NotMock|].
           intros _. now apply Lock.
        -- discriminate.
        -- reflexivity.
        -- intros e [Hs|[[_ Hr]|[_ [_ Hr]]]];
             [discriminate Hs|congruence|congruence].
      * destruct (Handler e1 True I) as [HOk HRaise].
        split; [exact NotMock|]. split; [|split; [|split]].
        -- intros st Hst. destruct (HOk st Hst) as (A & B & C & D).
           split; [exact A|]. split; [exact B|]. split; [|exact D].
           intros Hm. destruct (C Hm) as (e' & F & ->).
           exists e1. split; [exact F|]. right. exists 1%nat. split; [lia|exact R1].
        -- intros e' He. destruct (HRaise e' He) as (F & ->).
           split; [exact F|]. right. exists 1%nat. split; [lia|exact R1].
        -- intros _ All. destruct (All 1%nat) as (? & ?); [lia|congruence].
        -- intros e [Hs|[[_ Hr]|[_ [_ Hr]]]];
             [discriminate Hs|congruence|].
           injection Hr as <-. apply First.
    + destruct (Handler e0 True I) as [HOk HRaise].
      split; [exact NotMock|]. split; [|split; [|split]].
      * intros st Hst. destruct (HOk st Hst) as (A & B & C & D).
        split; [exact A|]. split; [exact B|]. split; [|exact D].
        intros Hm. destruct (C Hm) as (e' & F & ->).
        exists e0. split; [exact F|]. right. exists 0%nat. split; [lia|exact R0].
      * intros e' He. destruct (HRaise e' He) as (F & ->).
        split; [exact F|]. right. exists 0%nat. split; [lia|exact R0].
      * intros _ All. destruct (All 0%nat) as (? & ?); [lia|congruence].
      * intros e [Hs|[[_ Hr]|[_ [[t Ht] _]]]];
          [discriminate Hs| |congruence].
        injection Hr as <-. apply First.
  - cbn [exec fst snd].
    destruct (Handler e0 True I) as [HOk HRaise].
    split; [exact NotMock|]. split; [|split; [|split]].
    + intros st Hst. destruct (HOk st Hst) as (A & B & C & D).
      split; [exact A|]. split; [exact B|]. split; [|exact D].
      intros Hm. destruct (C Hm) as (e' & F & ->).
      exists e0. split; [exact F|]. now left.
    + intros e' He. destruct (HRaise e' He) as (F & ->).
      split; [exact F|]. now left.
    + discriminate.
    + intros e [Hs|[[Hs _]|[Hs _]]]; [|discriminate Hs|discriminate Hs].
      injection Hs as <-. apply First.
Qed.

(** An exception of another class leaves [start]; FileNotFoundError does
    not. *)
Example start_raises :
  fst (run_alone (start (SpawnRaises (OtherError "PermissionError")) [])
                 not_running)
  = Raise (OtherError "PermissionError") /\
  fst (run_alone (start Spawned []) not_running) = Raise RuntimeError /\
  fst (run_alone (start (SpawnRaises (OtherError "FileNotFoundError")) [])
                 not_running)
  = Ok {| version := "mock"; ready := true |}.
Proof. repeat split. Qed.

(** The engine started on a banner of gnubg. *)
Example start_on_banner :
  run_alone (start Spawned (chars "GNU Backgammon 1.07.001  Jan  1 2024"))
            (fun _ => Ok ""%string)
  = (Ok {| version := "1.07.001"; ready := true |},
     [ "set evaluation chequer eval plies 2"%string;
       "set evaluation cubedecision eval plies 2"%string ]).
Proof. vm_compute. reflexivity. Qed.

(** ** The two modes of the cube decision *)

Lemma parse_cube_action (output : list ascii) (resp : CubeResponse) :
  _parse_cube output = Ok resp ->
  (recommendation resp = "no_double"%string /\
   proper_cube_action resp = "No Double"%string) \/
  (recommendation resp = "double_take"%string /\
   proper_cube_action resp = "Double Take"%string) \/
  (recommendation resp = "double_pass"%string /\
   proper_cube_action resp = "Double Pass"%string).
Proof.
  unfold _parse_cube.
  destruct (equity_or (search nd_pat output) 0%float) as [nd|]; cbn [bind];
    [|discriminate].
  destruct (equity_or (search dt_pat output) 0%float) as [dt|]; cbn [bind];
    [|discriminate].
  destruct (equity_or (search dp_pat output) 1%float) as [dp|]; cbn [bind];
    [|discriminate].
  intros [= <-]. cbn [recommendation proper_cube_action].
  destruct (py_max3 nd dt dp =? nd)%float; [now left|].
  destruct (py_max3 nd dt dp =? dt)%float; [right; now left|right; now right].
Qed.

(** X20. The cube decision in the two modes.  A parsed response has one of
    the three recommendations with its title-cased action ("No Double",
    "Double Take", "Double Pass"); the mock response has "no_double" with
    "No double" or "double_take" with "Double, take", never "double_pass",
    and the pass equity 1.0.  The action text of a mock response is thus
    never that of a parsed one. *)
Theorem cube_action_texts (output : list ascii) (resp : CubeResponse)
  (draws : MockDraws) :
  _parse_cube output = Ok resp ->
  ((recommendation resp = "no_double"%string /\
    proper_cube_action resp = "No Double"%string) \/
   (recommendation resp = "double_take"%string /\
    proper_cube_action resp = "Double Take"%string) \/
   (recommendation resp = "double_pass"%string /\
    proper_cube_action resp = "Double Pass"%string)) /\
  ((recommendation (_mock_cube draws) = "no_double"%string /\
    proper_cube_action (_mock_cube draws) = "No double"%string) \/
   (recommendation (_mock_cube draws) = "double_take"%string /\
    proper_cube_action (_mock_cube draws) = "Double, take"%string)) /\
  double_pass_equity (_mock_cube draws) = 1%float /\
  proper_cube_action resp <> proper_cube_action (_mock_cube draws).
Proof.
  intros H. pose proof (parse_cube_action output resp H) as P.
  assert (M : (recommendation (_mock_cube draws) = "no_double"%string /\
               proper_cube_action (_mock_cube draws) = "No double"%string) \/
              (recommendation (_mock_cube draws) = "double_take"%string /\
               proper_cube_action (_mock_cube draws) = "Double, take"%string)).
  { unfold _mock_cube. cbn [recommendation proper_cube_action].
    destruct (uniform_cube draws <? 0.4)%float; [now left|now right]. }
  split; [exact P|]. split; [exact M|]. split; [reflexivity|].
  destruct P as [[_ ->]|[[_ ->]|[_ ->]]];
    destruct M as [[_ ->]| [_ ->]]; discriminate.
Qed.

Lemma cube_action_texts_witness :
  exists resp,
    _parse_cube (chars cube_hint) = Ok resp /\
    proper_cube_action resp <> proper_cube_action (_mock_cube some_draws).
Proof.
  eexists. split; [vm_compute; reflexivity|].
  apply (cube_action_texts (chars cube_hint) _ some_draws).
  vm_compute. reflexivity.
Defined.

End LifecycleFacts.

